(** * Update detection and scheduling engine of docker-notify

    A shallow embedding of the Go sources

    - [internal/docker/client.go], package [docker]: [ParseImageReference]
      and the methods of [ImageReference], [convertContainer] and
      [GetRunningContainers];
    - package [registry] (same file): the version classifier and comparator,
      [findLatestTag], [CheckImageUpdate], [CheckMultipleImages] and the
      construction of the rate limiter;
    - package [scheduler]: the per-task execution guard of [RunTask] and
      [wrapTaskHandler];
    - package [main]: [filterContainers] with its pattern matching, and
      [performImageCheck], one round of checking.

    Go strings are byte sequences; they are modelled by [string], whose
    characters ([ascii]) are exactly the 256 byte values.  Go's [int] is
    modelled by [Z] with the range of the 64-bit targets written out where
    the code can observe it ([strconv.Atoi]). *)

From Stdlib Require Import ZArith String Ascii List Bool Lia Permutation.
From stdpp Require Import base option list.
Import ListNotations.

Local Open Scope string_scope.
Local Open Scope Z_scope.

(** ** Byte and string primitives of the Go runtime and of package [strings] *)

Module Strings.

Definition byte_in (lo hi a : ascii) : bool :=
  (N_of_ascii lo <=? N_of_ascii a)%N && (N_of_ascii a <=? N_of_ascii hi)%N.

Definition is_digit (a : ascii) : bool := byte_in "0" "9" a.
Definition is_upper (a : ascii) : bool := byte_in "A" "Z" a.
Definition is_lower (a : ascii) : bool := byte_in "a" "z" a.

(** [c < utf8.RuneSelf], that is [c < 0x80]. *)
Definition is_ascii_byte (a : ascii) : bool := (N_of_ascii a <? 128)%N.

Fixpoint all_bytes (p : ascii -> bool) (s : string) : bool :=
  match s with
  | EmptyString => true
  | String a s' => p a && all_bytes p s'
  end.

Fixpoint map_bytes (f : ascii -> ascii) (s : string) : string :=
  match s with
  | EmptyString => EmptyString
  | String a s' => String (f a) (map_bytes f s')
  end.

(** [c += 'a' - 'A'] on an upper-case ASCII letter. *)
Definition lower_byte (a : ascii) : ascii :=
  if is_upper a then ascii_of_N (N_of_ascii a + 32) else a.

(** [strings.HasPrefix]. *)
Fixpoint HasPrefix (s prefix : string) : bool :=
  match prefix, s with
  | EmptyString, _ => true
  | String p prefix', String a s' => Ascii.eqb a p && HasPrefix s' prefix'
  | String _ _, EmptyString => false
  end.

(** [strings.Contains]: [substr] occurs at some offset of [s]. *)
Fixpoint Contains (s substr : string) : bool :=
  HasPrefix s substr ||
  match s with
  | EmptyString => false
  | String _ s' => Contains s' substr
  end.

(** [s[n:]] for [n <= len(s)]. *)
Fixpoint drop (n : nat) (s : string) : string :=
  match n, s with
  | S n', String _ s' => drop n' s'
  | _, _ => s
  end.

(** [strings.TrimPrefix]. *)
Definition TrimPrefix (s prefix : string) : string :=
  if HasPrefix s prefix then drop (String.length prefix) s else s.

Definition is_ascii (s : string) : bool := all_bytes is_ascii_byte s.

(** The case table of package [unicode] is not part of the sources:
    [unicodeToLower s] stands for [strings.Map(unicode.ToLower, s)], which
    [strings.ToLower] calls for a string that has a byte outside ASCII. *)
Class UnicodeCase := unicodeToLower : string -> string.

(** The table that leaves every string as it is; it stands in for the
    Unicode table where a property is evaluated on ASCII strings, for
    which [strings.ToLower] does not consult the table. *)
Definition asciiOnly : UnicodeCase := fun s => s.

(** [strings.ToLower]. *)
Definition ToLower `{UnicodeCase} (s : string) : string :=
  if is_ascii s then map_bytes lower_byte s else unicodeToLower s.

(** [s[:len(s)-len(rest)]]: the bytes of [s] in front of its suffix
    [rest]. *)
Fixpoint before (s rest : string) : string :=
  match s with
  | EmptyString => EmptyString
  | String a s' =>
      if (String.length s <=? String.length rest)%nat then EmptyString
      else String a (before s' rest)
  end.

(** The comparison operators of Go on strings: lexicographic on bytes. *)
Definition lt (s t : string) : bool := String.ltb s t.
Definition gt (s t : string) : bool := String.ltb t s.

End Strings.

(** ** Package [regexp]

    The patterns of the sources are anchored on both sides, use greedy
    operators only, and repeat only sub-patterns that consume at least one
    byte.  For such patterns the leftmost-first match that Go's
    [FindStringSubmatch] reports is the first match found by a backtracking
    search that tries every greedy operator "more first"; [run] is that
    search, in continuation-passing style.

    Go matches runes; the classes of the sources are either sets of ASCII
    bytes or complements of such sets, and wherever two pieces of a pattern
    meet one of them is an ASCII literal or the end of the text.  Matching
    byte by byte therefore finds the same match and the same submatches. *)

Module Regexp.

Inductive regex : Type :=
| Eps
| Class (p : ascii -> bool)
| Cat (r1 r2 : regex)
| Quest (r : regex)
| Star (r : regex)
| Group (n : nat) (r : regex).

Definition Lit (c : ascii) : regex := Class (Ascii.eqb c).
Definition Plus (r : regex) : regex := Cat r (Star r).

(** Concatenation of the pieces of a pattern, left to right. *)
Fixpoint Seq (rs : list regex) : regex :=
  match rs with
  | [] => Eps
  | [r] => r
  | r :: rs' => Cat r (Seq rs')
  end.

(** Submatches found so far: group number and matched text, the most
    recent first. *)
Definition captures := list (nat * string).

Fixpoint submatch (c : captures) (n : nat) : string :=
  match c with
  | [] => ""
  | (m, s) :: c' => if Nat.eqb m n then s else submatch c' n
  end.

Definition cont := string -> captures -> option captures.

(** One more round of a repetition whose body is matched by [body], at most
    [n] rounds in all, then [k].  A round that consumes nothing is not
    taken, so every round shortens the text and [String.length s] rounds
    are all that can ever be made from [s]. *)
Fixpoint iterate (body : string -> captures -> cont -> option captures) (k : cont)
    (n : nat) (s : string) (c : captures) {struct n} : option captures :=
  match n with
  | O => k s c
  | S n' =>
      match body s c
              (fun s' c' =>
                 if (String.length s' <? String.length s)%nat
                 then iterate body k n' s' c' else None) with
      | Some m => Some m
      | None => k s c
      end
  end.

(** [run r s c k]: match [r] at the front of [s], then continue with [k] on
    what is left; where there is a choice, the greedy one is tried first and
    the other one only when nothing that follows succeeds. *)
Fixpoint run (r : regex) (s : string) (c : captures) (k : cont)
  : option captures :=
  match r with
  | Eps => k s c
  | Class p =>
      match s with
      | String a s' => if p a then k s' c else None
      | EmptyString => None
      end
  | Cat r1 r2 => run r1 s c (fun s' c' => run r2 s' c' k)
  | Quest r1 =>
      match run r1 s c k with
      | Some m => Some m
      | None => k s c
      end
  | Star r1 => iterate (run r1) k (String.length s) s c
  | Group n r1 =>
      run r1 s c (fun s' c' => k s' ((n, Strings.before s s') :: c'))
  end.

(** [NumSubexp]. *)
Fixpoint NumSubexp (r : regex) : nat :=
  match r with
  | Eps | Class _ => 0
  | Cat r1 r2 => NumSubexp r1 + NumSubexp r2
  | Quest r1 | Star r1 => NumSubexp r1
  | Group _ r1 => S (NumSubexp r1)
  end.

(** [FindStringSubmatch] for the pattern [^r$]: [None] is Go's nil slice;
    otherwise the slice holds the whole match followed by one entry per
    group, empty for a group that did not take part. *)
Definition FindStringSubmatch (r : regex) (s : string) : option (list string) :=
  match run r s [] (fun s' c => match s' with EmptyString => Some c | _ => None end) with
  | None => None
  | Some c => Some (s :: map (fun i => submatch c (S i)) (seq 0 (NumSubexp r)))
  end.

(** [MatchString] for the pattern [^r$]. *)
Definition MatchString (r : regex) (s : string) : bool :=
  match FindStringSubmatch r s with Some _ => true | None => false end.

End Regexp.

(** ** Package [strconv] *)

Module Strconv.

(** [strconv.IntSize] on the amd64 and arm64 targets. *)
Definition intSize : Z := 64.
Definition maxInt : Z := 2 ^ (intSize - 1) - 1.
Definition minInt : Z := - 2 ^ (intSize - 1).

Fixpoint digits_value (s : string) (acc : Z) : option Z :=
  match s with
  | EmptyString => Some acc
  | String a s' =>
      if Strings.is_digit a
      then digits_value s' (acc * 10 + (Z.of_N (N_of_ascii a) - 48))
      else None
  end.

(** [strconv.Atoi]: an optional sign and at least one decimal digit;
    [None] stands for a syntax or range error. *)
Definition Atoi (s : string) : option Z :=
  let '(neg, body) :=
    match s with
    | String "+" t => (false, t)
    | String "-" t => (true, t)
    | _ => (false, s)
    end in
  match body with
  | EmptyString => None
  | _ =>
      match digits_value body 0 with
      | None => None
      | Some v =>
          let n := if neg then - v else v in
          if (minInt <=? n) && (n <=? maxInt) then Some n else None
      end
  end.

End Strconv.

(** Errors are kept as values of one type, one constructor per
    [fmt.Errorf] site; [ErrExternal] is an error that comes from outside the
    modelled code (the limiter, the network, a task handler). *)
Inductive error : Type :=
| ErrEmptyReference
| ErrInvalidFormat (image : string)
| ErrNoTags
| ErrRateLimiter (cause : error)
| ErrGetTags (cause : error)
| ErrAllFailed (n : nat)
| ErrExternal (msg : string).

Inductive result (A : Type) : Type :=
| Ok (a : A)
| Err (e : error).
Arguments Ok {A} a.
Arguments Err {A} e.

(** ** Package [docker]: image references *)

Module Docker.
Import Regexp.

Record ImageReference : Type := {
  Registry : string;
  Namespace : string;
  Repository : string;
  Tag : string;
  Digest : string;
  FullName : string
}.

Definition not_slash (a : ascii) : bool := negb (Ascii.eqb a "/").
Definition not_colon_at_slash (a : ascii) : bool :=
  negb (Ascii.eqb a ":" || Ascii.eqb a "@" || Ascii.eqb a "/").
Definition not_at (a : ascii) : bool := negb (Ascii.eqb a "@").
(** [.] without the [s] flag: anything but a line feed. *)
Definition any_but_newline (a : ascii) : bool := negb (Ascii.eqb a "010").

(** [^(?:([^/]+(?:\.[^/]+)*(?::[0-9]+)?)/)?(?:([^/]+)/)?([^:@/]+)(?::([^@]+))?(?:@(.+))?$] *)
Definition referencePattern : regex :=
  Seq [ Quest (Seq [ Group 1 (Seq [ Plus (Class not_slash);
                                    Star (Seq [Lit "."; Plus (Class not_slash)]);
                                    Quest (Seq [Lit ":"; Plus (Class Strings.is_digit)]) ]);
                     Lit "/" ]);
        Quest (Seq [ Group 2 (Plus (Class not_slash)); Lit "/" ]);
        Group 3 (Plus (Class not_colon_at_slash));
        Quest (Seq [ Lit ":"; Group 4 (Plus (Class not_at)) ]);
        Quest (Seq [ Lit "@"; Group 5 (Plus (Class any_but_newline)) ]) ].

Definition ParseImageReference (image : string) : result ImageReference :=
  if String.eqb image "" then Err ErrEmptyReference
  else
    match FindStringSubmatch referencePattern image with
    | None => Err (ErrInvalidFormat image)
    | Some matches =>
        let registry := nth 1 matches "" in
        let namespace := nth 2 matches "" in
        let repository := nth 3 matches "" in
        let tag := nth 4 matches "" in
        let digest := nth 5 matches "" in
        let registry := if String.eqb registry "" then "docker.io" else registry in
        let tag := if String.eqb tag "" && String.eqb digest "" then "latest" else tag in
        let fullRepo := repository in
        let fullRepo :=
          if negb (String.eqb namespace "") then namespace ++ "/" ++ repository
          else fullRepo in
        let fullRepo :=
          if String.eqb registry "docker.io" && String.eqb namespace ""
             && negb (Strings.Contains repository "/")
          then "library/" ++ repository
          else fullRepo in
        Ok {| Registry := registry;
              Namespace := namespace;
              Repository := fullRepo;
              Tag := tag;
              Digest := digest;
              FullName := image |}
    end.

Definition IsPrivateRegistry (ir : ImageReference) : bool :=
  negb (String.eqb (Registry ir) "docker.io")
  && negb (String.eqb (Registry ir) "index.docker.io").

(** The method [String] of [ImageReference]. *)
Definition String_ (ir : ImageReference) : string :=
  if negb (String.eqb (Tag ir) "") then
    Registry ir ++ "/" ++ Repository ir ++ ":" ++ Tag ir
  else if negb (String.eqb (Digest ir) "") then
    Registry ir ++ "/" ++ Repository ir ++ "@" ++ Digest ir
  else Registry ir ++ "/" ++ Repository ir.

End Docker.

(** ** Package [registry]: versions, tag resolution and update checks *)

Module Registry.
Import Regexp.

Record VersionFilterConfig : Type := {
  ExcludePreRelease : bool;
  ExcludeWindows : bool;
  ExcludePatterns : list string;
  OnlyStable : bool
}.

(** [rate.Limiter] as [rate.NewLimiter] sets it up: [limit] events per
    second are admitted in the long run, [burst] at once.  The limit is a
    [float64] in Go; the sources only ever convert an [int] quotient to it,
    so it is kept as an integer here. *)
Record Limiter : Type := {
  limit : Z;
  burst : Z
}.

Definition NewLimiter (r : Z) (b : Z) : Limiter := {| limit := r; burst := b |}.

(** Events admitted per minute in the long run. *)
Definition eventsPerMinute (l : Limiter) : Z := 60 * limit l.

(** The HTTP client and the logger carry no state the claims observe. *)
Record Client : Type := {
  rateLimiter : Limiter;
  versionFilters : VersionFilterConfig
}.

(** [LastUpdated] is never assigned and is left out. *)
Record ImageUpdateInfo : Type := {
  CurrentTag : string;
  LatestTag : string;
  AvailableTags : list string;
  HasUpdate : bool;
  Registry : string;
  Repository : string
}.

Inductive VersionComparison : Type :=
| VersionEqual
| VersionOlder
| VersionNewer
| VersionIncomparable.

Definition VersionComparison_eqb (a b : VersionComparison) : bool :=
  match a, b with
  | VersionEqual, VersionEqual
  | VersionOlder, VersionOlder
  | VersionNewer, VersionNewer
  | VersionIncomparable, VersionIncomparable => true
  | _, _ => false
  end.

(** [requestsPerMinute/60] is a division of [int]s: it truncates. *)
Definition NewClient (requestsPerMinute : Z) (burst : Z) : Client :=
  let limiter := NewLimiter (Z.quot requestsPerMinute 60) burst in
  {| rateLimiter := limiter;
     versionFilters := {| ExcludePreRelease := true;
                          ExcludeWindows := true;
                          ExcludePatterns := [];
                          OnlyStable := true |} |}.

Definition NewClientWithFilters (requestsPerMinute : Z) (burst : Z)
    (filters : VersionFilterConfig) : Client :=
  let limiter := NewLimiter (Z.quot requestsPerMinute 60) burst in
  {| rateLimiter := limiter; versionFilters := filters |}.

(** [[a-zA-Z0-9\-\.]] *)
Definition ident_byte (a : ascii) : bool :=
  Strings.is_lower a || Strings.is_upper a || Strings.is_digit a
  || Ascii.eqb a "-" || Ascii.eqb a ".".

Definition digits : regex := Plus (Class Strings.is_digit).

(** [^(\d+)\.(\d+)\.(\d+)(?:-([a-zA-Z0-9\-\.]+))?(?:\+([a-zA-Z0-9\-\.]+))?$] *)
Definition semverPattern : regex :=
  Seq [ Group 1 digits; Lit "."; Group 2 digits; Lit "."; Group 3 digits;
        Quest (Seq [ Lit "-"; Group 4 (Plus (Class ident_byte)) ]);
        Quest (Seq [ Lit "+"; Group 5 (Plus (Class ident_byte)) ]) ].

(** [^v?(\d+)\.(\d+)\.(\d+)(?:-([a-zA-Z0-9\-\.]+))?(?:\+([a-zA-Z0-9\-\.]+))?$] *)
Definition semverTagPattern : regex :=
  Seq [ Quest (Lit "v");
        Group 1 digits; Lit "."; Group 2 digits; Lit "."; Group 3 digits;
        Quest (Seq [ Lit "-"; Group 4 (Plus (Class ident_byte)) ]);
        Quest (Seq [ Lit "+"; Group 5 (Plus (Class ident_byte)) ]) ].

(** [^(\d+)\.(\d+)\.(\d+)(?:\+([a-zA-Z0-9\-\.]+))?$] *)
Definition stablePattern : regex :=
  Seq [ Group 1 digits; Lit "."; Group 2 digits; Lit "."; Group 3 digits;
        Quest (Seq [ Lit "+"; Group 4 (Plus (Class ident_byte)) ]) ].

Record SemanticVersion : Type := {
  Major : Z;
  Minor : Z;
  Patch : Z;
  PreRelease : string;
  Build : string
}.

(** [None] is the nil pointer. *)
Definition parseSemanticVersion (version : string) : option SemanticVersion :=
  let version := Strings.TrimPrefix version "v" in
  let matches :=
    match FindStringSubmatch semverPattern version with
    | Some m => m
    | None => []
    end in
  if (List.length matches <? 4)%nat then None
  else
    match Strconv.Atoi (nth 1 matches "") with
    | None => None
    | Some major =>
        match Strconv.Atoi (nth 2 matches "") with
        | None => None
        | Some minor =>
            match Strconv.Atoi (nth 3 matches "") with
            | None => None
            | Some patch =>
                let preRelease :=
                  if (4 <? List.length matches)%nat then nth 4 matches "" else "" in
                let build :=
                  if (5 <? List.length matches)%nat then nth 5 matches "" else "" in
                Some {| Major := major;
                        Minor := minor;
                        Patch := patch;
                        PreRelease := preRelease;
                        Build := build |}
            end
        end
    end.

Definition compareVersions (version1 version2 : string) : VersionComparison :=
  if String.eqb version1 version2 then VersionEqual
  else if String.eqb version1 "latest" || String.eqb version2 "latest"
  then VersionIncomparable
  else
    match parseSemanticVersion version1, parseSemanticVersion version2 with
    | Some v1, Some v2 =>
        if Major v1 <? Major v2 then VersionOlder
        else if Major v1 >? Major v2 then VersionNewer
        else if Minor v1 <? Minor v2 then VersionOlder
        else if Minor v1 >? Minor v2 then VersionNewer
        else if Patch v1 <? Patch v2 then VersionOlder
        else if Patch v1 >? Patch v2 then VersionNewer
        else if String.eqb (PreRelease v1) "" && negb (String.eqb (PreRelease v2) "")
        then VersionNewer
        else if negb (String.eqb (PreRelease v1) "") && String.eqb (PreRelease v2) ""
        then VersionOlder
        else if negb (String.eqb (PreRelease v1) "")
                && negb (String.eqb (PreRelease v2) "")
        then
          if Strings.lt (PreRelease v1) (PreRelease v2) then VersionOlder
          else if Strings.gt (PreRelease v1) (PreRelease v2) then VersionNewer
          else VersionEqual
        else VersionEqual
    | _, _ =>
        if Strings.lt version1 version2 then VersionOlder
        else if Strings.gt version1 version2 then VersionNewer
        else VersionEqual
    end.

(** The order of the specification on parsed versions, for comparison
    with [compareVersions]: major, then minor, then patch, numerically;
    then a release above a pre-release; then the pre-release texts, byte
    by byte.  [Build] does not occur in it. *)
Definition semverOrder (v1 v2 : SemanticVersion) : VersionComparison :=
  match Major v1 ?= Major v2 with
  | Lt => VersionOlder
  | Gt => VersionNewer
  | Eq =>
      match Minor v1 ?= Minor v2 with
      | Lt => VersionOlder
      | Gt => VersionNewer
      | Eq =>
          match Patch v1 ?= Patch v2 with
          | Lt => VersionOlder
          | Gt => VersionNewer
          | Eq =>
              match PreRelease v1, PreRelease v2 with
              | EmptyString, EmptyString => VersionEqual
              | EmptyString, String _ _ => VersionNewer
              | String _ _, EmptyString => VersionOlder
              | p1, p2 =>
                  match String.compare p1 p2 with
                  | Lt => VersionOlder
                  | Gt => VersionNewer
                  | Eq => VersionEqual
                  end
              end
          end
      end
  end.

(** [""] when [tags] is empty; otherwise a scan that starts from the first
    tag and moves on whenever the tag held so far compares older. *)
Definition findHighestSemanticVersion (tags : list string) : string :=
  match tags with
  | [] => ""
  | first :: rest =>
      fold_left
        (fun highest tag =>
           if VersionComparison_eqb (compareVersions highest tag) VersionOlder
           then tag else highest)
        rest first
  end.

Definition filterSemanticVersionTags (tags : list string) : list string :=
  List.filter (fun tag => MatchString semverTagPattern tag) tags.

Definition isStableSemanticVersion (tag : string) : bool :=
  let cleanTag := Strings.TrimPrefix tag "v" in
  MatchString stablePattern cleanTag.

(** What the outside world answered one call of [CheckImageUpdate]:
    [waitAnswer] is the value of [c.rateLimiter.Wait(ctx)] ([None] is
    nil) and [tagsAnswer] the value of [c.getImageTags], which is only
    looked at when the wait succeeded. *)
Record Answers : Type := {
  waitAnswer : option error;
  tagsAnswer : result (list string)
}.

Module ImageCheck.
Record t : Type := {
  Registry : string;
  Repository : string;
  Tag : string
}.
End ImageCheck.

Record ImageUpdateResult : Type := {
  UpdateInfo : option ImageUpdateInfo;
  Error : option error;
  Image : ImageCheck.t
}.

Inductive outcome (A : Type) : Type :=
| Returns (a : A)
| Panics
| Blocks.

Arguments Returns {A} a.
Arguments Panics {A}.
Arguments Blocks {A}.

Section WithUnicodeCase.
Context `{Strings.UnicodeCase}.

Definition excludePatternsOf (f : VersionFilterConfig) : list string :=
  (if ExcludePreRelease f
   then ["rc"; "alpha"; "beta"; "dev"; "snapshot"; "nightly"; "pre"] else [])
  ++ (if ExcludeWindows f
      then ["windows"; "windowsservercore"; "nanoserver"; "ltsc"; "insider"] else [])
  ++ ExcludePatterns f.

Definition filterUnwantedVersions (c : Client) (tags : list string) : list string :=
  let excludePatterns := excludePatternsOf (versionFilters c) in
  List.filter
    (fun tag =>
       let tagLower := Strings.ToLower tag in
       let shouldExclude :=
         existsb (fun pattern => Strings.Contains tagLower (Strings.ToLower pattern))
                 excludePatterns in
       let shouldExclude :=
         if negb shouldExclude && OnlyStable (versionFilters c)
         then (if negb (isStableSemanticVersion tag) then true else shouldExclude)
         else shouldExclude in
       negb shouldExclude)
    tags.

Definition findLatestTag (c : Client) (tags : list string) (currentTag : string)
  : result string :=
  match tags with
  | [] => Err ErrNoTags
  | first :: _ =>
      if String.eqb currentTag "latest"
      then Ok (findHighestSemanticVersion tags)
      else
        let semverTags := filterSemanticVersionTags tags in
        let filteredTags := filterUnwantedVersions c semverTags in
        match filteredTags with
        | [] =>
            if existsb (fun tag => String.eqb tag "latest") tags
            then Ok "latest"
            else Ok first
        | _ :: _ => Ok (findHighestSemanticVersion filteredTags)
        end
  end.

(** The Go function returns a pair of a pointer and an error; both
    components are kept. *)
Definition CheckImageUpdate (c : Client) (env : Answers)
    (registry repository currentTag : string)
  : option ImageUpdateInfo * option error :=
  match waitAnswer env with
  | Some err => (None, Some (ErrRateLimiter err))
  | None =>
      let updateInfo (tags : list string) (latestTag : string) (hasUpdate : bool) :=
        {| CurrentTag := currentTag;
           LatestTag := latestTag;
           AvailableTags := tags;
           HasUpdate := hasUpdate;
           Registry := registry;
           Repository := repository |} in
      match tagsAnswer env with
      | Err err => (None, Some (ErrGetTags err))
      | Ok tags =>
          if (List.length tags =? 0)%nat then (Some (updateInfo tags "" false), None)
          else
            match findLatestTag c tags currentTag with
            | Err _ => (Some (updateInfo tags "" false), None)
            | Ok latestTag =>
                let comparison := compareVersions currentTag latestTag in
                (Some (updateInfo tags latestTag
                         (VersionComparison_eqb comparison VersionOlder)),
                 None)
            end
      end
  end.

(** The body of the goroutine started for one image, between acquiring
    and releasing the semaphore. *)
Definition checkOne (c : Client) (job : ImageCheck.t * Answers) : ImageUpdateResult :=
  let '(imageCheck, env) := job in
  let '(updateInfo, err) :=
    CheckImageUpdate c env (ImageCheck.Registry imageCheck)
      (ImageCheck.Repository imageCheck) (ImageCheck.Tag imageCheck) in
  {| UpdateInfo := updateInfo; Error := err; Image := imageCheck |}.

(** The collecting loop: one receive from [results] per image. *)
Definition collect (results : list ImageUpdateResult)
  : list ImageUpdateInfo * list error :=
  fold_left
    (fun '(updateInfos, errors) result =>
       match Error result with
       | Some e => (updateInfos, (errors ++ [e])%list)
       | None =>
           match UpdateInfo result with
           | Some info => ((updateInfos ++ [info])%list, errors)
           | None => (updateInfos, errors)
           end
       end)
    results ([], []).

(** [arrivals] lists the images of the call, each with the answers its
    check received, in the order in which the goroutines deliver their
    results on the channel: every goroutine sends exactly one result and
    the loop receives [len(images)] of them.

    [make(chan struct{}, maxConcurrency)] panics for a negative size; for
    size zero the channel is unbuffered, no goroutine ever gets past
    [sem <- struct{}{}] and the first receive never completes. *)
Definition CheckMultipleImages (c : Client)
    (arrivals : list (ImageCheck.t * Answers)) (maxConcurrency : Z)
  : outcome (list ImageUpdateInfo * option error) :=
  if (List.length arrivals =? 0)%nat then Returns ([], None)
  else if maxConcurrency <? 0 then Panics
  else if maxConcurrency =? 0 then Blocks
  else
    let '(updateInfos, errors) := collect (map (checkOne c) arrivals) in
    if (0 <? List.length errors)%nat && (List.length updateInfos =? 0)%nat
    then Returns ([], Some (ErrAllFailed (List.length errors)))
    else Returns (updateInfos, None).

(** The check of [job] ended with an error. *)
Definition failed (c : Client) (job : ImageCheck.t * Answers) : bool :=
  match Error (checkOne c job) with
  | Some _ => true
  | None => false
  end.

(** The verdict of a check that ended without error. *)
Definition verdict (c : Client) (job : ImageCheck.t * Answers)
  : option ImageUpdateInfo :=
  match Error (checkOne c job) with
  | Some _ => None
  | None => UpdateInfo (checkOne c job)
  end.

End WithUnicodeCase.

(** Sample data: an image of the default registry, a registry that
    answers with the given tags, and one that cannot be reached. *)
Definition nginx : ImageCheck.t :=
  {| ImageCheck.Registry := "docker.io";
     ImageCheck.Repository := "library/nginx";
     ImageCheck.Tag := "1.21.0" |}.

Definition answered (tags : list string) : Answers :=
  {| waitAnswer := None; tagsAnswer := Ok tags |}.

Definition unreachable : Answers :=
  {| waitAnswer := None; tagsAnswer := Err (ErrExternal "connection refused") |}.

End Registry.

(** ** Package [registry]: the goroutines and channels of [CheckMultipleImages]

    [CheckMultipleImages] starts one goroutine per image and then receives
    [len(images)] results.  The model is an interleaving of these
    goroutines, one statement or channel operation per step.

    A channel is its buffer.  A send goes through while the buffer has
    room, a receive while it holds a value; on an empty buffer a send can
    also be handed to a goroutine that waits in a receive, which is the only
    way through a channel without buffer.  The buffer of [sem] holds empty
    structs and is kept as their number.

    A goroutine that the launching loop has not started yet stands at its
    first statement.  A send on [results] that meets the waiting loop is a
    send into the buffer followed by the receive of the loop.

    A call of [CheckImageUpdate] is represented by the answers it received;
    a job without answers is a call that does not return. *)

Module Batch.
Import Registry.

(** Program points of the goroutine of one image.  From the send onwards
    the point carries the result that the goroutine has built. *)
Inductive wpc : Type :=
| WAcquire                           (* sem <- struct{}{} *)
| WCheck                             (* updateInfo, err := c.CheckImageUpdate(...) *)
| WSend (r : ImageUpdateResult)      (* results <- ImageUpdateResult{...} *)
| WRelease (r : ImageUpdateResult)   (* deferred: <-sem *)
| WDone (r : ImageUpdateResult).     (* returned *)

Record worker : Type := {
  job : ImageCheck.t * option Answers;
  at_wpc : wpc
}.

(** [capacity] is the size of [sem]; the size of [results] is the number of
    images.  [received] holds what the collecting loop has received so far,
    in the order of arrival. *)
Record state : Type := {
  capacity : nat;
  sem : nat;
  workers : list worker;
  results : list ImageUpdateResult;
  received : list ImageUpdateResult
}.

Inductive op : Type :=
| Acquire (i : nat)        (* goroutine [i] sends on [sem] *)
| Handover (i j : nat)     (* the send of [i] on [sem] meets the receive of [j] *)
| Check (i : nat)          (* the call of [CheckImageUpdate] of [i] returns *)
| Send (i : nat)           (* goroutine [i] sends on [results] *)
| Release (i : nat)        (* goroutine [i] receives from [sem] *)
| Receive.                 (* the collecting loop receives from [results] *)

(** How the function gets to its loop: at once for no images; [make]
    panics for a negative size. *)
Inductive entry : Type :=
| ReturnsAtOnce
| PanicsAtMake
| Launched (s : state).

Definition enter (jobs : list (ImageCheck.t * option Answers)) (maxConcurrency : Z)
  : entry :=
  if (List.length jobs =? 0)%nat then ReturnsAtOnce
  else if maxConcurrency <? 0 then PanicsAtMake
  else
    Launched {| capacity := Z.to_nat maxConcurrency;
                sem := 0;
                workers := map (fun j => {| job := j; at_wpc := WAcquire |}) jobs;
                results := [];
                received := [] |}.

(** The collecting loop has made its [len(images)] rounds. *)
Definition finished (s : state) : bool :=
  (List.length (received s) =? List.length (workers s))%nat.

Definition at_point (s : state) (i : nat) (w : worker) (p : wpc) : list worker :=
  <[i := {| job := job w; at_wpc := p |}]> (workers s).

Section WithUnicodeCase.
Context `{Strings.UnicodeCase}.

Definition step (c : Client) (s : state) (a : op) : option state :=
  match a with
  | Acquire i =>
      match workers s !! i with
      | Some w =>
          match at_wpc w with
          | WAcquire =>
              if (sem s <? capacity s)%nat
              then Some {| capacity := capacity s; sem := S (sem s);
                           workers := at_point s i w WCheck;
                           results := results s; received := received s |}
              else None
          | _ => None
          end
      | None => None
      end
  | Handover i j =>
      match workers s !! i, workers s !! j with
      | Some w, Some v =>
          match at_wpc w, at_wpc v with
          | WAcquire, WRelease r =>
              if (sem s =? 0)%nat
              then Some {| capacity := capacity s; sem := sem s;
                           workers :=
                             <[j := {| job := job v; at_wpc := WDone r |}]>
                               (at_point s i w WCheck);
                           results := results s; received := received s |}
              else None
          | _, _ => None
          end
      | _, _ => None
      end
  | Check i =>
      match workers s !! i with
      | Some w =>
          match at_wpc w, job w with
          | WCheck, (imageCheck, Some env) =>
              Some {| capacity := capacity s; sem := sem s;
                      workers := at_point s i w (WSend (checkOne c (imageCheck, env)));
                      results := results s; received := received s |}
          | _, _ => None
          end
      | None => None
      end
  | Send i =>
      match workers s !! i with
      | Some w =>
          match at_wpc w with
          | WSend r =>
              if (List.length (results s) <? List.length (workers s))%nat
              then Some {| capacity := capacity s; sem := sem s;
                           workers := at_point s i w (WRelease r);
                           results := (results s ++ [r])%list;
                           received := received s |}
              else None
          | _ => None
          end
      | None => None
      end
  | Release i =>
      match workers s !! i with
      | Some w =>
          match at_wpc w with
          | WRelease r =>
              match sem s with
              | S n =>
                  Some {| capacity := capacity s; sem := n;
                          workers := at_point s i w (WDone r);
                          results := results s; received := received s |}
              | O => None
              end
          | _ => None
          end
      | None => None
      end
  | Receive =>
      if finished s then None
      else
        match results s with
        | r :: rest =>
            Some {| capacity := capacity s; sem := sem s; workers := workers s;
                    results := rest; received := (received s ++ [r])%list |}
        | [] => None
        end
  end.

(** The states that the goroutines can bring about from [s0]. *)
Inductive runs (c : Client) (s0 : state) : state -> Prop :=
| run_here : runs c s0 s0
| run_on s a s' : runs c s0 s -> step c s a = Some s' -> runs c s0 s'.

(** The statements after the loop, on what the loop has received. *)
Definition conclude (collected : list ImageUpdateResult)
  : list ImageUpdateInfo * option error :=
  let '(updateInfos, errors) := collect collected in
  if (0 <? List.length errors)%nat && (List.length updateInfos =? 0)%nat
  then ([], Some (ErrAllFailed (List.length errors)))
  else (updateInfos, None).

(** The states after the steps [ops], taken in turn. *)
Fixpoint play (c : Client) (s : state) (ops : list op) : option state :=
  match ops with
  | [] => Some s
  | a :: ops' =>
      match step c s a with
      | Some s' => play c s' ops'
      | None => None
      end
  end.

End WithUnicodeCase.

(** What is left to do, for a bound on the length of a run. *)
Definition rank (p : wpc) : nat :=
  match p with
  | WAcquire => 4
  | WCheck => 3
  | WSend _ => 2
  | WRelease _ => 1
  | WDone _ => 0
  end.

Definition work_left (s : state) : nat :=
  2 * list_sum (map (fun w => rank (at_wpc w)) (workers s)) + List.length (results s).

(** The goroutine is between its send on [sem] and its receive from it. *)
Definition in_slot (p : wpc) : nat :=
  match p with
  | WCheck | WSend _ | WRelease _ => 1
  | _ => 0
  end.

(** The goroutine is inside [CheckImageUpdate]. *)
Definition checking (p : wpc) : nat :=
  match p with
  | WCheck => 1
  | _ => 0
  end.

(** The results that a goroutine has put on [results]. *)
Definition delivered (p : wpc) : list ImageUpdateResult :=
  match p with
  | WRelease r | WDone r => [r]
  | _ => []
  end.

(** A job whose call of [CheckImageUpdate] returns, with its answers. *)
Definition returning (arrival : ImageCheck.t * Answers)
  : ImageCheck.t * option Answers :=
  (fst arrival, Some (snd arrival)).

Definition all_return (jobs : list (ImageCheck.t * option Answers)) : Prop :=
  Forall (fun j => snd j <> None) jobs.

Section WithUnicodeCase.
Context `{Strings.UnicodeCase}.

(** The result that a goroutine carries is what [CheckImageUpdate]
    returned for its image. *)
Definition built (c : Client) (w : worker) : Prop :=
  match at_wpc w with
  | WSend r | WRelease r | WDone r =>
      exists imageCheck env,
        job w = (imageCheck, Some env) /\ r = checkOne c (imageCheck, env)
  | _ => True
  end.

(** What the channels say about the goroutines: [sem] holds one value for
    every goroutine between its send on it and its receive from it, never
    more than its size; and what the loop has received, with what waits in
    [results], is what the goroutines have sent. *)
Record accounted (c : Client) (jobs : list (ImageCheck.t * option Answers))
    (size : nat) (s : state) : Prop := {
  same_jobs : map job (workers s) = jobs;
  same_size : capacity s = size;
  one_each : sem s = list_sum (map (fun w => in_slot (at_wpc w)) (workers s));
  within_size : (sem s <= capacity s)%nat;
  all_built : Forall (built c) (workers s);
  all_delivered :
    Permutation (received s ++ results s)
      (flat_map (fun w => delivered (at_wpc w)) (workers s))
}.

End WithUnicodeCase.

End Batch.

(** ** Package [scheduler]: the execution guard of one task

    [RunTask] and the closure built by [wrapTaskHandler] run concurrently, on
    goroutines of the caller and of the cron library.  All of them work on
    the fields of one [Task] through its mutex [mu].  The model is an
    interleaving of the goroutines, one statement of the source per step;
    [mu.Lock()] can only be taken while the mutex is free. *)

Module Scheduler.

(** How an execution was started: by the cron entry of the task
    ([wrapTaskHandler]) or on demand ([RunTask]). *)
Inductive origin : Type :=
| Scheduled
| OnDemand.

(** How [task.Handler(ctx)] ended. *)
Inductive ending : Type :=
| HandlerOk
| HandlerError (e : error)
| HandlerPanic.

(** Program points of a goroutine inside [RunTask] or inside the wrapped
    handler; both have the same shape. *)
Inductive pc : Type :=
| AtLock                       (* task.mu.Lock() *)
| AtTest                       (* if task.IsRunning { *)
| AtSkipUnlock                 (*   task.mu.Unlock(); return [error] } *)
| AtSet                        (* task.IsRunning = true *)
| AtUnlock                     (* task.mu.Unlock() *)
| AtHandler                    (* err := task.Handler(ctx) *)
| AtStatsLock (e : ending)     (* task.mu.Lock() *)
| AtStats (e : ending)         (* LastRun, RunCount++, ErrorCount++ *)
| AtStatsUnlock (e : ending)   (* task.mu.Unlock() *)
| AtDeferLock (e : ending)     (* deferred: task.mu.Lock() *)
| AtClear (e : ending)         (* deferred: task.IsRunning = false *)
| AtDeferUnlock (e : ending)   (* deferred: task.mu.Unlock() *)
| Skipped                      (* returned without running the handler *)
| Finished (e : ending).       (* returned after running the handler *)

Record goroutine : Type := {
  from : origin;
  at_pc : pc
}.

(** [x++] on an [int64]. *)
Definition incr64 (x : Z) : Z :=
  if x =? 2 ^ 63 - 1 then - 2 ^ 63 else x + 1.

(** The fields of [Task] that executions write (but for the time stamp
    [LastRun]), the state of its mutex, and the goroutines that have entered
    [RunTask] or the wrapped handler for this task. *)
Record Task : Type := {
  RunCount : Z;
  ErrorCount : Z;
  IsRunning : bool;
  mu_locked : bool;
  goroutines : list goroutine
}.

(** The task as [AddTask] creates it. *)
Definition newTask : Task :=
  {| RunCount := 0; ErrorCount := 0; IsRunning := false;
     mu_locked := false; goroutines := [] |}.

Definition move (t : Task) (i : nat) (g : goroutine) (p : pc) : list goroutine :=
  <[i := {| from := from g; at_pc := p |}]> (goroutines t).

(** A firing of the cron entry, or a call of [RunTask] that found the
    task in the map: a new goroutine in front of the first [Lock]. *)
Definition start (o : origin) (t : Task) : Task :=
  {| RunCount := RunCount t; ErrorCount := ErrorCount t;
     IsRunning := IsRunning t; mu_locked := mu_locked t;
     goroutines := goroutines t ++ [ {| from := o; at_pc := AtLock |} ] |}.

(** One statement of goroutine [i].  [e] is how the handler ends, used
    only by the step that leaves [AtHandler].  [None]: there is no such
    goroutine, it has returned, or it waits for the mutex. *)
Definition step (t : Task) (i : nat) (e : ending) : option Task :=
  match goroutines t !! i with
  | None => None
  | Some g =>
      let goto (p : pc) (running locked : bool) (runs errs : Z) : option Task :=
        Some {| RunCount := runs; ErrorCount := errs; IsRunning := running;
                mu_locked := locked; goroutines := move t i g p |} in
      let keep (p : pc) := goto p (IsRunning t) (mu_locked t) (RunCount t) (ErrorCount t) in
      let lock (p : pc) :=
        if mu_locked t then None
        else goto p (IsRunning t) true (RunCount t) (ErrorCount t) in
      let unlock (p : pc) := goto p (IsRunning t) false (RunCount t) (ErrorCount t) in
      match at_pc g with
      | AtLock => lock AtTest
      | AtTest => if IsRunning t then keep AtSkipUnlock else keep AtSet
      | AtSkipUnlock => unlock Skipped
      | AtSet => goto AtUnlock true (mu_locked t) (RunCount t) (ErrorCount t)
      | AtUnlock => unlock AtHandler
      | AtHandler =>
          match e with
          | HandlerPanic => keep (AtDeferLock e)
          | _ => keep (AtStatsLock e)
          end
      | AtStatsLock e' => lock (AtStats e')
      | AtStats e' =>
          goto (AtStatsUnlock e') (IsRunning t) (mu_locked t) (incr64 (RunCount t))
            (match e' with
             | HandlerError _ => incr64 (ErrorCount t)
             | _ => ErrorCount t
             end)
      | AtStatsUnlock e' => unlock (AtDeferLock e')
      | AtDeferLock e' => lock (AtClear e')
      | AtClear e' => goto (AtDeferUnlock e') false (mu_locked t) (RunCount t) (ErrorCount t)
      | AtDeferUnlock e' => unlock (Finished e')
      | Skipped | Finished _ => None
      end
  end.

Inductive reachable : Task -> Prop :=
| reach_new : reachable newTask
| reach_start o t : reachable t -> reachable (start o t)
| reach_step t i e t' : reachable t -> step t i e = Some t' -> reachable t'.

(** The goroutine has set [IsRunning] and not yet cleared it: it is
    executing the task. *)
Definition executing (p : pc) : bool :=
  match p with
  | AtUnlock | AtHandler | AtStatsLock _ | AtStats _ | AtStatsUnlock _
  | AtDeferLock _ | AtClear _ => true
  | _ => false
  end.

(** The goroutine is between a [Lock] and the matching [Unlock]. *)
Definition holds_mu (p : pc) : bool :=
  match p with
  | AtTest | AtSkipUnlock | AtSet | AtUnlock | AtStats _ | AtStatsUnlock _
  | AtClear _ | AtDeferUnlock _ => true
  | _ => false
  end.

(** The goroutine has found the flag clear and is about to set it. *)
Definition about_to_set (p : pc) : bool :=
  match p with
  | AtSet => true
  | _ => false
  end.

Fixpoint count (f : pc -> bool) (gs : list goroutine) : nat :=
  match gs with
  | [] => 0
  | g :: gs' => (if f (at_pc g) then 1 else 0) + count f gs'
  end.

(** What the mutex and the flag say about the goroutines: the mutex is
    held by one goroutine when locked and by none when free; the flag is
    set while one goroutine executes the task and clear while none does;
    and nobody is about to set a flag that is already set. *)
Record consistent (t : Task) : Prop := {
  mu_held_once :
    count holds_mu (goroutines t) = if mu_locked t then 1%nat else 0%nat;
  running_once :
    count executing (goroutines t) = if IsRunning t then 1%nat else 0%nat;
  set_when_clear :
    IsRunning t = true -> count about_to_set (goroutines t) = 0%nat
}.

(** Sample state: the cron entry has fired and its goroutine is inside the
    handler; a call of [RunTask] has taken the mutex and is about to look
    at the flag. *)
Definition busy : Task :=
  {| RunCount := 0; ErrorCount := 0; IsRunning := true; mu_locked := true;
     goroutines := [ {| from := Scheduled; at_pc := AtHandler |};
                     {| from := OnDemand; at_pc := AtTest |} ] |}.

End Scheduler.

(** ** Package [docker]: the running containers

    The Docker daemon is outside the sources: a call of [ContainerList] is
    represented by its answer.  Of a container of the API and of a
    [ContainerInfo] the fields are kept that the code below reads; the
    others ([ImageID], [Created], [State], [Status], [Labels], [Ports],
    [Networks] and the sizes) are copied or converted one by one and take no
    part in any decision. *)

(** Errors of the packages below; they wrap the errors above. *)
Inductive failure : Type :=
| Plain (e : error)
| ErrListContainers (cause : error)
| ErrParseReference (cause : error)
| ErrGetContainers (cause : failure).

Module APIContainer.
Record container : Type := {
  ID : string;
  Names : list string;
  Image : string
}.
End APIContainer.

Module ContainerInfo.
Record info : Type := {
  ID : string;
  Name : string;
  Image : string;
  Registry : string;
  Repository : string;
  Tag : string
}.
End ContainerInfo.

Module Containers.

(** The Go function returns the value built so far together with the
    error. *)
Definition convertContainer (cont : APIContainer.container) : ContainerInfo.info * option failure :=
  let name :=
    match APIContainer.Names cont with
    | first :: _ => Strings.TrimPrefix first "/"
    | [] => ""
    end in
  match Docker.ParseImageReference (APIContainer.Image cont) with
  | Err err =>
      ({| ContainerInfo.ID := APIContainer.ID cont;
          ContainerInfo.Name := name;
          ContainerInfo.Image := APIContainer.Image cont;
          ContainerInfo.Registry := "";
          ContainerInfo.Repository := "";
          ContainerInfo.Tag := "" |},
       Some (ErrParseReference err))
  | Ok imageRef =>
      ({| ContainerInfo.ID := APIContainer.ID cont;
          ContainerInfo.Name := name;
          ContainerInfo.Image := APIContainer.Image cont;
          ContainerInfo.Registry := Docker.Registry imageRef;
          ContainerInfo.Repository := Docker.Repository imageRef;
          ContainerInfo.Tag := Docker.Tag imageRef |},
       None)
  end.

(** [answer] is what [c.client.ContainerList] returned.  A container whose
    conversion fails is logged and left out. *)
Definition GetRunningContainers (answer : result (list APIContainer.container))
  : list ContainerInfo.info * option failure :=
  match answer with
  | Err err => ([], Some (ErrListContainers err))
  | Ok containers =>
      (omap (fun cont =>
               match convertContainer cont with
               | (containerInfo, None) => Some containerInfo
               | (_, Some _) => None
               end)
            containers,
       None)
  end.

End Containers.

(** ** Package [main]: one round of checking

    [performImageCheck] asks the daemon for the running containers, filters
    them, checks their images in one batch and sends one notification for
    the updates found. *)

Module ImageUpdate.
(** [UpdateTime], the time of the report, is left out. *)
Record update : Type := {
  Registry : string;
  Repository : string;
  CurrentTag : string;
  LatestTag : string;
  ContainerName : string
}.
End ImageUpdate.

Module Main.
Import Registry.

(** [config.ImageFilters] without the version filters, which [NewService]
    hands to the registry client. *)
Record ImageFilters : Type := {
  Include : list string;
  Exclude : list string;
  CheckLatest : bool;
  CheckPrivate : bool
}.

(** The parts of [Service] that one round reads: the image filters and
    [App.MaxConcurrency] of the configuration, and the registry client. *)
Record Service : Type := {
  filters : ImageFilters;
  MaxConcurrency : Z;
  registry : Client
}.

(** What the outside world does in one round: the answer of the daemon, for
    the images of the batch the order in which their checks are delivered,
    each with the answers it received, and the answer of
    [SendImageUpdates]. *)
Record World : Type := {
  containersAnswer : result (list APIContainer.container);
  deliveries : list ImageCheck.t -> list (ImageCheck.t * Answers);
  sendAnswer : list ImageUpdate.update -> option error
}.

(** What one round did: the error it returned, and the updates it passed to
    [SendImageUpdates], if it called it. *)
Record Report : Type := {
  returned : option failure;
  sent : option (list ImageUpdate.update)
}.

Definition matchPattern (pattern str : string) : bool * option error :=
  if String.eqb pattern "*" then (true, None)
  else (String.eqb pattern str, None).

Definition shouldExcludeImage (s : Service) (image : string) : bool :=
  existsb (fun pattern => fst (matchPattern pattern image)) (Exclude (filters s)).

Definition shouldIncludeImage (s : Service) (image : string) : bool :=
  existsb (fun pattern => fst (matchPattern pattern image)) (Include (filters s)).

(** The body of the loop of [filterContainers]: [false] where the loop
    continues without appending. *)
Definition keeps (s : Service) (container : ContainerInfo.info) : bool :=
  if shouldExcludeImage s (ContainerInfo.Image container) then false
  else if (0 <? List.length (Include (filters s)))%nat
          && negb (shouldIncludeImage s (ContainerInfo.Image container)) then false
  else if String.eqb (ContainerInfo.Tag container) "latest"
          && negb (CheckLatest (filters s)) then false
  else
    match Docker.ParseImageReference (ContainerInfo.Image container) with
    | Err _ => false
    | Ok imageRef =>
        if Docker.IsPrivateRegistry imageRef && negb (CheckPrivate (filters s))
        then false
        else true
    end.

Definition filterContainers (s : Service) (containers : list ContainerInfo.info)
  : list ContainerInfo.info :=
  List.filter (keeps s) containers.

Definition imageCheckOf (container : ContainerInfo.info) : ImageCheck.t :=
  {| ImageCheck.Registry := ContainerInfo.Registry container;
     ImageCheck.Repository := ContainerInfo.Repository container;
     ImageCheck.Tag := ContainerInfo.Tag container |}.

(** The name of the first container with the registry and the repository of
    the verdict, empty when there is none. *)
Definition containerNameFor (filteredContainers : list ContainerInfo.info)
    (result : ImageUpdateInfo) : string :=
  match
    List.find
      (fun container =>
         String.eqb (ContainerInfo.Registry container) (Registry result)
         && String.eqb (ContainerInfo.Repository container) (Repository result))
      filteredContainers
  with
  | Some container => ContainerInfo.Name container
  | None => ""
  end.

Definition updatesOf (filteredContainers : list ContainerInfo.info)
    (updateResults : list ImageUpdateInfo) : list ImageUpdate.update :=
  map (fun result =>
         {| ImageUpdate.Registry := Registry result;
            ImageUpdate.Repository := Repository result;
            ImageUpdate.CurrentTag := CurrentTag result;
            ImageUpdate.LatestTag := LatestTag result;
            ImageUpdate.ContainerName := containerNameFor filteredContainers result |})
      (List.filter HasUpdate updateResults).

Section WithUnicodeCase.
Context `{Strings.UnicodeCase}.

Definition performImageCheck (s : Service) (w : World) : outcome Report :=
  match Containers.GetRunningContainers (containersAnswer w) with
  | (_, Some err) =>
      Returns {| returned := Some (ErrGetContainers err); sent := None |}
  | (containers, None) =>
      if (List.length containers =? 0)%nat
      then Returns {| returned := None; sent := None |}
      else
        let filteredContainers := filterContainers s containers in
        if (List.length filteredContainers =? 0)%nat
        then Returns {| returned := None; sent := None |}
        else
          let imageChecks := map imageCheckOf filteredContainers in
          match CheckMultipleImages (registry s) (deliveries w imageChecks)
                  (MaxConcurrency s) with
          | Panics => Panics
          | Blocks => Blocks
          | Returns (updateResults, _) =>
              let updatesFound := updatesOf filteredContainers updateResults in
              if (0 <? List.length updatesFound)%nat
              then
                match sendAnswer w updatesFound with
                | Some err =>
                    Returns {| returned := Some (Plain err);
                               sent := Some updatesFound |}
                | None =>
                    Returns {| returned := None; sent := Some updatesFound |}
                end
              else Returns {| returned := None; sent := None |}
          end
  end.

End WithUnicodeCase.

End Main.

(** ** Notions used to state further properties *)

Module VersionNotions.
Import Registry.

(** Exchanging the arguments exchanges older and newer. *)
Definition flip (r : VersionComparison) : VersionComparison :=
  match r with
  | VersionOlder => VersionNewer
  | VersionNewer => VersionOlder
  | r => r
  end.

(** The part of a parsed version that [compareVersions] looks at. *)
Definition sameRelease (v1 v2 : SemanticVersion) : Prop :=
  Major v1 = Major v2 /\ Minor v1 = Minor v2 /\ Patch v1 = Patch v2
  /\ PreRelease v1 = PreRelease v2.

(** The pre-release [p] ranks below [q]: a pre-release below a release, and
    two pre-releases by their bytes. *)
Definition preOlder (p q : string) : Prop :=
  (p <> "" /\ q = "")
  \/ (p <> "" /\ q <> "" /\ String.compare p q = Lt).

(** The version [v1] ranks below [v2]. *)
Definition older (v1 v2 : SemanticVersion) : Prop :=
  Major v1 < Major v2
  \/ (Major v1 = Major v2
      /\ (Minor v1 < Minor v2
          \/ (Minor v1 = Minor v2
              /\ (Patch v1 < Patch v2
                  \/ (Patch v1 = Patch v2
                      /\ preOlder (PreRelease v1) (PreRelease v2)))))).

(** The tag parses as a semantic version. *)
Definition parses (tag : string) : Prop :=
  exists v, parseSemanticVersion tag = Some v.

End VersionNotions.

Module SchedulerNotions.
Import Scheduler.

(** The goroutine has returned. *)
Definition returned (p : pc) : bool :=
  match p with
  | Skipped | Finished _ => true
  | _ => false
  end.


Definition panicked (e : ending) : bool :=
  match e with
  | HandlerPanic => true
  | _ => false
  end.

Definition errored (e : ending) : bool :=
  match e with
  | HandlerError _ => true
  | _ => false
  end.

(** The goroutine has gone through the statements that update the
    statistics of the task: it is past [AtStats].  A goroutine reaches the
    deferred statements without doing so when its handler panicked. *)
Definition counted (p : pc) : bool :=
  match p with
  | AtStatsUnlock _ => true
  | AtDeferLock e | AtClear e | AtDeferUnlock e | Finished e => negb (panicked e)
  | _ => false
  end.

(** The same, for a handler that returned an error. *)
Definition counted_error (p : pc) : bool :=
  match p with
  | AtStatsUnlock e | AtDeferLock e | AtClear e | AtDeferUnlock e | Finished e =>
      errored e
  | _ => false
  end.

(** No goroutine is on the way to the statistics after a panic. *)
Definition on_normal_path (p : pc) : bool :=
  match p with
  | AtStatsLock e | AtStats e | AtStatsUnlock e => negb (panicked e)
  | _ => true
  end.

(** The test of [Health] on one task: it has run, and every run failed. *)
Definition consistentlyFailing (t : Task) : bool :=
  (RunCount t >? 0) && (ErrorCount t =? RunCount t).

(** What the counters of a task say about its goroutines: nobody heads for
    the statistics after a panic, and as long as fewer than [2^63]
    goroutines have entered, [RunCount] is the number of those that went
    through the statistics and [ErrorCount] the number of those among them
    whose handler returned an error. *)
Record counting (t : Task) : Prop := {
  nobody_off_path :
    count (fun p => negb (on_normal_path p)) (goroutines t) = 0%nat;
  counters_exact :
    Z.of_nat (List.length (goroutines t)) < 2 ^ 63 ->
    RunCount t = Z.of_nat (count counted (goroutines t))
    /\ ErrorCount t = Z.of_nat (count counted_error (goroutines t))
}.

(** A schedule: which goroutine is started or takes a step next. *)
Inductive action : Type :=
| Start (o : origin)
| Step (i : nat) (e : ending).

(** The state a schedule leads to; [None] when a goroutine is asked for a
    step it cannot take. *)
Fixpoint replay (t : Task) (moves : list action) : option Task :=
  match moves with
  | [] => Some t
  | Start o :: moves' => replay (start o t) moves'
  | Step i e :: moves' =>
      match step t i e with
      | Some t' => replay t' moves'
      | None => None
      end
  end.

(** Sample state: one scheduled execution, whose handler returned an
    error, has run to its end. *)
Definition quiet : Task :=
  {| RunCount := 1; ErrorCount := 1; IsRunning := false; mu_locked := false;
     goroutines :=
       [ {| from := Scheduled;
            at_pc := Finished (HandlerError (ErrExternal "registry down")) |} ] |}.

End SchedulerNotions.

(** ** What a pattern matches

    [derives r u c]: the text [u] is matched by the pattern [r], with the
    submatches [c] (the most recent first).  A repetition is made of rounds
    that consume input. *)

Module RegexpSem.
Import Regexp.

Inductive derives : regex -> string -> captures -> Prop :=
| d_eps : derives Eps "" []
| d_class p a : p a = true -> derives (Class p) (String a "") []
| d_cat r1 r2 u1 u2 c1 c2 :
    derives r1 u1 c1 -> derives r2 u2 c2 ->
    derives (Cat r1 r2) (u1 ++ u2) (c2 ++ c1)%list
| d_quest_skip r : derives (Quest r) "" []
| d_quest_take r u c : derives r u c -> derives (Quest r) u c
| d_star_stop r : derives (Star r) "" []
| d_star_round r u1 u2 c1 c2 :
    u1 <> "" -> derives r u1 c1 -> derives (Star r) u2 c2 ->
    derives (Star r) (u1 ++ u2) (c2 ++ c1)%list
| d_group n r u c : derives r u c -> derives (Group n r) u ((n, u) :: c).

(** The continuation of [FindStringSubmatch]: the text must be used up. *)
Definition at_end : cont :=
  fun s' c => match s' with EmptyString => Some c | _ => None end.

(** A non-empty text of bytes of the class [p]. *)
Definition run_of (p : ascii -> bool) (u : string) : Prop :=
  u <> "" /\ Strings.all_bytes p u = true.

(** [x ++ sep] for a part that is present, nothing for one that is absent
    (empty). *)
Definition followed_by (x sep : string) : string :=
  if String.eqb x "" then "" else x ++ sep.

(** [sep ++ x] for a part that is present, nothing for one that is absent. *)
Definition preceded_by (sep x : string) : string :=
  if String.eqb x "" then "" else sep ++ x.

(** The submatch of group [n] for an optional part: none when the part is
    absent. *)
Definition optional_capture (n : nat) (x : string) : captures :=
  if String.eqb x "" then [] else [(n, x)].

(** The text [x] is empty or starts with a byte outside the class [p]: a run
    of bytes of [p] in front of it cannot be continued into it. *)
Definition stops (p : ascii -> bool) (x : string) : Prop :=
  match x with
  | EmptyString => True
  | String a _ => p a = false
  end.

End RegexpSem.

(** The shape [MAJOR.MINOR.PATCH(-PRERELEASE)?(+BUILD)?] of a version: three
    runs of digits, and an optional pre-release and optional build metadata
    made of letters, digits, hyphens and dots. *)

Module Grammar.
Import RegexpSem.

Definition optional_run (p : ascii -> bool) (x : string) : Prop :=
  x = "" \/ run_of p x.

(** The run of digits [d] writes a number beyond the range of [int]. *)
Definition beyondInt (d : string) : Prop :=
  exists n, Strconv.digits_value d 0 = Some n /\ Strconv.maxInt < n.

Definition semverShape (s d1 d2 d3 pre build : string) : Prop :=
  s = d1 ++ "." ++ d2 ++ "." ++ d3 ++ preceded_by "-" pre ++ preceded_by "+" build
  /\ run_of Strings.is_digit d1
  /\ run_of Strings.is_digit d2
  /\ run_of Strings.is_digit d3
  /\ optional_run Registry.ident_byte pre
  /\ optional_run Registry.ident_byte build.

(** The tag has the shape of a version, with a number that does not fit in
    an [int]. *)
Definition overflowing (tag : string) : Prop :=
  exists d1 d2 d3 pre build,
    semverShape (Strings.TrimPrefix tag "v") d1 d2 d3 pre build
    /\ (beyondInt d1 \/ beyondInt d2 \/ beyondInt d3).

End Grammar.

(** The shape [(REGISTRY/)?(NAMESPACE/)?NAME(:TAG)?(@DIGEST)?] of an image
    reference, as the pattern of [ParseImageReference] has it: the registry
    and the namespace are texts without a slash, the name has no colon, at
    sign or slash, the tag has no at sign, the digest no line feed.  An
    absent part is empty. *)

Module ReferenceNotions.
Import Regexp RegexpSem Grammar Docker.

Definition referenceShape (s reg ns name tag digest : string) : Prop :=
  s = followed_by reg "/" ++ followed_by ns "/" ++ name
      ++ preceded_by ":" tag ++ preceded_by "@" digest
  /\ optional_run not_slash reg
  /\ optional_run not_slash ns
  /\ run_of not_colon_at_slash name
  /\ optional_run not_at tag
  /\ optional_run any_but_newline digest.

(** The two halves of [referencePattern]: the registry with its slash, and
    what follows it. *)
Definition registryBody : regex :=
  Seq [ Plus (Class not_slash);
        Star (Seq [Lit "."; Plus (Class not_slash)]);
        Quest (Seq [Lit ":"; Plus (Class Strings.is_digit)]) ].

Definition registryPart : regex := Seq [ Group 1 registryBody; Lit "/" ].

Definition namespacePart : regex :=
  Seq [ Group 2 (Plus (Class not_slash)); Lit "/" ].

Definition afterNamespace : regex :=
  Seq [ Group 3 (Plus (Class not_colon_at_slash));
        Quest (Seq [ Lit ":"; Group 4 (Plus (Class not_at)) ]);
        Quest (Seq [ Lit "@"; Group 5 (Plus (Class any_but_newline)) ]) ].

Definition afterRegistry : regex := Cat (Quest namespacePart) afterNamespace.

(** Where a text has the shape in more than one way, the way with a
    registry goes before the way without, and for the same registry the way
    with a namespace before the way without. *)
Definition preferred (s reg ns name tag digest : string) : Prop :=
  referenceShape s reg ns name tag digest
  /\ (reg = "" ->
      forall reg' ns' name' tag' digest',
        referenceShape s reg' ns' name' tag' digest' -> reg' = "")
  /\ (ns = "" ->
      forall ns' name' tag' digest',
        referenceShape s reg ns' name' tag' digest' -> ns' = "").

(** The reference that [ParseImageReference] makes of the parts of the
    shape: [docker.io] for an absent registry, [latest] when there is
    neither tag nor digest, and a repository path that has the namespace in
    front, or [library] for a Docker Hub image without one. *)
Definition referenceOf (image reg ns name tag digest : string) : ImageReference :=
  let registry := if String.eqb reg "" then "docker.io" else reg in
  {| Registry := registry;
     Namespace := ns;
     Repository :=
       if String.eqb ns "" then
         (if String.eqb registry "docker.io" then "library/" ++ name else name)
       else ns ++ "/" ++ name;
     Tag := if String.eqb tag "" && String.eqb digest "" then "latest" else tag;
     Digest := digest;
     FullName := image |}.

End ReferenceNotions.

(** Notions for one round of checking. *)

Module MainNotions.
Import Main.

(** The patterns of package [main] name an image by its exact text; the
    pattern [*] names every image. *)
Definition listed (patterns : list string) (image : string) : Prop :=
  In "*" patterns \/ In image patterns.

Definition onDockerHub (registry : string) : Prop :=
  registry = "docker.io" \/ registry = "index.docker.io".

(** Every check of a batch is delivered, once. *)
Definition delivers (w : World) : Prop :=
  forall images, Permutation (map fst (deliveries w images)) images.

(** The containers that a round looks at. *)
Definition running (w : World) : list ContainerInfo.info :=
  fst (Containers.GetRunningContainers (containersAnswer w)).

(** Sample data: the default configuration, and a daemon with two
    containers of the same repository, whose checks are delivered in the
    order of the batch and all receive the same answers. *)
Definition defaults : Service :=
  {| filters := {| Include := []; Exclude := [];
                   CheckLatest := false; CheckPrivate := true |};
     MaxConcurrency := 10;
     registry := Registry.NewClient 100 10 |}.

Definition twoContainers (answers : Registry.Answers) (send : option error) : World :=
  {| containersAnswer :=
       Ok [ {| APIContainer.ID := "c1"; APIContainer.Names := ["/web"];
               APIContainer.Image := "nginx:1.21.0" |};
            {| APIContainer.ID := "c2"; APIContainer.Names := ["/web-old"];
               APIContainer.Image := "nginx:1.20.0" |} ];
     deliveries := fun images => map (fun image => (image, answers)) images;
     sendAnswer := fun _ => send |}.

End MainNotions.

(** * Properties *)

(** ** Strings *)

Lemma compare_refl (s : string) : String.compare s s = Eq.
Proof.
  induction s as [|a s IH]; simpl; [reflexivity|].
  unfold Ascii.compare. now rewrite N.compare_refl.
Qed.

Lemma lt_compare (s t : string) : Strings.lt s t = true <-> String.compare s t = Lt.
Proof. unfold Strings.lt, String.ltb. destruct (String.compare s t); intuition congruence. Qed.

Lemma gt_compare (s t : string) : Strings.gt s t = true <-> String.compare s t = Gt.
Proof.
  unfold Strings.gt, String.ltb. rewrite (String.compare_antisym s t).
  destruct (String.compare t s); simpl; intuition congruence.
Qed.

Lemma lt_empty_r (s : string) : Strings.lt s "" = false.
Proof. destruct s; reflexivity. Qed.

(** ** Package [regexp] *)

Module RegexpProps.
Import Regexp.

Lemma run_ext (r : regex) :
  forall s c k k', (forall s' c', k s' c' = k' s' c') -> run r s c k = run r s c k'.
Proof.
  induction r as [|p|r1 IH1 r2 IH2|r IH|r IH|n r IH]; intros s c k k' Hk; simpl.
  - apply Hk.
  - destruct s as [|a s]; [reflexivity|]. destruct (p a); [apply Hk | reflexivity].
  - apply IH1. intros s' c'. now apply IH2.
  - rewrite (IH s c k k' Hk). now rewrite Hk.
  - generalize (String.length s). intros n. revert s c.
    induction n as [|n IHn]; intros s c; simpl; [apply Hk|].
    rewrite Hk. erewrite IH; [reflexivity|]. intros s' c'. simpl.
    destruct (String.length s' <? String.length s)%nat; [apply IHn | reflexivity].
  - apply IH. intros s' c'. apply Hk.
Qed.

(** A match is only ever reported by the continuation. *)
Lemma run_dead (r : regex) :
  forall s c k, (forall s' c', k s' c' = None) -> run r s c k = None.
Proof.
  induction r as [|p|r1 IH1 r2 IH2|r IH|r IH|n r IH]; intros s c k Hk; simpl.
  - apply Hk.
  - destruct s as [|a s]; [reflexivity|]. destruct (p a); [apply Hk | reflexivity].
  - apply IH1. intros s' c'. now apply IH2.
  - rewrite (IH s c k Hk). apply Hk.
  - generalize (String.length s). intros n. revert s c.
    induction n as [|n IHn]; intros s c; simpl; [apply Hk|].
    rewrite IH; [apply Hk|]. intros s' c'.
    destruct (String.length s' <? String.length s)%nat; [apply IHn | reflexivity].
  - apply IH. intros s' c'. apply Hk.
Qed.

(** The bound on the rounds of a repetition never cuts a match short: any
    bound that is at least the length of the text gives the same answer. *)
Lemma iterate_enough (r : regex) (k : cont) :
  forall n m s c,
    (String.length s <= n)%nat -> (String.length s <= m)%nat ->
    iterate (run r) k n s c = iterate (run r) k m s c.
Proof.
  assert (forall m c, iterate (run r) k m "" c = k "" c) as Hempty.
  { intros [|m] c; simpl; [reflexivity|]. now rewrite run_dead. }
  induction n as [|n IHn]; intros m s c Hn Hm.
  - destruct s; [|simpl in Hn; lia]. now rewrite !Hempty.
  - destruct m as [|m].
    + destruct s; [|simpl in Hm; lia]. now rewrite !Hempty.
    + simpl. erewrite run_ext; [reflexivity|]. intros s' c'. simpl.
      destruct (String.length s' <? String.length s)%nat eqn:E; [|reflexivity].
      apply Nat.ltb_lt in E. apply IHn; lia.
Qed.

Lemma run_Star_enough (r : regex) (k : cont) (n : nat) (s : string) (c : captures) :
  (String.length s <= n)%nat -> run (Star r) s c k = iterate (run r) k n s c.
Proof. intros Hn. simpl. now apply iterate_enough. Qed.

End RegexpProps.

(** ** Package [docker] *)

Module DockerProps.
Import Docker.

(** C2.  The code takes the first path segment of [myorg/nginx] for the
    registry, although it has neither a dot nor a port: the reference comes
    back with registry [myorg], an empty namespace and repository [nginx],
    where the claim expects registry [docker.io] and namespace [myorg]. *)
Theorem ParseImageReference_plain_prefix :
  ParseImageReference "myorg/nginx"
  = Ok {| Registry := "myorg"; Namespace := ""; Repository := "nginx";
          Tag := "latest"; Digest := ""; FullName := "myorg/nginx" |}.
Proof. vm_compute. reflexivity. Qed.

(** The namespace is only ever the second of three segments. *)
Example ParseImageReference_three_segments :
  ParseImageReference "ghcr.io/myorg/nginx:1.21"
  = Ok {| Registry := "ghcr.io"; Namespace := "myorg"; Repository := "myorg/nginx";
          Tag := "1.21"; Digest := ""; FullName := "ghcr.io/myorg/nginx:1.21" |}.
Proof. vm_compute. reflexivity. Qed.

Example ParseImageReference_bare :
  ParseImageReference "nginx"
  = Ok {| Registry := "docker.io"; Namespace := ""; Repository := "library/nginx";
          Tag := "latest"; Digest := ""; FullName := "nginx" |}.
Proof. vm_compute. reflexivity. Qed.

(** Parsing fails on the empty string and on a string the pattern does
    not match, and on nothing else. *)
Lemma ParseImageReference_error (image : string) :
  (exists e, ParseImageReference image = Err e)
  <-> image = "" \/ Regexp.FindStringSubmatch referencePattern image = None.
Proof.
  unfold ParseImageReference.
  destruct (String.eqb_spec image "") as [->|Hne].
  - split; [now left | intros _; now eexists].
  - destruct (Regexp.FindStringSubmatch referencePattern image).
    + split; [intros [e He]; discriminate | intros [?|?]; [contradiction | discriminate]].
    + split; [now right | intros _; now eexists].
Qed.

Lemma ParseImageReference_FullName (image : string) (ir : ImageReference) :
  ParseImageReference image = Ok ir -> FullName ir = image.
Proof.
  unfold ParseImageReference.
  destruct (String.eqb image ""); [discriminate|].
  destruct (Regexp.FindStringSubmatch referencePattern image); [|discriminate].
  intros [= <-]. reflexivity.
Qed.

(** C10.  Whenever [ParseImageReference x] succeeds, the [FullName] of the
    reference is [x] itself, and parsing that [FullName] again gives the
    same reference. *)
Theorem ParseImageReference_FullName_raw (x : string) (ir : ImageReference) :
  ParseImageReference x = Ok ir ->
  FullName ir = x /\ ParseImageReference (FullName ir) = Ok ir.
Proof.
  intros Hparse. pose proof (ParseImageReference_FullName _ _ Hparse) as Hfull.
  split; [exact Hfull|]. now rewrite Hfull.
Qed.

Lemma ParseImageReference_FullName_raw_witness :
  ParseImageReference "nginx:1.21"
  = Ok {| Registry := "docker.io"; Namespace := ""; Repository := "library/nginx";
          Tag := "1.21"; Digest := ""; FullName := "nginx:1.21" |}
  /\ FullName {| Registry := "docker.io"; Namespace := ""; Repository := "library/nginx";
                 Tag := "1.21"; Digest := ""; FullName := "nginx:1.21" |} = "nginx:1.21"
  /\ ParseImageReference "nginx:1.21"
     = Ok {| Registry := "docker.io"; Namespace := ""; Repository := "library/nginx";
             Tag := "1.21"; Digest := ""; FullName := "nginx:1.21" |}.
Proof.
  split; [vm_compute; reflexivity|].
  apply (ParseImageReference_FullName_raw "nginx:1.21"). vm_compute. reflexivity.
Defined.

(** [FullName] is not the normalised spelling that [String] prints. *)
Example FullName_not_normalised :
  exists ir, ParseImageReference "nginx" = Ok ir
             /\ FullName ir = "nginx"
             /\ String_ ir = "docker.io/library/nginx:latest".
Proof. eexists. split; [vm_compute; reflexivity|]. split; reflexivity. Qed.

End DockerProps.

(** ** Package [registry] *)

Module RegistryProps.
Import Registry.

(** *** The rate limiter *)

(** C5.  With the default configuration, 100 requests per minute and a
    burst of 10, both constructors build a limiter that admits one event
    per second, that is 60 per minute and not 100; with 30 requests per
    minute the limiter admits none at all.  The burst is the one
    configured. *)
Theorem NewClient_rate_is_truncated :
  eventsPerMinute (rateLimiter (NewClient 100 10)) = 60
  /\ burst (rateLimiter (NewClient 100 10)) = 10
  /\ (forall filters,
        eventsPerMinute (rateLimiter (NewClientWithFilters 100 10 filters)) = 60
        /\ burst (rateLimiter (NewClientWithFilters 100 10 filters)) = 10)
  /\ eventsPerMinute (rateLimiter (NewClient 30 10)) = 0.
Proof. repeat split. Qed.

(** The configured rate is met exactly for the multiples of 60. *)
Lemma NewClient_rate (requestsPerMinute b : Z) :
  0 < requestsPerMinute ->
  eventsPerMinute (rateLimiter (NewClient requestsPerMinute b))
  = requestsPerMinute - requestsPerMinute mod 60.
Proof.
  intros Hpos. unfold eventsPerMinute, NewClient, NewLimiter. simpl.
  rewrite Z.quot_div_nonneg by lia.
  pose proof (Z.div_mod requestsPerMinute 60). lia.
Qed.

(** *** Comparison of versions *)

Lemma parseSemanticVersion_latest : parseSemanticVersion "latest" = None.
Proof. vm_compute. reflexivity. Qed.

Lemma parseSemanticVersion_empty : parseSemanticVersion "" = None.
Proof. vm_compute. reflexivity. Qed.

Example parseSemanticVersion_full :
  parseSemanticVersion "v1.2.3-rc.1+build5"
  = Some {| Major := 1; Minor := 2; Patch := 3; PreRelease := "rc.1"; Build := "build5" |}.
Proof. vm_compute. reflexivity. Qed.

(** A number beyond the range of [int] makes [strconv.Atoi] fail: the tag
    does not parse, although the pattern matches it. *)
Example parseSemanticVersion_out_of_range :
  parseSemanticVersion "9223372036854775807.0.0"
  = Some {| Major := 9223372036854775807; Minor := 0; Patch := 0;
            PreRelease := ""; Build := "" |}
  /\ parseSemanticVersion "9223372036854775808.0.0" = None.
Proof. split; vm_compute; reflexivity. Qed.

(** Numbers are compared as numbers; tags that do not parse, as strings. *)
Example compareVersions_numeric :
  compareVersions "1.10.0" "1.9.0" = VersionNewer
  /\ compareVersions "1.10" "1.9" = VersionOlder.
Proof. split; vm_compute; reflexivity. Qed.

Lemma compareVersions_refl (v : string) : compareVersions v v = VersionEqual.
Proof. unfold compareVersions. now rewrite String.eqb_refl. Qed.

Lemma semverOrder_refl (v : SemanticVersion) : semverOrder v v = VersionEqual.
Proof.
  unfold semverOrder. rewrite !Z.compare_refl.
  destruct (PreRelease v) eqn:E; [reflexivity|]. now rewrite compare_refl.
Qed.

Lemma compareVersions_semverOrder (a b : string) (va vb : SemanticVersion) :
  parseSemanticVersion a = Some va ->
  parseSemanticVersion b = Some vb ->
  compareVersions a b = semverOrder va vb.
Proof.
  intros Ha Hb. unfold compareVersions.
  destruct (String.eqb_spec a b) as [->|Hab].
  { rewrite Ha in Hb. injection Hb as <-. now rewrite semverOrder_refl. }
  destruct (String.eqb_spec a "latest") as [->|_].
  { rewrite parseSemanticVersion_latest in Ha. discriminate. }
  destruct (String.eqb_spec b "latest") as [->|_].
  { rewrite parseSemanticVersion_latest in Hb. discriminate. }
  cbn [orb]. rewrite Ha, Hb. unfold semverOrder.
  destruct (Z.compare_spec (Major va) (Major vb)) as [HM|HM|HM];
    [| now replace (Major va <? Major vb) with true by lia
     | replace (Major va <? Major vb) with false by lia;
       now replace (Major va >? Major vb) with true by lia ].
  replace (Major va <? Major vb) with false by lia.
  replace (Major va >? Major vb) with false by lia.
  destruct (Z.compare_spec (Minor va) (Minor vb)) as [Hm|Hm|Hm];
    [| now replace (Minor va <? Minor vb) with true by lia
     | replace (Minor va <? Minor vb) with false by lia;
       now replace (Minor va >? Minor vb) with true by lia ].
  replace (Minor va <? Minor vb) with false by lia.
  replace (Minor va >? Minor vb) with false by lia.
  destruct (Z.compare_spec (Patch va) (Patch vb)) as [Hp|Hp|Hp];
    [| now replace (Patch va <? Patch vb) with true by lia
     | replace (Patch va <? Patch vb) with false by lia;
       now replace (Patch va >? Patch vb) with true by lia ].
  replace (Patch va <? Patch vb) with false by lia.
  replace (Patch va >? Patch vb) with false by lia.
  destruct (PreRelease va) as [|c1 p1] eqn:E1, (PreRelease vb) as [|c2 p2] eqn:E2;
    try reflexivity.
  cbn [String.eqb negb andb].
  destruct (String.compare (String c1 p1) (String c2 p2)) eqn:Hc.
  - assert (Strings.lt (String c1 p1) (String c2 p2) = false) as ->.
    { apply not_true_is_false. rewrite lt_compare. congruence. }
    assert (Strings.gt (String c1 p1) (String c2 p2) = false) as ->.
    { apply not_true_is_false. rewrite gt_compare. congruence. }
    reflexivity.
  - apply lt_compare in Hc. now rewrite Hc.
  - assert (Strings.lt (String c1 p1) (String c2 p2) = false) as ->.
    { apply not_true_is_false. rewrite lt_compare. congruence. }
    apply gt_compare in Hc. now rewrite Hc.
Qed.

(** C3.  For two tags that both parse as semantic versions,
    [compareVersions] decides by the major numbers, then by the minor
    numbers, then by the patch numbers; with all three equal a version
    without pre-release is newer than one with a pre-release, two
    pre-releases are compared as byte strings, and equal pre-releases give
    [VersionEqual] whatever the build metadata are.  Replacing either tag
    by one that differs in build metadata only never changes the result. *)
Theorem compareVersions_semantic (a b : string) (va vb : SemanticVersion) :
  parseSemanticVersion a = Some va ->
  parseSemanticVersion b = Some vb ->
  (Major va < Major vb -> compareVersions a b = VersionOlder)
  /\ (Major va > Major vb -> compareVersions a b = VersionNewer)
  /\ (Major va = Major vb -> Minor va < Minor vb -> compareVersions a b = VersionOlder)
  /\ (Major va = Major vb -> Minor va > Minor vb -> compareVersions a b = VersionNewer)
  /\ (Major va = Major vb -> Minor va = Minor vb -> Patch va < Patch vb ->
      compareVersions a b = VersionOlder)
  /\ (Major va = Major vb -> Minor va = Minor vb -> Patch va > Patch vb ->
      compareVersions a b = VersionNewer)
  /\ (Major va = Major vb -> Minor va = Minor vb -> Patch va = Patch vb ->
      (PreRelease va = "" -> PreRelease vb <> "" -> compareVersions a b = VersionNewer)
      /\ (PreRelease va <> "" -> PreRelease vb = "" -> compareVersions a b = VersionOlder)
      /\ (PreRelease va <> "" -> PreRelease vb <> "" ->
          compareVersions a b
          = match String.compare (PreRelease va) (PreRelease vb) with
            | Lt => VersionOlder
            | Gt => VersionNewer
            | Eq => VersionEqual
            end)
      /\ (PreRelease va = PreRelease vb -> compareVersions a b = VersionEqual))
  /\ (forall (a' b' : string) (va' vb' : SemanticVersion),
        parseSemanticVersion a' = Some va' ->
        parseSemanticVersion b' = Some vb' ->
        Major va' = Major va -> Minor va' = Minor va -> Patch va' = Patch va ->
        PreRelease va' = PreRelease va ->
        Major vb' = Major vb -> Minor vb' = Minor vb -> Patch vb' = Patch vb ->
        PreRelease vb' = PreRelease vb ->
        compareVersions a' b' = compareVersions a b).
Proof.
  intros Ha Hb. rewrite (compareVersions_semverOrder a b va vb Ha Hb).
  unfold semverOrder.
  repeat match goal with |- _ /\ _ => split end.
  - intros HM. now rewrite (proj2 (Z.compare_lt_iff _ _) HM).
  - intros HM. now rewrite (proj2 (Z.compare_gt_iff _ _)) by lia.
  - intros -> Hm. rewrite Z.compare_refl. now rewrite (proj2 (Z.compare_lt_iff _ _) Hm).
  - intros -> Hm. rewrite Z.compare_refl. now rewrite (proj2 (Z.compare_gt_iff _ _)) by lia.
  - intros -> -> Hp. rewrite !Z.compare_refl.
    now rewrite (proj2 (Z.compare_lt_iff _ _) Hp).
  - intros -> -> Hp. rewrite !Z.compare_refl.
    now rewrite (proj2 (Z.compare_gt_iff _ _)) by lia.
  - intros -> -> ->. rewrite !Z.compare_refl. repeat split.
    + intros Ea Eb. rewrite Ea.
      destruct (PreRelease vb); [contradiction | reflexivity].
    + intros Ea Eb. rewrite Eb.
      destruct (PreRelease va); [contradiction | reflexivity].
    + intros Ea Eb.
      destruct (PreRelease va); [contradiction|].
      destruct (PreRelease vb); [contradiction | reflexivity].
    + intros ->.
      destruct (PreRelease vb); [reflexivity | now rewrite compare_refl].
  - intros a' b' va' vb' Ha' Hb' E1 E2 E3 E4 E5 E6 E7 E8.
    rewrite (compareVersions_semverOrder a' b' va' vb' Ha' Hb').
    unfold semverOrder. now rewrite E1, E2, E3, E4, E5, E6, E7, E8.
Qed.

Lemma compareVersions_semantic_witness :
  parseSemanticVersion "v1.2.3-alpha+b1"
  = Some {| Major := 1; Minor := 2; Patch := 3; PreRelease := "alpha"; Build := "b1" |}
  /\ parseSemanticVersion "1.2.3-alpha+b2"
     = Some {| Major := 1; Minor := 2; Patch := 3; PreRelease := "alpha"; Build := "b2" |}
  /\ compareVersions "v1.2.3-alpha+b1" "1.2.3-alpha+b2" = VersionEqual.
Proof.
  split; [vm_compute; reflexivity|]. split; [vm_compute; reflexivity|].
  destruct (compareVersions_semantic "v1.2.3-alpha+b1" "1.2.3-alpha+b2"
              {| Major := 1; Minor := 2; Patch := 3; PreRelease := "alpha"; Build := "b1" |}
              {| Major := 1; Minor := 2; Patch := 3; PreRelease := "alpha"; Build := "b2" |})
    as (_ & _ & _ & _ & _ & _ & Hpre & _);
    [vm_compute; reflexivity | vm_compute; reflexivity |].
  apply Hpre; reflexivity.
Defined.

(** *** Resolution of the latest tag *)

Section WithUnicodeCase.
Context `{Strings.UnicodeCase}.

(** C1.  With the current tag [latest] the filters play no part, and the
    scan keeps the literal tag [latest] when the list starts with it:
    for [latest, 2.0.0, 1.0.0-beta] the code answers [latest], not
    [2.0.0]; with the same tags in another order it answers [2.0.0]. *)
Theorem findLatestTag_tracking_latest (c : Client) :
  findLatestTag c ["latest"; "2.0.0"; "1.0.0-beta"] "latest" = Ok "latest"
  /\ findLatestTag c ["2.0.0"; "latest"; "1.0.0-beta"] "latest" = Ok "2.0.0"
  /\ compareVersions "1.0.0-beta" "2.0.0" = VersionOlder
  /\ compareVersions "latest" "2.0.0" = VersionIncomparable.
Proof. repeat split; vm_compute; reflexivity. Qed.

Lemma findLatestTag_latest_ignores_filters (c c' : Client) (tags : list string) :
  findLatestTag c tags "latest" = findLatestTag c' tags "latest".
Proof. destruct tags; reflexivity. Qed.

Lemma existsb_latest (tags : list string) :
  existsb (fun tag => String.eqb tag "latest") tags = true <-> In "latest" tags.
Proof.
  rewrite existsb_exists. split.
  - intros (x & Hin & Heq). apply String.eqb_eq in Heq. now subst.
  - intros Hin. exists "latest". split; [assumption | reflexivity].
Qed.

(** C7.  When the current tag is not [latest] and no tag of a non-empty
    list survives the two filters, [findLatestTag] answers [latest] if
    that tag occurs anywhere in the list and the first tag of the list
    otherwise; it fails, with the no-tags error, exactly on the empty
    list. *)
Theorem findLatestTag_fallback (c : Client) (tags : list string) (currentTag : string) :
  (currentTag <> "latest" ->
   tags <> [] ->
   filterUnwantedVersions c (filterSemanticVersionTags tags) = [] ->
   (In "latest" tags -> findLatestTag c tags currentTag = Ok "latest")
   /\ (~ In "latest" tags ->
       exists first rest,
         tags = first :: rest /\ findLatestTag c tags currentTag = Ok first))
  /\ ((exists e, findLatestTag c tags currentTag = Err e) <-> tags = [])
  /\ (tags = [] -> findLatestTag c tags currentTag = Err ErrNoTags).
Proof.
  split; [|split].
  - intros Hcur Hne Hnone. unfold findLatestTag.
    destruct tags as [|first rest]; [contradiction|].
    destruct (String.eqb_spec currentTag "latest") as [|_]; [contradiction|].
    rewrite Hnone. split.
    + intros Hin. apply existsb_latest in Hin. now rewrite Hin.
    + intros Hnotin. exists first, rest. split; [reflexivity|].
      destruct (existsb _ (first :: rest)) eqn:E; [|reflexivity].
      apply existsb_latest in E. contradiction.
  - unfold findLatestTag. destruct tags as [|first rest].
    + split; [reflexivity | intros _; now eexists].
    + split; [|discriminate]. intros [e He].
      destruct (String.eqb currentTag "latest"); [discriminate|].
      destruct (filterUnwantedVersions c _); [|discriminate].
      destruct (existsb _ _); discriminate.
  - intros ->. reflexivity.
Qed.

(** *** One update check *)

Lemma compareVersions_empty_latest (currentTag : string) :
  compareVersions currentTag "" <> VersionOlder.
Proof.
  unfold compareVersions.
  destruct (String.eqb currentTag ""); [discriminate|].
  destruct (String.eqb currentTag "latest" || String.eqb "" "latest"); [discriminate|].
  rewrite parseSemanticVersion_empty, lt_empty_r.
  destruct (parseSemanticVersion currentTag);
    destruct (Strings.gt currentTag ""); discriminate.
Qed.

Lemma VersionComparison_eqb_eq (a b : VersionComparison) :
  VersionComparison_eqb a b = true <-> a = b.
Proof. destruct a, b; simpl; intuition congruence. Qed.

(** C8.  When the limiter lets the call through and the registry answers
    with an empty tag list, [CheckImageUpdate] returns no error but a
    verdict without update and without tags.  Every verdict it returns has
    [HasUpdate] set exactly when [compareVersions] of its current and latest
    tags is [VersionOlder]; and the latest tag of the verdict is the tag
    that [findLatestTag] resolves from the tags the registry listed, so that
    an update is reported exactly when the current tag is older than that
    tag. *)
Theorem CheckImageUpdate_verdict (c : Client) (env : Answers)
    (registry repository currentTag : string) :
  (waitAnswer env = None ->
   tagsAnswer env = Ok [] ->
   exists info,
     CheckImageUpdate c env registry repository currentTag = (Some info, None)
     /\ HasUpdate info = false
     /\ AvailableTags info = [])
  /\ (forall info err,
        CheckImageUpdate c env registry repository currentTag = (Some info, err) ->
        err = None
        /\ CurrentTag info = currentTag
        /\ (HasUpdate info = true
            <-> compareVersions currentTag (LatestTag info) = VersionOlder))
  /\ (forall tags latestTag,
        waitAnswer env = None ->
        tagsAnswer env = Ok tags ->
        findLatestTag c tags currentTag = Ok latestTag ->
        exists info,
          CheckImageUpdate c env registry repository currentTag = (Some info, None)
          /\ CurrentTag info = currentTag
          /\ LatestTag info = latestTag
          /\ AvailableTags info = tags
          /\ (HasUpdate info = true
              <-> compareVersions currentTag latestTag = VersionOlder)).
Proof.
  unfold CheckImageUpdate. split; [|split].
  - intros -> ->. simpl. eexists. repeat split.
  - intros info err.
    destruct (waitAnswer env); [discriminate|].
    destruct (tagsAnswer env) as [tags|]; [|discriminate].
    assert (forall tags',
              HasUpdate {| CurrentTag := currentTag; LatestTag := "";
                           AvailableTags := tags'; HasUpdate := false;
                           Registry := registry; Repository := repository |} = true
              <-> compareVersions currentTag "" = VersionOlder) as Hnone.
    { intros tags'. simpl. split; [discriminate|].
      intros Hc. now apply compareVersions_empty_latest in Hc. }
    destruct (List.length tags =? 0)%nat.
    { intros [= <- <-]. split; [reflexivity|]. split; [reflexivity | apply Hnone]. }
    destruct (findLatestTag c tags currentTag) as [latestTag|].
    + intros [= <- <-]. split; [reflexivity|]. split; [reflexivity|]. simpl.
      apply VersionComparison_eqb_eq.
    + intros [= <- <-]. split; [reflexivity|]. split; [reflexivity | apply Hnone].
  - intros tags latestTag -> -> Hfind.
    destruct tags as [|first rest]; [discriminate|].
    cbn [List.length Nat.eqb]. rewrite Hfind.
    eexists. split; [reflexivity|]. cbn.
    split; [reflexivity|]. split; [reflexivity|]. split; [reflexivity|].
    apply VersionComparison_eqb_eq.
Qed.

(** C6.  With pre-releases excluded, only stable versions wanted and no
    patterns of the user's own, the check of current tag [1.21.0] against
    the tags [1.21.0, 1.21.1, 1.22.0-rc1] resolves the latest tag to
    [1.21.1] and reports an update. *)
Theorem CheckImageUpdate_scenario_A (c : Client) (env : Answers)
    (registry repository : string) :
  ExcludePreRelease (versionFilters c) = true ->
  OnlyStable (versionFilters c) = true ->
  ExcludePatterns (versionFilters c) = [] ->
  waitAnswer env = None ->
  tagsAnswer env = Ok ["1.21.0"; "1.21.1"; "1.22.0-rc1"] ->
  findLatestTag c ["1.21.0"; "1.21.1"; "1.22.0-rc1"] "1.21.0" = Ok "1.21.1"
  /\ CheckImageUpdate c env registry repository "1.21.0"
     = (Some {| CurrentTag := "1.21.0";
                LatestTag := "1.21.1";
                AvailableTags := ["1.21.0"; "1.21.1"; "1.22.0-rc1"];
                HasUpdate := true;
                Registry := registry;
                Repository := repository |}, None).
Proof.
  destruct c as [limiter [pre windows patterns stable]], env as [w t].
  simpl. intros -> -> -> -> ->.
  destruct windows; split; vm_compute; reflexivity.
Qed.

(** *** A batch of checks *)

Lemma collect_from (results : list ImageUpdateResult)
    (infos : list ImageUpdateInfo) (errors : list error) :
  fold_left
    (fun '(updateInfos, errors) result =>
       match Error result with
       | Some e => (updateInfos, (errors ++ [e])%list)
       | None =>
           match UpdateInfo result with
           | Some info => ((updateInfos ++ [info])%list, errors)
           | None => (updateInfos, errors)
           end
       end)
    results (infos, errors)
  = ((infos ++ omap (fun r => match Error r with
                              | Some _ => None
                              | None => UpdateInfo r
                              end) results)%list,
     (errors ++ omap Error results)%list).
Proof.
  revert infos errors.
  induction results as [|r results IH]; intros infos errors; simpl.
  - now rewrite !app_nil_r.
  - destruct (Error r) as [e|]; simpl.
    + rewrite IH. now rewrite <- app_assoc.
    + destruct (UpdateInfo r) as [info|]; rewrite IH; [|reflexivity].
      now rewrite <- app_assoc.
Qed.

Lemma collect_checks (c : Client) (jobs : list (ImageCheck.t * Answers)) :
  collect (map (checkOne c) jobs)
  = (omap (verdict c) jobs, omap (fun job => Error (checkOne c job)) jobs).
Proof.
  unfold collect. rewrite collect_from. simpl. f_equal.
  - induction jobs as [|job jobs IH]; [reflexivity|]. simpl.
    unfold verdict at 1. destruct (Error (checkOne c job)); [exact IH|].
    destruct (UpdateInfo (checkOne c job)); [f_equal; exact IH | exact IH].
  - induction jobs as [|job jobs IH]; [reflexivity|]. simpl.
    destruct (Error (checkOne c job)); [f_equal; exact IH | exact IH].
Qed.

(** A check hands back a verdict or an error, never neither. *)
Lemma verdict_or_failed (c : Client) (job : ImageCheck.t * Answers) :
  failed c job = false -> exists info, verdict c job = Some info.
Proof.
  unfold failed, verdict, checkOne. destruct job as [img env].
  unfold CheckImageUpdate.
  destruct (waitAnswer env); [discriminate|].
  destruct (tagsAnswer env) as [tags|]; [|discriminate].
  destruct (List.length tags =? 0)%nat; [simpl; eauto|].
  destruct (findLatestTag c tags _); simpl; eauto.
Qed.

Lemma verdict_failed (c : Client) (job : ImageCheck.t * Answers) :
  failed c job = true -> verdict c job = None.
Proof. unfold failed, verdict. now destruct (Error (checkOne c job)). Qed.

Lemma verdicts_length (c : Client) (jobs : list (ImageCheck.t * Answers)) :
  List.length (omap (verdict c) jobs)
  = List.length (List.filter (fun job => negb (failed c job)) jobs).
Proof.
  induction jobs as [|job jobs IH]; [reflexivity|]. simpl.
  destruct (failed c job) eqn:E; simpl.
  - rewrite (verdict_failed _ _ E). exact IH.
  - destruct (verdict_or_failed _ _ E) as [info ->]. simpl. f_equal. exact IH.
Qed.

Lemma errors_length (c : Client) (jobs : list (ImageCheck.t * Answers)) :
  List.length (omap (fun job => Error (checkOne c job)) jobs)
  = List.length (List.filter (failed c) jobs).
Proof.
  induction jobs as [|job jobs IH]; [reflexivity|]. simpl.
  unfold failed at 1.
  destruct (Error (checkOne c job)); simpl; [f_equal; exact IH | exact IH].
Qed.

Lemma filter_nil_Forall {A} (f : A -> bool) (l : list A) :
  List.length (List.filter (fun x => negb (f x)) l) = 0%nat
  <-> Forall (fun x => f x = true) l.
Proof.
  induction l as [|x l IH]; simpl.
  - split; [constructor | reflexivity].
  - destruct (f x) eqn:E; simpl.
    + rewrite IH. split; [now constructor | now inversion 1].
    + split; [discriminate | inversion 1; congruence].
Qed.

Lemma filter_all_length {A} (f : A -> bool) (l : list A) :
  Forall (fun x => f x = true) l -> List.length (List.filter f l) = List.length l.
Proof.
  induction 1 as [|x l Hx _ IH]; [reflexivity|]. simpl. rewrite Hx. simpl. now rewrite IH.
Qed.

(** What a batch returns once the semaphore admits anybody. *)
Lemma CheckMultipleImages_returns (c : Client)
    (arrivals : list (ImageCheck.t * Answers)) (maxConcurrency : Z) :
  0 < maxConcurrency ->
  CheckMultipleImages c arrivals maxConcurrency
  = if forallb (failed c) arrivals && negb (List.length arrivals =? 0)%nat
    then Returns ([], Some (ErrAllFailed (List.length arrivals)))
    else Returns (omap (verdict c) arrivals, None).
Proof.
  intros Hpos. unfold CheckMultipleImages.
  destruct arrivals as [|job jobs]; [reflexivity|].
  cbn [List.length Nat.eqb negb andb].
  replace (maxConcurrency <? 0) with false by lia.
  replace (maxConcurrency =? 0) with false by lia.
  rewrite collect_checks, errors_length, verdicts_length.
  rewrite andb_true_r.
  destruct (forallb (failed c) (job :: jobs)) eqn:Hall.
  - rewrite forallb_forall in Hall. apply List.Forall_forall in Hall.
    rewrite (filter_all_length _ _ Hall).
    rewrite (proj2 (filter_nil_Forall (failed c) (job :: jobs)) Hall).
    reflexivity.
  - destruct (List.length (List.filter (fun j => negb (failed c j)) (job :: jobs))
              =? 0)%nat eqn:Hnone; [|now rewrite andb_false_r].
    apply Nat.eqb_eq, filter_nil_Forall in Hnone.
    pose proof (proj1 (List.Forall_forall _ _) Hnone) as Hin.
    apply forallb_forall in Hin. congruence.
Qed.

Lemma forallb_failed_false (c : Client) (jobs : list (ImageCheck.t * Answers)) :
  Exists (fun job => failed c job = false) jobs -> forallb (failed c) jobs = false.
Proof.
  induction 1 as [job jobs Hjob|job jobs _ IH]; simpl.
  - now rewrite Hjob.
  - rewrite IH. apply andb_false_r.
Qed.

Lemma forallb_failed_true (c : Client) (jobs : list (ImageCheck.t * Answers)) :
  forallb (failed c) jobs = true <-> Forall (fun job => failed c job = true) jobs.
Proof. rewrite forallb_forall. symmetry. apply List.Forall_forall. Qed.

Lemma CheckMultipleImages_nobody_admitted (c : Client)
    (arrivals : list (ImageCheck.t * Answers)) (maxConcurrency : Z) :
  maxConcurrency <= 0 ->
  CheckMultipleImages c arrivals maxConcurrency
  = match arrivals with
    | [] => Returns ([], None)
    | _ :: _ => if maxConcurrency <? 0 then Panics else Blocks
    end.
Proof.
  intros Hle. unfold CheckMultipleImages. destruct arrivals; [reflexivity|]. simpl.
  destruct (Z.ltb_spec maxConcurrency 0); [reflexivity|].
  now replace (maxConcurrency =? 0) with true by lia.
Qed.

(** C4.  [CheckMultipleImages] returns an error exactly when checks were
    attempted (the semaphore admits somebody and there is an image) and
    every one of them failed.  As soon as one check succeeds it returns no
    error and the verdicts of the checks that succeeded, in the order of
    their arrival, which is a rearrangement of the verdicts taken in the
    order of the call; the failures are dropped.  So ten images of which
    exactly one fails give nine verdicts and no error. *)
Theorem CheckMultipleImages_partial_failure (c : Client)
    (arrivals : list (ImageCheck.t * Answers)) (maxConcurrency : Z) :
  ((exists infos e,
      CheckMultipleImages c arrivals maxConcurrency = Returns (infos, Some e))
   <-> 0 < maxConcurrency
       /\ arrivals <> []
       /\ Forall (fun job => failed c job = true) arrivals)
  /\ (0 < maxConcurrency ->
      Exists (fun job => failed c job = false) arrivals ->
      CheckMultipleImages c arrivals maxConcurrency
      = Returns (omap (verdict c) arrivals, None)
      /\ List.length (omap (verdict c) arrivals)
         = List.length (List.filter (fun job => negb (failed c job)) arrivals)
      /\ forall images,
           Permutation images arrivals ->
           Permutation (omap (verdict c) images) (omap (verdict c) arrivals))
  /\ (0 < maxConcurrency ->
      forall before bad after,
        arrivals = (before ++ bad :: after)%list ->
        List.length arrivals = 10%nat ->
        failed c bad = true ->
        Forall (fun job => failed c job = false) (before ++ after)%list ->
        exists infos,
          CheckMultipleImages c arrivals maxConcurrency = Returns (infos, None)
          /\ List.length infos = 9%nat).
Proof.
  split; [|split].
  - destruct (Z.lt_ge_cases 0 maxConcurrency) as [Hpos|Hle].
    + rewrite (CheckMultipleImages_returns c arrivals maxConcurrency Hpos).
      destruct (forallb (failed c) arrivals && _) eqn:Hall; split.
      * intros _. apply andb_true_iff in Hall as [Hall Hne].
        split; [assumption|]. split; [|now apply forallb_failed_true].
        intros ->. discriminate.
      * eauto.
      * intros (infos & e & Heq). discriminate.
      * intros (_ & Hne & Hfail). apply forallb_failed_true in Hfail.
        rewrite Hfail in Hall. destruct arrivals; [contradiction | discriminate].
    + rewrite (CheckMultipleImages_nobody_admitted c arrivals maxConcurrency Hle).
      split; [|lia].
      intros (infos & e & Heq). destruct arrivals; [discriminate|].
      destruct (maxConcurrency <? 0); discriminate.
  - intros Hpos Hsome.
    rewrite (CheckMultipleImages_returns c arrivals maxConcurrency Hpos).
    rewrite (forallb_failed_false _ _ Hsome). simpl.
    split; [reflexivity|]. split; [apply verdicts_length|].
    intros images Hperm. now rewrite Hperm.
  - intros Hpos before bad after -> Hlen Hbad Hgood.
    rewrite (CheckMultipleImages_returns c _ maxConcurrency Hpos).
    assert (Exists (fun job => failed c job = false) (before ++ bad :: after)) as Hsome.
    { rewrite length_app in Hlen. simpl in Hlen.
      apply Forall_app in Hgood as [Hb Ha].
      destruct before as [|job before].
      - destruct after as [|job after]; [simpl in Hlen; lia|].
        apply Exists_cons_tl, Exists_cons_hd. now inversion Ha.
      - apply Exists_cons_hd. now inversion Hb. }
    rewrite (forallb_failed_false _ _ Hsome). simpl.
    eexists. split; [reflexivity|].
    rewrite verdicts_length, List.filter_app. simpl. rewrite Hbad. simpl.
    rewrite <- List.filter_app.
    rewrite filter_all_length.
    + rewrite length_app in *. simpl in Hlen. lia.
    + eapply Forall_impl; [exact Hgood|]. simpl. now intros job ->.
Qed.

End WithUnicodeCase.

Lemma findLatestTag_fallback_witness :
  "1.0.0" <> "latest"
  /\ ["nightly"; "latest"] <> []
  /\ @filterUnwantedVersions Strings.asciiOnly (NewClient 100 10)
       (filterSemanticVersionTags ["nightly"; "latest"]) = []
  /\ In "latest" ["nightly"; "latest"]
  /\ @findLatestTag Strings.asciiOnly (NewClient 100 10) ["nightly"; "latest"] "1.0.0"
     = Ok "latest".
Proof.
  assert ("1.0.0" <> "latest") as Hcur by discriminate.
  assert (["nightly"; "latest"] <> []) as Hne by discriminate.
  assert (In "latest" ["nightly"; "latest"]) as Hin by (right; left; reflexivity).
  split; [exact Hcur|]. split; [exact Hne|]. split; [reflexivity|]. split; [exact Hin|].
  destruct (@findLatestTag_fallback Strings.asciiOnly (NewClient 100 10)
              ["nightly"; "latest"] "1.0.0") as (Hfall & _).
  destruct (Hfall Hcur Hne eq_refl) as (Hlatest & _).
  exact (Hlatest Hin).
Defined.

Lemma CheckImageUpdate_verdict_witness :
  (exists info,
     @CheckImageUpdate Strings.asciiOnly (NewClient 100 10) (answered [])
       "docker.io" "library/nginx" "1.21.0" = (Some info, None)
     /\ HasUpdate info = false
     /\ AvailableTags info = [])
  /\ (exists info,
        @CheckImageUpdate Strings.asciiOnly (NewClient 100 10)
          (answered ["1.21.0"; "1.21.1"; "1.22.0-rc1"])
          "docker.io" "library/nginx" "1.21.0" = (Some info, None)
        /\ CurrentTag info = "1.21.0"
        /\ LatestTag info = "1.21.1"
        /\ AvailableTags info = ["1.21.0"; "1.21.1"; "1.22.0-rc1"]
        /\ HasUpdate info = true).
Proof.
  split.
  - apply (@CheckImageUpdate_verdict Strings.asciiOnly (NewClient 100 10) (answered [])
             "docker.io" "library/nginx" "1.21.0"); reflexivity.
  - assert (@findLatestTag Strings.asciiOnly (NewClient 100 10)
              ["1.21.0"; "1.21.1"; "1.22.0-rc1"] "1.21.0" = Ok "1.21.1") as Hfind
      by (vm_compute; reflexivity).
    destruct (proj2 (proj2
                (@CheckImageUpdate_verdict Strings.asciiOnly (NewClient 100 10)
                   (answered ["1.21.0"; "1.21.1"; "1.22.0-rc1"])
                   "docker.io" "library/nginx" "1.21.0"))
                _ _ eq_refl eq_refl Hfind)
      as (info & Hcheck & Hcurrent & Hlatest & Htags & Hupdate).
    exists info. repeat (split; [assumption|]).
    apply Hupdate. vm_compute. reflexivity.
Defined.

Lemma CheckImageUpdate_scenario_A_witness :
  ExcludePreRelease (versionFilters (NewClient 100 10)) = true
  /\ OnlyStable (versionFilters (NewClient 100 10)) = true
  /\ ExcludePatterns (versionFilters (NewClient 100 10)) = []
  /\ waitAnswer (answered ["1.21.0"; "1.21.1"; "1.22.0-rc1"]) = None
  /\ tagsAnswer (answered ["1.21.0"; "1.21.1"; "1.22.0-rc1"])
     = Ok ["1.21.0"; "1.21.1"; "1.22.0-rc1"]
  /\ @CheckImageUpdate Strings.asciiOnly (NewClient 100 10)
       (answered ["1.21.0"; "1.21.1"; "1.22.0-rc1"])
       "docker.io" "library/nginx" "1.21.0"
     = (Some {| CurrentTag := "1.21.0";
                LatestTag := "1.21.1";
                AvailableTags := ["1.21.0"; "1.21.1"; "1.22.0-rc1"];
                HasUpdate := true;
                Registry := "docker.io";
                Repository := "library/nginx" |}, None).
Proof.
  do 5 (split; [reflexivity|]).
  apply (@CheckImageUpdate_scenario_A Strings.asciiOnly (NewClient 100 10)
           (answered ["1.21.0"; "1.21.1"; "1.22.0-rc1"])
           "docker.io" "library/nginx"); reflexivity.
Defined.

Lemma CheckMultipleImages_partial_failure_witness :
  0 < 3
  /\ exists infos,
       @CheckMultipleImages Strings.asciiOnly (NewClient 100 10)
         (repeat (nginx, answered ["1.21.0"; "1.21.1"]) 4
          ++ (nginx, unreachable) :: repeat (nginx, answered ["1.21.0"; "1.21.1"]) 5)%list
         3
       = Returns (infos, None)
       /\ List.length infos = 9%nat.
Proof.
  assert (0 < 3) as Hpos by lia.
  split; [exact Hpos|].
  destruct (@CheckMultipleImages_partial_failure Strings.asciiOnly (NewClient 100 10)
              (repeat (nginx, answered ["1.21.0"; "1.21.1"]) 4
               ++ (nginx, unreachable)
                  :: repeat (nginx, answered ["1.21.0"; "1.21.1"]) 5)%list
              3) as (_ & _ & Hten).
  apply (Hten Hpos (repeat (nginx, answered ["1.21.0"; "1.21.1"]) 4) (nginx, unreachable)
           (repeat (nginx, answered ["1.21.0"; "1.21.1"]) 5));
    [reflexivity | reflexivity | reflexivity | repeat constructor].
Defined.

End RegistryProps.

(** ** Package [scheduler] *)

Module SchedulerProps.
Import Scheduler.

Lemma count_app (f : pc -> bool) (gs1 gs2 : list goroutine) :
  count f (gs1 ++ gs2) = (count f gs1 + count f gs2)%nat.
Proof. induction gs1 as [|g gs1 IH]; simpl; [reflexivity | rewrite IH; lia]. Qed.

Lemma count_insert (f : pc -> bool) (gs : list goroutine) (i : nat) (g g' : goroutine) :
  gs !! i = Some g ->
  (count f (<[i := g']> gs) + (if f (at_pc g) then 1 else 0)
   = count f gs + (if f (at_pc g') then 1 else 0))%nat.
Proof.
  revert i. induction gs as [|g0 gs IH]; intros [|i] Hi; try discriminate; simpl in *.
  - injection Hi as ->. lia.
  - specialize (IH i Hi). lia.
Qed.

Lemma count_le (f h : pc -> bool) (gs : list goroutine) :
  (forall p, f p = true -> h p = true) -> (count f gs <= count h gs)%nat.
Proof.
  intros Hfh. induction gs as [|g gs IH]; simpl; [lia|].
  destruct (f (at_pc g)) eqn:E; [rewrite (Hfh _ E); lia|].
  destruct (h (at_pc g)); lia.
Qed.

Lemma count_lookup (f : pc -> bool) (gs : list goroutine) (i : nat) (g : goroutine) :
  gs !! i = Some g -> f (at_pc g) = true -> (1 <= count f gs)%nat.
Proof.
  revert i. induction gs as [|g0 gs IH]; intros [|i] Hi Hf; try discriminate; simpl in *.
  - injection Hi as ->. rewrite Hf. lia.
  - specialize (IH i Hi Hf). lia.
Qed.

Lemma count_two (f : pc -> bool) (gs : list goroutine) (i j : nat) (gi gj : goroutine) :
  i <> j ->
  gs !! i = Some gi -> gs !! j = Some gj ->
  f (at_pc gi) = true -> f (at_pc gj) = true ->
  (2 <= count f gs)%nat.
Proof.
  revert i j.
  induction gs as [|g0 gs IH]; intros [|i] [|j] Hij Hi Hj Hfi Hfj;
    try discriminate; try contradiction; simpl in *.
  - injection Hi as ->. rewrite Hfi. pose proof (count_lookup f gs j gj Hj Hfj). lia.
  - injection Hj as ->. rewrite Hfj. pose proof (count_lookup f gs i gi Hi Hfi). lia.
  - assert (i <> j) as Hij' by congruence.
    specialize (IH i j Hij' Hi Hj Hfi Hfj). lia.
Qed.

Lemma about_to_set_holds (p : pc) : about_to_set p = true -> holds_mu p = true.
Proof. now destruct p. Qed.

Lemma consistent_new : consistent newTask.
Proof. split; simpl; intros; reflexivity. Qed.

Lemma consistent_start (o : origin) (t : Task) : consistent t -> consistent (start o t).
Proof.
  intros [Hmu Hrun Hset].
  split; simpl; rewrite ?count_app; simpl; try intros Hr; rewrite ?Nat.add_0_r; auto.
Qed.

(** Instantiates the counting fact [Hc] with the program point the stepping
    goroutine has moved to. *)
Ltac count_moved Hc :=
  match goal with
  | |- count _ (<[_ := {| from := _; at_pc := ?p |}]> _) = _ => specialize (Hc p)
  end.

Lemma consistent_step (t t' : Task) (i : nat) (e : ending) :
  consistent t -> step t i e = Some t' -> consistent t'.
Proof.
  intros [Hmu Hrun Hset]. unfold step, move.
  destruct (goroutines t !! i) as [g|] eqn:Hg; [|discriminate].
  pose proof (count_le about_to_set holds_mu (goroutines t) about_to_set_holds) as Hle.
  pose proof (fun p => count_insert holds_mu (goroutines t) i g
                         {| from := from g; at_pc := p |} Hg) as Hm.
  pose proof (fun p => count_insert executing (goroutines t) i g
                         {| from := from g; at_pc := p |} Hg) as Hx.
  pose proof (fun p => count_insert about_to_set (goroutines t) i g
                         {| from := from g; at_pc := p |} Hg) as Hs.
  pose proof (count_lookup holds_mu (goroutines t) i g Hg) as Lm.
  pose proof (count_lookup executing (goroutines t) i g Hg) as Lx.
  pose proof (count_lookup about_to_set (goroutines t) i g Hg) as Ls.
  destruct (at_pc g) eqn:Hpc; simpl in *;
    try discriminate;
    try (destruct e; simpl);
    destruct (mu_locked t) eqn:Hl; simpl; try discriminate;
    destruct (IsRunning t) eqn:Hr; simpl;
    intros [= <-];
    (split; simpl;
     [ count_moved Hm | count_moved Hx | intros Hr'; count_moved Hs ]);
    simpl in *; try discriminate;
    try specialize (Hset eq_refl); try specialize (Lm eq_refl);
    try specialize (Lx eq_refl); try specialize (Ls eq_refl); lia.
Qed.

Lemma reachable_consistent (t : Task) : reachable t -> consistent t.
Proof.
  induction 1 as [|o t _ IH|t i e t' _ IH Hstep].
  - apply consistent_new.
  - now apply consistent_start.
  - now apply (consistent_step t t' i e).
Qed.

Lemma count_pos (f : pc -> bool) (gs : list goroutine) :
  (1 <= count f gs)%nat -> exists i g, gs !! i = Some g /\ f (at_pc g) = true.
Proof.
  induction gs as [|g0 gs IH]; simpl; [lia|].
  destruct (f (at_pc g0)) eqn:E.
  - intros _. exists 0%nat, g0. split; [reflexivity | exact E].
  - intros Hpos. destruct IH as (i & g & Hi & Hf); [lia|].
    exists (S i), g. split; assumption.
Qed.

Lemma lookup_move (t : Task) (i : nat) (g : goroutine) (p : pc) :
  goroutines t !! i = Some g ->
  move t i g p !! i = Some {| from := from g; at_pc := p |}.
Proof.
  intros Hg. unfold move. apply list_lookup_insert_eq.
  now apply lookup_lt_Some in Hg.
Qed.

(** C9.  In every state that the goroutines of a task can reach, whatever
    the interleaving of scheduled firings and on-demand runs: at most one
    goroutine is executing the task, and the flag [IsRunning] is set
    exactly while one is.  A goroutine that tests the flag under the mutex
    and finds it set goes on to release the mutex and return; it does not
    wait, does not run the handler and leaves the counters and the flag as
    they are. *)
Theorem executions_never_overlap (t : Task) :
  reachable t ->
  (forall i j gi gj,
     goroutines t !! i = Some gi -> goroutines t !! j = Some gj ->
     executing (at_pc gi) = true -> executing (at_pc gj) = true ->
     i = j)
  /\ (IsRunning t = true
      <-> exists i g, goroutines t !! i = Some g /\ executing (at_pc g) = true)
  /\ (forall i g e,
        goroutines t !! i = Some g -> at_pc g = AtTest -> IsRunning t = true ->
        exists t1,
          step t i e = Some t1
          /\ goroutines t1 !! i = Some {| from := from g; at_pc := AtSkipUnlock |}
          /\ RunCount t1 = RunCount t /\ ErrorCount t1 = ErrorCount t
          /\ IsRunning t1 = IsRunning t)
  /\ (forall i g e,
        goroutines t !! i = Some g -> at_pc g = AtSkipUnlock ->
        exists t1,
          step t i e = Some t1
          /\ goroutines t1 !! i = Some {| from := from g; at_pc := Skipped |}
          /\ RunCount t1 = RunCount t /\ ErrorCount t1 = ErrorCount t
          /\ IsRunning t1 = IsRunning t)
  /\ (forall i g e,
        goroutines t !! i = Some g -> at_pc g = Skipped -> step t i e = None).
Proof.
  intros Hreach. destruct (reachable_consistent t Hreach) as [Hmu Hrun Hset].
  split; [|split; [|split; [|split]]].
  - intros i j gi gj Hi Hj Hxi Hxj.
    destruct (Nat.eq_dec i j) as [|Hij]; [assumption|].
    pose proof (count_two executing (goroutines t) i j gi gj Hij Hi Hj Hxi Hxj).
    destruct (IsRunning t); lia.
  - split.
    + intros Hr. rewrite Hr in Hrun. apply count_pos. lia.
    + intros (i & g & Hi & Hx).
      pose proof (count_lookup executing (goroutines t) i g Hi Hx).
      destruct (IsRunning t); [reflexivity | lia].
  - intros i g e Hg Hpc Hr. unfold step. rewrite Hg, Hpc, Hr.
    eexists. split; [reflexivity|]. simpl.
    split; [now apply lookup_move|]. auto.
  - intros i g e Hg Hpc. unfold step. rewrite Hg, Hpc.
    eexists. split; [reflexivity|]. simpl.
    split; [now apply lookup_move|]. auto.
  - intros i g e Hg Hpc. unfold step. now rewrite Hg, Hpc.
Qed.

Lemma reachable_busy : reachable busy.
Proof.
  pose proof (reach_start Scheduled _ reach_new) as R.
  pose proof (reach_step _ 0 HandlerOk _ R eq_refl) as R1.
  pose proof (reach_step _ 0 HandlerOk _ R1 eq_refl) as R2.
  pose proof (reach_step _ 0 HandlerOk _ R2 eq_refl) as R3.
  pose proof (reach_step _ 0 HandlerOk _ R3 eq_refl) as R4.
  pose proof (reach_start OnDemand _ R4) as R5.
  exact (reach_step _ 1 HandlerOk _ R5 eq_refl).
Defined.

Lemma executions_never_overlap_witness :
  reachable busy
  /\ exists t1,
       step busy 1 HandlerOk = Some t1
       /\ goroutines t1 !! 1%nat = Some {| from := OnDemand; at_pc := AtSkipUnlock |}
       /\ RunCount t1 = RunCount busy /\ ErrorCount t1 = ErrorCount busy
       /\ IsRunning t1 = IsRunning busy.
Proof.
  split; [exact reachable_busy|].
  destruct (executions_never_overlap busy reachable_busy) as (_ & _ & Hskip & _).
  exact (Hskip 1%nat {| from := OnDemand; at_pc := AtTest |} HandlerOk
           eq_refl eq_refl eq_refl).
Defined.

End SchedulerProps.

(** * Further properties of the code *)

(** ** The order computed by [compareVersions] *)

Module VersionOrder.
Import Registry RegistryProps VersionNotions.

Lemma compare_lt_trans (s t u : string) :
  String.compare s t = Lt -> String.compare t u = Lt -> String.compare s u = Lt.
Proof.
  revert t u. induction s as [|a s IH]; intros [|b t] [|c u]; simpl; try discriminate;
    try reflexivity.
  unfold Ascii.compare.
  destruct (N.compare_spec (N_of_ascii a) (N_of_ascii b)) as [Hab|Hab|Hab];
    try discriminate;
    destruct (N.compare_spec (N_of_ascii b) (N_of_ascii c)) as [Hbc|Hbc|Hbc];
    try discriminate; intros H1 H2.
  - rewrite Hab, Hbc, N.compare_refl. now apply (IH t u).
  - rewrite Hab. now apply N.compare_lt_iff in Hbc as ->.
  - rewrite <- Hbc. now apply N.compare_lt_iff in Hab as ->.
  - assert (N_of_ascii a < N_of_ascii c)%N as Hac by lia.
    now apply N.compare_lt_iff in Hac as ->.
Qed.

Lemma semverOrder_flip (v1 v2 : SemanticVersion) :
  semverOrder v2 v1 = flip (semverOrder v1 v2).
Proof.
  unfold semverOrder.
  rewrite (Z.compare_antisym (Major v1) (Major v2)).
  rewrite (Z.compare_antisym (Minor v1) (Minor v2)).
  rewrite (Z.compare_antisym (Patch v1) (Patch v2)).
  destruct (Major v1 ?= Major v2); cbn [CompOpp flip]; try reflexivity.
  destruct (Minor v1 ?= Minor v2); cbn [CompOpp flip]; try reflexivity.
  destruct (Patch v1 ?= Patch v2); cbn [CompOpp flip]; try reflexivity.
  destruct (PreRelease v1) as [|a1 p1], (PreRelease v2) as [|a2 p2]; try reflexivity.
  rewrite (String.compare_antisym (String a1 p1) (String a2 p2)).
  now destruct (String.compare (String a2 p2) (String a1 p1)).
Qed.

(** Where a tag does not parse, the two tags are compared as strings. *)
Lemma compareVersions_fallback (a b : string) :
  a <> b -> a <> "latest" -> b <> "latest" ->
  parseSemanticVersion a = None \/ parseSemanticVersion b = None ->
  compareVersions a b
  = match String.compare a b with
    | Lt => VersionOlder
    | Gt => VersionNewer
    | Eq => VersionEqual
    end.
Proof.
  intros Hab Ha Hb Hparse. unfold compareVersions.
  destruct (String.eqb_spec a b); [contradiction|].
  destruct (String.eqb_spec a "latest"); [contradiction|].
  destruct (String.eqb_spec b "latest"); [contradiction|]. cbn [orb].
  assert ((if Strings.lt a b then VersionOlder
           else if Strings.gt a b then VersionNewer else VersionEqual)
          = match String.compare a b with
            | Lt => VersionOlder
            | Gt => VersionNewer
            | Eq => VersionEqual
            end) as Hstr.
  { destruct (String.compare a b) eqn:Hc.
    - assert (Strings.lt a b = false) as ->
        by (apply not_true_is_false; rewrite lt_compare; congruence).
      assert (Strings.gt a b = false) as ->
        by (apply not_true_is_false; rewrite gt_compare; congruence).
      reflexivity.
    - apply lt_compare in Hc. now rewrite Hc.
    - assert (Strings.lt a b = false) as ->
        by (apply not_true_is_false; rewrite lt_compare; congruence).
      apply gt_compare in Hc. now rewrite Hc. }
  destruct Hparse as [-> | Hpb]; [exact Hstr|].
  rewrite Hpb. now destruct (parseSemanticVersion a).
Qed.

Lemma compareVersions_latest_l (b : string) :
  b <> "latest" -> compareVersions "latest" b = VersionIncomparable.
Proof.
  intros Hb. unfold compareVersions.
  destruct (String.eqb_spec "latest" b); [congruence | reflexivity].
Qed.

Lemma compareVersions_latest_r (a : string) :
  a <> "latest" -> compareVersions a "latest" = VersionIncomparable.
Proof.
  intros Ha. unfold compareVersions.
  destruct (String.eqb_spec a "latest"); [congruence|].
  now rewrite orb_true_r.
Qed.

Lemma compareVersions_mirror (a b : string) :
  compareVersions b a = flip (compareVersions a b).
Proof.
  destruct (String.eqb_spec a b) as [->|Hab].
  { now rewrite compareVersions_refl. }
  destruct (String.eqb_spec a "latest") as [->|Ha].
  { rewrite compareVersions_latest_l, compareVersions_latest_r by congruence.
    reflexivity. }
  destruct (String.eqb_spec b "latest") as [->|Hb].
  { rewrite compareVersions_latest_l, compareVersions_latest_r by congruence.
    reflexivity. }
  destruct (parseSemanticVersion a) as [va|] eqn:Hpa;
    [destruct (parseSemanticVersion b) as [vb|] eqn:Hpb|].
  - rewrite (compareVersions_semverOrder a b va vb Hpa Hpb).
    rewrite (compareVersions_semverOrder b a vb va Hpb Hpa).
    apply semverOrder_flip.
  - rewrite (compareVersions_fallback a b), (compareVersions_fallback b a);
      auto; try congruence.
    rewrite (String.compare_antisym a b). now destruct (String.compare b a).
  - rewrite (compareVersions_fallback a b), (compareVersions_fallback b a);
      auto; try congruence.
    rewrite (String.compare_antisym a b). now destruct (String.compare b a).
Qed.

(** X1.  For all tags, comparing in the other direction gives the mirrored
    answer: older becomes newer and newer older, equal stays equal and
    incomparable stays incomparable. *)
Theorem compareVersions_flip (a b : string) :
  compareVersions b a = flip (compareVersions a b).
Proof. exact (compareVersions_mirror a b). Qed.

Lemma semverOrder_comparable (v1 v2 : SemanticVersion) :
  semverOrder v1 v2 <> VersionIncomparable.
Proof.
  unfold semverOrder.
  destruct (Major v1 ?= Major v2); try discriminate.
  destruct (Minor v1 ?= Minor v2); try discriminate.
  destruct (Patch v1 ?= Patch v2); try discriminate.
  destruct (PreRelease v1), (PreRelease v2); try discriminate.
  destruct (String.compare _ _); discriminate.
Qed.

Lemma incomparable_iff_latest (a b : string) :
  compareVersions a b = VersionIncomparable
  <-> a <> b /\ (a = "latest" \/ b = "latest").
Proof.
  destruct (String.eqb_spec a b) as [->|Hab].
  { rewrite compareVersions_refl. split; [discriminate | intros [Hne _]; congruence]. }
  destruct (String.eqb_spec a "latest") as [Ha|Ha];
    [|destruct (String.eqb_spec b "latest") as [Hb|Hb]].
  - subst a. rewrite compareVersions_latest_l by congruence. tauto.
  - subst b. rewrite compareVersions_latest_r by congruence. tauto.
  - split; [|intros [_ [?|?]]; contradiction].
    destruct (parseSemanticVersion a) as [va|] eqn:Hpa;
      [destruct (parseSemanticVersion b) as [vb|] eqn:Hpb|].
    + rewrite (compareVersions_semverOrder a b va vb Hpa Hpb).
      intros H. now apply semverOrder_comparable in H.
    + rewrite (compareVersions_fallback a b); auto.
      destruct (String.compare a b); discriminate.
    + rewrite (compareVersions_fallback a b); auto.
      destruct (String.compare a b); discriminate.
Qed.

(** X2.  Two tags are incomparable exactly when they differ and one of them
    is the literal tag [latest]. *)
Theorem compareVersions_incomparable (a b : string) :
  compareVersions a b = VersionIncomparable
  <-> a <> b /\ (a = "latest" \/ b = "latest").
Proof. exact (incomparable_iff_latest a b). Qed.

Lemma semverOrder_equal (v1 v2 : SemanticVersion) :
  semverOrder v1 v2 = VersionEqual <-> sameRelease v1 v2.
Proof.
  unfold semverOrder, sameRelease.
  destruct (Z.compare_spec (Major v1) (Major v2));
    [|split; [discriminate | lia] ..].
  destruct (Z.compare_spec (Minor v1) (Minor v2));
    [|split; [discriminate | lia] ..].
  destruct (Z.compare_spec (Patch v1) (Patch v2));
    [|split; [discriminate | lia] ..].
  destruct (PreRelease v1) as [|a1 p1], (PreRelease v2) as [|a2 p2];
    try (split; [discriminate | intros (_ & _ & _ & ?); discriminate]);
    [tauto|].
  destruct (String.compare (String a1 p1) (String a2 p2)) eqn:Hc.
  - apply String.compare_eq_iff in Hc. tauto.
  - split; [discriminate|]. intros (_ & _ & _ & Heq).
    rewrite Heq, compare_refl in Hc. discriminate.
  - split; [discriminate|]. intros (_ & _ & _ & Heq).
    rewrite Heq, compare_refl in Hc. discriminate.
Qed.

(** X3.  [compareVersions] answers equal for identical tags and for two
    tags that both parse and agree in major, minor, patch and pre-release
    (they may differ in a leading [v] and in build metadata), and for no
    other pair. *)
Theorem compareVersions_equal (a b : string) :
  compareVersions a b = VersionEqual
  <-> a = b
      \/ exists va vb,
           parseSemanticVersion a = Some va /\ parseSemanticVersion b = Some vb
           /\ sameRelease va vb.
Proof.
  destruct (String.eqb_spec a b) as [->|Hab].
  { rewrite compareVersions_refl. tauto. }
  split.
  - intros Heq.
    assert (compareVersions a b <> VersionIncomparable) as Hcmp by congruence.
    rewrite incomparable_iff_latest in Hcmp.
    assert (a <> "latest" /\ b <> "latest") as [Ha Hb].
    { split; intros ->; apply Hcmp; auto. }
    destruct (parseSemanticVersion a) as [va|] eqn:Hpa;
      [destruct (parseSemanticVersion b) as [vb|] eqn:Hpb|].
    + right. exists va, vb. repeat split; try reflexivity.
      all: rewrite (compareVersions_semverOrder a b va vb Hpa Hpb) in Heq;
        apply semverOrder_equal in Heq; apply Heq.
    + rewrite (compareVersions_fallback a b) in Heq; auto.
      destruct (String.compare a b) eqn:Hc; try discriminate.
      left. now apply String.compare_eq_iff.
    + rewrite (compareVersions_fallback a b) in Heq; auto.
      destruct (String.compare a b) eqn:Hc; try discriminate.
      left. now apply String.compare_eq_iff.
  - intros [?|(va & vb & Hpa & Hpb & Hsame)]; [contradiction|].
    rewrite (compareVersions_semverOrder a b va vb Hpa Hpb).
    now apply semverOrder_equal.
Qed.

Lemma semverOrder_older (v1 v2 : SemanticVersion) :
  semverOrder v1 v2 = VersionOlder <-> older v1 v2.
Proof.
  unfold semverOrder, older.
  destruct (Z.compare_spec (Major v1) (Major v2)) as [HM|HM|HM];
    [|split; [intros _; now left | reflexivity]
     |split; [discriminate | intuition lia]].
  destruct (Z.compare_spec (Minor v1) (Minor v2)) as [Hm|Hm|Hm];
    [|split; [intros _; right; split; [assumption | now left] | reflexivity]
     |split; [discriminate | intuition lia]].
  destruct (Z.compare_spec (Patch v1) (Patch v2)) as [Hp|Hp|Hp];
    [|split; [intros _; right; split; [assumption|]; right; split;
              [assumption | now left] | reflexivity]
     |split; [discriminate | intuition lia]].
  assert (match PreRelease v1, PreRelease v2 with
          | EmptyString, EmptyString => VersionEqual
          | EmptyString, String _ _ => VersionNewer
          | String _ _, EmptyString => VersionOlder
          | p1, p2 =>
              match String.compare p1 p2 with
              | Lt => VersionOlder
              | Gt => VersionNewer
              | Eq => VersionEqual
              end
          end = VersionOlder
          <-> preOlder (PreRelease v1) (PreRelease v2)) as Hpre.
  { unfold preOlder.
    destruct (PreRelease v1) as [|a1 p1], (PreRelease v2) as [|a2 p2].
    - split; [discriminate | intros [[? _]|(? & _)]; congruence].
    - split; [discriminate | intros [[? _]|(? & _)]; congruence].
    - split; [intros _; left; split; congruence | reflexivity].
    - destruct (String.compare (String a1 p1) (String a2 p2)) eqn:Hc.
      + split; [discriminate | intros [[_ ?]|(_ & _ & ?)]; congruence].
      + split; [intros _; right; repeat split; congruence | reflexivity].
      + split; [discriminate | intros [[_ ?]|(_ & _ & ?)]; congruence]. }
  rewrite Hpre. intuition lia.
Qed.

Lemma preOlder_trans (p q r : string) : preOlder p q -> preOlder q r -> preOlder p r.
Proof.
  unfold preOlder. intros [[Hp Hq]|(Hp & Hq & Hpq)] [[Hq' Hr]|(Hq' & Hr & Hqr)];
    try contradiction.
  - left. split; assumption.
  - right. repeat split; try assumption. now apply (compare_lt_trans p q r).
Qed.

Lemma older_trans (v1 v2 v3 : SemanticVersion) : older v1 v2 -> older v2 v3 -> older v1 v3.
Proof.
  unfold older.
  intros [?|(? & [?|(? & [?|(? & H12)])])] [?|(? & [?|(? & [?|(? & H23)])])];
    try lia.
  right. split; [lia|]. right. split; [lia|]. right. split; [lia|].
  now apply (preOlder_trans _ (PreRelease v2)).
Qed.

Lemma older_sameRelease_l (v1 v1' v2 : SemanticVersion) :
  sameRelease v1 v1' -> older v1 v2 -> older v1' v2.
Proof. unfold sameRelease, older. intros (-> & -> & -> & ->). tauto. Qed.

(** X4.  On tags that parse, older is transitive. *)
Theorem compareVersions_older_trans (a b c : string) :
  parses a -> parses b -> parses c ->
  compareVersions a b = VersionOlder ->
  compareVersions b c = VersionOlder ->
  compareVersions a c = VersionOlder.
Proof.
  intros [va Hpa] [vb Hpb] [vc Hpc].
  rewrite (compareVersions_semverOrder a b va vb Hpa Hpb).
  rewrite (compareVersions_semverOrder b c vb vc Hpb Hpc).
  rewrite (compareVersions_semverOrder a c va vc Hpa Hpc).
  rewrite !semverOrder_older. apply older_trans.
Qed.

Lemma compareVersions_older_trans_witness :
  parses "1.0.0-alpha" /\ parses "v1.0.0" /\ parses "1.0.1+b7"
  /\ compareVersions "1.0.0-alpha" "v1.0.0" = VersionOlder
  /\ compareVersions "v1.0.0" "1.0.1+b7" = VersionOlder
  /\ compareVersions "1.0.0-alpha" "1.0.1+b7" = VersionOlder.
Proof.
  assert (parses "1.0.0-alpha") as Ha by (eexists; vm_compute; reflexivity).
  assert (parses "v1.0.0") as Hb by (eexists; vm_compute; reflexivity).
  assert (parses "1.0.1+b7") as Hc by (eexists; vm_compute; reflexivity).
  assert (compareVersions "1.0.0-alpha" "v1.0.0" = VersionOlder) as Hab
    by (vm_compute; reflexivity).
  assert (compareVersions "v1.0.0" "1.0.1+b7" = VersionOlder) as Hbc
    by (vm_compute; reflexivity).
  repeat (split; [assumption|]).
  exact (compareVersions_older_trans _ _ _ Ha Hb Hc Hab Hbc).
Defined.

(** On tags that parse, "not older than" is transitive as well. *)
Lemma compareVersions_not_older_trans (a b c : string) :
  parses a -> parses b -> parses c ->
  compareVersions a b <> VersionOlder ->
  compareVersions b c <> VersionOlder ->
  compareVersions a c <> VersionOlder.
Proof.
  intros [va Hpa] [vb Hpb] [vc Hpc].
  rewrite (compareVersions_semverOrder a b va vb Hpa Hpb).
  rewrite (compareVersions_semverOrder b c vb vc Hpb Hpc).
  rewrite (compareVersions_semverOrder a c va vc Hpa Hpc).
  intros Hab Hbc Hac. apply semverOrder_older in Hac.
  destruct (semverOrder va vb) eqn:E; try contradiction.
  - apply semverOrder_equal in E. apply Hbc, semverOrder_older.
    now apply (older_sameRelease_l va vb vc).
  - assert (semverOrder vb va = VersionOlder) as Hba
      by (rewrite semverOrder_flip, E; reflexivity).
    apply semverOrder_older in Hba.
    apply Hbc, semverOrder_older. now apply (older_trans vb va vc).
  - now apply semverOrder_comparable in E.
Qed.

Lemma scan_max (rest : list string) :
  forall highest,
    parses highest -> Forall parses rest ->
    let result :=
      fold_left
        (fun highest tag =>
           if VersionComparison_eqb (compareVersions highest tag) VersionOlder
           then tag else highest)
        rest highest in
    parses result
    /\ compareVersions result highest <> VersionOlder
    /\ forall tag, In tag rest -> compareVersions result tag <> VersionOlder.
Proof.
  induction rest as [|x rest IH]; intros highest Hh Hall; simpl.
  - split; [assumption|]. split; [|tauto]. rewrite compareVersions_refl. discriminate.
  - inversion Hall as [|? ? Hx Hrest]; subst.
    destruct (VersionComparison_eqb (compareVersions highest x) VersionOlder) eqn:E.
    + apply VersionComparison_eqb_eq in E.
      destruct (IH x Hx Hrest) as (Hr & Hrx & Hrrest).
      split; [assumption|]. split.
      * apply (compareVersions_not_older_trans _ x _); try assumption.
        rewrite compareVersions_mirror, E. discriminate.
      * intros tag [<-|Hin]; [assumption | now apply Hrrest].
    + assert (compareVersions highest x <> VersionOlder) as Hhx.
      { intros Hc. apply VersionComparison_eqb_eq in Hc. congruence. }
      destruct (IH highest Hh Hrest) as (Hr & Hrh & Hrrest).
      split; [assumption|]. split; [assumption|].
      intros tag [<-|Hin]; [|now apply Hrrest].
      now apply (compareVersions_not_older_trans _ highest _).
Qed.

Lemma scan_member (rest : list string) :
  forall highest,
    In (fold_left
          (fun highest tag =>
             if VersionComparison_eqb (compareVersions highest tag) VersionOlder
             then tag else highest)
          rest highest)
       (highest :: rest).
Proof.
  induction rest as [|x rest IH]; intros highest; simpl; [now left|].
  destruct (VersionComparison_eqb (compareVersions highest x) VersionOlder).
  - right. apply IH.
  - destruct (IH highest) as [Heq|Hin]; [now left | now right; right].
Qed.

Lemma highest_in_list (tags : list string) :
  (tags = [] -> findHighestSemanticVersion tags = "")
  /\ (tags <> [] -> In (findHighestSemanticVersion tags) tags).
Proof.
  split; [now intros ->|].
  destruct tags as [|first rest]; [contradiction|]. intros _. apply scan_member.
Qed.

(** X5.  [findHighestSemanticVersion] answers the empty string for the
    empty list and otherwise a tag of the list. *)
Theorem findHighestSemanticVersion_member (tags : list string) :
  (tags = [] -> findHighestSemanticVersion tags = "")
  /\ (tags <> [] -> In (findHighestSemanticVersion tags) tags).
Proof. exact (highest_in_list tags). Qed.

Lemma findHighestSemanticVersion_member_witness :
  ["1.2.0"; "1.10.0"; "1.9.0"] <> []
  /\ In (findHighestSemanticVersion ["1.2.0"; "1.10.0"; "1.9.0"])
        ["1.2.0"; "1.10.0"; "1.9.0"].
Proof.
  assert (["1.2.0"; "1.10.0"; "1.9.0"] <> []) as Hne by discriminate.
  split; [exact Hne|].
  exact (proj2 (findHighestSemanticVersion_member _) Hne).
Defined.

(** X6.  When every tag of the list parses as a semantic version, the tag
    that [findHighestSemanticVersion] answers is a highest one: no tag of the
    list is newer. *)
Theorem findHighestSemanticVersion_highest (tags : list string) :
  Forall parses tags ->
  forall tag, In tag tags ->
    compareVersions (findHighestSemanticVersion tags) tag <> VersionOlder.
Proof.
  intros Hall tag Hin. destruct tags as [|first rest]; [contradiction|].
  inversion Hall as [|? ? Hfirst Hrest]; subst.
  destruct (scan_max rest first Hfirst Hrest) as (_ & Hfirst' & Hrest').
  destruct Hin as [<-|Hin]; [exact Hfirst' | now apply Hrest'].
Qed.

Lemma findHighestSemanticVersion_highest_witness :
  Forall parses ["1.2.0"; "1.10.0"; "1.9.0"]
  /\ In "1.9.0" ["1.2.0"; "1.10.0"; "1.9.0"]
  /\ compareVersions (findHighestSemanticVersion ["1.2.0"; "1.10.0"; "1.9.0"]) "1.9.0"
     <> VersionOlder.
Proof.
  assert (Forall parses ["1.2.0"; "1.10.0"; "1.9.0"]) as Hall
    by (repeat constructor; eexists; vm_compute; reflexivity).
  assert (In "1.9.0" ["1.2.0"; "1.10.0"; "1.9.0"]) as Hin by (right; right; left; reflexivity).
  split; [exact Hall|]. split; [exact Hin|].
  exact (findHighestSemanticVersion_highest _ Hall _ Hin).
Defined.

Lemma compareVersions_incomparable_witness :
  "1.0.0" <> "latest" /\ compareVersions "1.0.0" "latest" = VersionIncomparable.
Proof.
  assert ("1.0.0" <> "latest") as Hne by discriminate.
  split; [exact Hne|].
  exact (proj2 (compareVersions_incomparable "1.0.0" "latest")
           (conj Hne (or_intror eq_refl))).
Defined.

Lemma compareVersions_equal_witness :
  compareVersions "v1.2.3+linux" "1.2.3+darwin" = VersionEqual.
Proof.
  apply (proj2 (compareVersions_equal "v1.2.3+linux" "1.2.3+darwin")).
  right. eexists; eexists.
  split; [vm_compute; reflexivity|]. split; [vm_compute; reflexivity|].
  repeat split.
Defined.

End VersionOrder.

(** ** Tag resolution and update checks *)

Module ResolutionProps.
Import Registry RegistryProps VersionNotions VersionOrder.

Section WithUnicodeCase.
Context `{Strings.UnicodeCase}.

Lemma filterUnwantedVersions_In (c : Client) (tags : list string) (tag : string) :
  In tag (filterUnwantedVersions c tags) -> In tag tags.
Proof. unfold filterUnwantedVersions. intros Hin. now apply filter_In in Hin. Qed.

Lemma filterSemanticVersionTags_In (tags : list string) (tag : string) :
  In tag (filterSemanticVersionTags tags) -> In tag tags.
Proof. unfold filterSemanticVersionTags. intros Hin. now apply filter_In in Hin. Qed.

Lemma latest_in_list (c : Client) (tags : list string) (currentTag latest : string) :
  findLatestTag c tags currentTag = Ok latest -> In latest tags.
Proof.
  unfold findLatestTag. destruct tags as [|first rest]; [discriminate|].
  destruct (String.eqb currentTag "latest").
  { intros Heq. injection Heq as <-.
    apply (proj2 (highest_in_list (first :: rest))). discriminate. }
  destruct (filterUnwantedVersions c (filterSemanticVersionTags (first :: rest)))
    as [|kept others] eqn:Hkept.
  - destruct (existsb _ (first :: rest)) eqn:E; intros Heq; injection Heq as <-.
    + now apply existsb_latest.
    + now left.
  - intros Heq. injection Heq as <-.
    apply filterSemanticVersionTags_In, (filterUnwantedVersions_In c).
    rewrite Hkept.
    apply (proj2 (highest_in_list (kept :: others))). discriminate.
Qed.

(** X7.  Whatever the filters and the current tag, the tag that
    [findLatestTag] answers is one of the tags it was given. *)
Theorem findLatestTag_member (c : Client) (tags : list string) (currentTag latest : string) :
  findLatestTag c tags currentTag = Ok latest -> In latest tags.
Proof. exact (latest_in_list c tags currentTag latest). Qed.

Lemma Contains_empty (s : string) : Strings.Contains s "" = true.
Proof. destruct s; reflexivity. Qed.

Lemma filter_none {A} (f : A -> bool) (l : list A) :
  (forall x, In x l -> f x = false) -> List.filter f l = [].
Proof.
  induction l as [|x l IH]; intros Hf; simpl; [reflexivity|].
  rewrite (Hf x) by now left. apply IH. intros y Hy. apply Hf. now right.
Qed.

(** X8.  An empty string among the custom exclude patterns excludes every
    tag, since every tag contains it.  Version resolution for a current tag
    other than [latest] then always takes the fallback: the literal tag
    [latest] when the list has it, else the first tag of the list. *)
Theorem empty_exclude_pattern (c : Client) (tags : list string) :
  In "" (ExcludePatterns (versionFilters c)) ->
  filterUnwantedVersions c tags = []
  /\ forall currentTag first rest,
       currentTag <> "latest" ->
       (In "latest" (first :: rest) ->
        findLatestTag c (first :: rest) currentTag = Ok "latest")
       /\ (~ In "latest" (first :: rest) ->
           findLatestTag c (first :: rest) currentTag = Ok first).
Proof.
  intros Hblank.
  assert (forall l, filterUnwantedVersions c l = []) as Hnone.
  { intros l. unfold filterUnwantedVersions. apply filter_none. intros tag _.
    assert (existsb
              (fun pattern =>
                 Strings.Contains (Strings.ToLower tag) (Strings.ToLower pattern))
              (excludePatternsOf (versionFilters c)) = true) as ->.
    { apply existsb_exists. exists "". split; [|apply Contains_empty].
      unfold excludePatternsOf. apply in_or_app. right. apply in_or_app. now right. }
    reflexivity. }
  split; [apply Hnone|].
  intros currentTag first rest Hcur. unfold findLatestTag.
  destruct (String.eqb_spec currentTag "latest"); [contradiction|].
  rewrite Hnone. split; intros Hin.
  - apply existsb_latest in Hin. now rewrite Hin.
  - destruct (existsb _ (first :: rest)) eqn:E; [|reflexivity].
    apply existsb_latest in E. contradiction.
Qed.

Lemma compareVersions_latest_never_older (tag : string) :
  compareVersions "latest" tag <> VersionOlder.
Proof.
  destruct (String.eqb_spec tag "latest") as [->|Hne].
  - rewrite compareVersions_refl. discriminate.
  - rewrite compareVersions_latest_l by assumption. discriminate.
Qed.

Lemma scan_stuck_on_latest (rest : list string) :
  fold_left
    (fun highest tag =>
       if VersionComparison_eqb (compareVersions highest tag) VersionOlder
       then tag else highest)
    rest "latest"
  = "latest".
Proof.
  induction rest as [|tag rest IH]; [reflexivity|]. cbn [fold_left].
  destruct (VersionComparison_eqb _ _) eqn:Holder; [|exact IH].
  apply VersionComparison_eqb_eq in Holder.
  now apply compareVersions_latest_never_older in Holder.
Qed.

(** X9.  The literal tag [latest] is never older than anything.  So for a
    list that starts with it [findHighestSemanticVersion] answers [latest]
    whatever follows, and so does [findLatestTag] for the current tag
    [latest]; and a check whose current tag is [latest] never reports an
    update, whatever the registry lists. *)
Theorem tracking_latest (c : Client) :
  (forall rest, findHighestSemanticVersion ("latest" :: rest) = "latest")
  /\ (forall rest, findLatestTag c ("latest" :: rest) "latest" = Ok "latest")
  /\ (forall env registry repository info err,
        CheckImageUpdate c env registry repository "latest" = (Some info, err) ->
        HasUpdate info = false).
Proof.
  split; [|split].
  - intros rest. apply scan_stuck_on_latest.
  - intros rest. unfold findLatestTag. cbn [String.eqb Ascii.eqb Bool.eqb andb].
    f_equal. apply scan_stuck_on_latest.
  - intros env registry repository info err. unfold CheckImageUpdate.
    destruct (waitAnswer env); [discriminate|].
    destruct (tagsAnswer env) as [tags|]; [|discriminate].
    destruct (List.length tags =? 0)%nat; [now intros [= <- <-]|].
    destruct (findLatestTag c tags "latest") as [latestTag|]; [|now intros [= <- <-]].
    intros [= <- <-]. simpl.
    apply not_true_is_false. rewrite VersionComparison_eqb_eq.
    apply compareVersions_latest_never_older.
Qed.

(** X10.  When a check reports an update, the latest tag of the verdict is
    one of the tags the registry listed, it differs from the current tag,
    and neither of the two is the literal tag [latest]. *)
Theorem CheckImageUpdate_update_is_listed (c : Client) (env : Answers)
    (registry repository currentTag : string) (info : ImageUpdateInfo)
    (err : option error) :
  CheckImageUpdate c env registry repository currentTag = (Some info, err) ->
  HasUpdate info = true ->
  In (LatestTag info) (AvailableTags info)
  /\ LatestTag info <> currentTag
  /\ currentTag <> "latest"
  /\ LatestTag info <> "latest".
Proof.
  unfold CheckImageUpdate.
  destruct (waitAnswer env); [discriminate|].
  destruct (tagsAnswer env) as [tags|]; [|discriminate].
  destruct (List.length tags =? 0)%nat; [intros [= <- <-]; discriminate|].
  destruct (findLatestTag c tags currentTag) as [latestTag|] eqn:Hfind;
    [|intros [= <- <-]; discriminate].
  intros [= <- <-]. simpl. intros Hupd. apply VersionComparison_eqb_eq in Hupd.
  split; [now apply (latest_in_list c tags currentTag)|].
  assert (compareVersions currentTag latestTag <> VersionIncomparable) as Hcmp
    by congruence.
  rewrite incomparable_iff_latest in Hcmp.
  assert (latestTag <> currentTag) as Hne.
  { intros ->. rewrite compareVersions_refl in Hupd. discriminate. }
  split; [exact Hne|].
  split; intros ->; apply Hcmp; split; auto.
Qed.

(** X11.  [CheckImageUpdate] fails in two cases only: the limiter refuses,
    and then the registry is not asked, or the registry call fails; the
    error wraps the cause.  In every other case it returns a verdict that
    repeats the registry, the repository and the current tag it was called
    with and carries the tags the registry listed; trouble in resolving the
    latest tag never becomes an error. *)
Theorem CheckImageUpdate_errors (c : Client) (env : Answers)
    (registry repository currentTag : string) :
  (forall e, waitAnswer env = Some e ->
     CheckImageUpdate c env registry repository currentTag
     = (None, Some (ErrRateLimiter e)))
  /\ (forall e, waitAnswer env = None -> tagsAnswer env = Err e ->
        CheckImageUpdate c env registry repository currentTag
        = (None, Some (ErrGetTags e)))
  /\ (forall tags, waitAnswer env = None -> tagsAnswer env = Ok tags ->
        exists info,
          CheckImageUpdate c env registry repository currentTag = (Some info, None)
          /\ Registry info = registry
          /\ Repository info = repository
          /\ CurrentTag info = currentTag
          /\ AvailableTags info = tags).
Proof.
  unfold CheckImageUpdate. repeat split.
  - intros e ->. reflexivity.
  - intros e -> ->. reflexivity.
  - intros tags -> ->.
    destruct (List.length tags =? 0)%nat; [eexists; repeat split|].
    destruct (findLatestTag c tags currentTag); eexists; repeat split.
Qed.

Lemma In_omap {A B} (f : A -> option B) (l : list A) (y : B) :
  In y (omap f l) <-> exists x, In x l /\ f x = Some y.
Proof.
  rewrite <- list_elem_of_In, list_elem_of_omap.
  split; intros (x & Hx & Hf); exists x; split; try assumption;
    now apply list_elem_of_In.
Qed.

(** X13.  Whatever a batch returns: an error never comes with verdicts;
    there are at most as many verdicts as images; and every verdict is what
    [CheckImageUpdate] returned, without error, for one of the images of the
    batch, called with that image's registry, repository and tag. *)
Theorem CheckMultipleImages_verdicts (c : Client)
    (arrivals : list (ImageCheck.t * Answers)) (maxConcurrency : Z)
    (infos : list ImageUpdateInfo) (err : option error) :
  CheckMultipleImages c arrivals maxConcurrency = Returns (infos, err) ->
  (err <> None -> infos = [])
  /\ (List.length infos <= List.length arrivals)%nat
  /\ forall info, In info infos ->
       exists image env,
         In (image, env) arrivals
         /\ CheckImageUpdate c env (ImageCheck.Registry image)
              (ImageCheck.Repository image) (ImageCheck.Tag image)
            = (Some info, None).
Proof.
  destruct (Z.lt_ge_cases 0 maxConcurrency) as [Hpos|Hle].
  - rewrite (CheckMultipleImages_returns c arrivals maxConcurrency Hpos).
    destruct (forallb (failed c) arrivals && _).
    + intros [= <- <-]. split; [reflexivity|]. split; [simpl; lia|]. intros info [].
    + intros [= <- <-]. split; [congruence|]. split.
      * rewrite verdicts_length. apply filter_length_le.
      * intros info Hin. apply In_omap in Hin as ([image env] & Hjob & Hverdict).
        exists image, env. split; [assumption|].
        unfold verdict, checkOne in Hverdict.
        destruct (CheckImageUpdate c env _ _ _) as [updateInfo e]. simpl in Hverdict.
        destruct e; [discriminate|]. now subst.
  - rewrite (CheckMultipleImages_nobody_admitted c arrivals maxConcurrency Hle).
    destruct arrivals; [|destruct (maxConcurrency <? 0); discriminate].
    intros [= <- <-]. split; [reflexivity|]. split; [simpl; lia|]. intros info [].
Qed.

End WithUnicodeCase.

Lemma findLatestTag_member_witness :
  @findLatestTag Strings.asciiOnly (NewClient 100 10)
    ["1.21.0"; "1.21.1"; "1.22.0-rc1"] "1.21.0" = Ok "1.21.1"
  /\ In "1.21.1" ["1.21.0"; "1.21.1"; "1.22.0-rc1"].
Proof.
  assert (@findLatestTag Strings.asciiOnly (NewClient 100 10)
            ["1.21.0"; "1.21.1"; "1.22.0-rc1"] "1.21.0" = Ok "1.21.1") as Hfind
    by (vm_compute; reflexivity).
  split; [exact Hfind|].
  exact (@findLatestTag_member Strings.asciiOnly _ _ _ _ Hfind).
Defined.

Lemma empty_exclude_pattern_witness :
  In "" (ExcludePatterns
           (versionFilters
              (NewClientWithFilters 100 10
                 {| ExcludePreRelease := false; ExcludeWindows := false;
                    ExcludePatterns := [""]; OnlyStable := false |})))
  /\ @filterUnwantedVersions Strings.asciiOnly
       (NewClientWithFilters 100 10
          {| ExcludePreRelease := false; ExcludeWindows := false;
             ExcludePatterns := [""]; OnlyStable := false |})
       ["1.0.0"; "2.0.0"] = [].
Proof.
  assert (In "" (ExcludePatterns
                   (versionFilters
                      (NewClientWithFilters 100 10
                         {| ExcludePreRelease := false; ExcludeWindows := false;
                            ExcludePatterns := [""]; OnlyStable := false |}))))
    as Hblank by (left; reflexivity).
  split; [exact Hblank|].
  exact (proj1 (@empty_exclude_pattern Strings.asciiOnly _ ["1.0.0"; "2.0.0"] Hblank)).
Defined.

Lemma CheckImageUpdate_update_is_listed_witness :
  @CheckImageUpdate Strings.asciiOnly (NewClient 100 10) (answered ["2.0.0"; "1.0.0"])
    "docker.io" "library/nginx" "1.0.0"
  = (Some {| CurrentTag := "1.0.0"; LatestTag := "2.0.0";
             AvailableTags := ["2.0.0"; "1.0.0"]; HasUpdate := true;
             Registry := "docker.io"; Repository := "library/nginx" |}, None)
  /\ In "2.0.0" ["2.0.0"; "1.0.0"]
  /\ "2.0.0" <> "1.0.0"
  /\ "1.0.0" <> "latest"
  /\ "2.0.0" <> "latest".
Proof.
  assert (@CheckImageUpdate Strings.asciiOnly (NewClient 100 10)
            (answered ["2.0.0"; "1.0.0"]) "docker.io" "library/nginx" "1.0.0"
          = (Some {| CurrentTag := "1.0.0"; LatestTag := "2.0.0";
                     AvailableTags := ["2.0.0"; "1.0.0"]; HasUpdate := true;
                     Registry := "docker.io"; Repository := "library/nginx" |}, None))
    as Hcheck by (vm_compute; reflexivity).
  split; [exact Hcheck|].
  exact (@CheckImageUpdate_update_is_listed Strings.asciiOnly _ _ _ _ _ _ _
           Hcheck eq_refl).
Defined.

Lemma CheckImageUpdate_errors_witness :
  waitAnswer unreachable = None
  /\ tagsAnswer unreachable = Err (ErrExternal "connection refused")
  /\ @CheckImageUpdate Strings.asciiOnly (NewClient 100 10) unreachable
       "docker.io" "library/nginx" "1.0.0"
     = (None, Some (ErrGetTags (ErrExternal "connection refused"))).
Proof.
  split; [reflexivity|]. split; [reflexivity|].
  exact (proj1 (proj2 (@CheckImageUpdate_errors Strings.asciiOnly (NewClient 100 10)
                         unreachable "docker.io" "library/nginx" "1.0.0"))
           _ eq_refl eq_refl).
Defined.

Lemma CheckMultipleImages_verdicts_witness :
  @CheckMultipleImages Strings.asciiOnly (NewClient 100 10)
    [(nginx, unreachable); (nginx, answered [])] 2
  = Returns ([ {| CurrentTag := "1.21.0"; LatestTag := ""; AvailableTags := [];
                  HasUpdate := false; Registry := "docker.io";
                  Repository := "library/nginx" |} ], None)
  /\ (1 <= 2)%nat.
Proof.
  assert (@CheckMultipleImages Strings.asciiOnly (NewClient 100 10)
            [(nginx, unreachable); (nginx, answered [])] 2
          = Returns ([ {| CurrentTag := "1.21.0"; LatestTag := ""; AvailableTags := [];
                          HasUpdate := false; Registry := "docker.io";
                          Repository := "library/nginx" |} ], None))
    as Hbatch by (vm_compute; reflexivity).
  split; [exact Hbatch|].
  exact (proj1 (proj2 (@CheckMultipleImages_verdicts Strings.asciiOnly _ _ _ _ _ Hbatch))).
Defined.

End ResolutionProps.

(** ** Progress and statistics of a task *)

Module SchedulerMore.
Import Scheduler SchedulerProps SchedulerNotions.

Lemma count_none (f : pc -> bool) (gs : list goroutine) :
  (forall i g, gs !! i = Some g -> f (at_pc g) = false) -> count f gs = 0%nat.
Proof.
  induction gs as [|g gs IH]; intros Hf; simpl; [reflexivity|].
  rewrite (Hf 0%nat g eq_refl). simpl. apply IH.
  intros i g' Hi. apply (Hf (S i) g' Hi).
Qed.

Lemma returned_not_executing (p : pc) : returned p = true -> executing p = false.
Proof. now destruct p. Qed.

Lemma returned_not_holding (p : pc) : returned p = true -> holds_mu p = false.
Proof. now destruct p. Qed.

(** X14.  Once every goroutine that entered [RunTask] or the wrapped
    handler of a task has returned, the task is idle again: [IsRunning] is
    clear and the mutex is free, also after a handler that panicked. *)
Theorem task_idle_when_all_returned (t : Task) :
  reachable t ->
  (forall i g, goroutines t !! i = Some g -> returned (at_pc g) = true) ->
  IsRunning t = false /\ mu_locked t = false.
Proof.
  intros Hreach Hall. destruct (reachable_consistent t Hreach) as [Hmu Hrun _].
  rewrite (count_none holds_mu) in Hmu
    by (intros i g Hg; apply returned_not_holding, (Hall i g Hg)).
  rewrite (count_none executing) in Hrun
    by (intros i g Hg; apply returned_not_executing, (Hall i g Hg)).
  split; [destruct (IsRunning t) | destruct (mu_locked t)]; congruence.
Qed.





Lemma count_le_length (f : pc -> bool) (gs : list goroutine) :
  (count f gs <= List.length gs)%nat.
Proof. induction gs as [|g gs IH]; simpl; [lia|]. destruct (f (at_pc g)); lia. Qed.

Lemma counted_error_counted (p : pc) : counted_error p = true -> counted p = true.
Proof.
  destruct p as [| | | | | | | | e| e| e| e| |e]; simpl;
    try discriminate; try reflexivity; now destruct e.
Qed.

Lemma counting_new : counting newTask.
Proof. split; simpl; [reflexivity | intros _; split; reflexivity]. Qed.

Lemma counting_start (o : origin) (t : Task) : counting t -> counting (start o t).
Proof.
  intros [Hpath Hcnt]. split; simpl.
  - rewrite count_app, Hpath. reflexivity.
  - rewrite length_app. simpl. intros Hlen.
    rewrite !count_app. simpl. rewrite !Nat.add_0_r. apply Hcnt. lia.
Qed.

(** Instantiates the counting facts with the program point the stepping
    goroutine has moved to. *)
Ltac counts_moved Ho Hc He Hl :=
  match goal with
  | |- context [<[_ := {| from := _; at_pc := ?p |}]> _] =>
      specialize (Ho p); specialize (Hc p); specialize (He p); specialize (Hl p)
  end.

Lemma counting_step (t t' : Task) (i : nat) (e : ending) :
  counting t -> step t i e = Some t' -> counting t'.
Proof.
  intros [Hpath Hcnt]. unfold step, move.
  destruct (goroutines t !! i) as [g|] eqn:Hg; [|discriminate].
  pose proof (fun p => count_insert (fun p => negb (on_normal_path p)) (goroutines t) i g
                         {| from := from g; at_pc := p |} Hg) as Ho.
  pose proof (fun p => count_insert counted (goroutines t) i g
                         {| from := from g; at_pc := p |} Hg) as Hc.
  pose proof (fun p => count_insert counted_error (goroutines t) i g
                         {| from := from g; at_pc := p |} Hg) as He.
  pose proof (fun p => count_le_length counted
                         (<[i := {| from := from g; at_pc := p |}]> (goroutines t))) as Hl.
  pose proof (count_lookup (fun p => negb (on_normal_path p)) (goroutines t) i g Hg) as Lo.
  pose proof (count_le counted_error counted (goroutines t) counted_error_counted) as Hec.
  change (2 ^ 63) with 9223372036854775808 in Hcnt.
  destruct (at_pc g) eqn:Hpc; simpl in *;
    try discriminate;
    try (destruct e; simpl);
    try (destruct (mu_locked t); simpl; try discriminate);
    try (destruct (IsRunning t); simpl);
    intros [= <-].
  all: split; simpl.
  all: try (counts_moved Ho Hc He Hl; simpl in *; try specialize (Lo eq_refl); lia).
  all: rewrite length_insert; change (2 ^ 63) with 9223372036854775808;
    intros Hlen; specialize (Hcnt Hlen);
    counts_moved Ho Hc He Hl; rewrite length_insert in Hl.
  all: unfold incr64; change (2 ^ 63) with 9223372036854775808.
  all: cbn [counted counted_error on_normal_path panicked errored negb at_pc] in *.
  all: repeat match goal with
         | e0 : ending |- _ =>
             destruct e0;
             cbn [counted counted_error on_normal_path panicked errored negb] in *
         end.
  all: try specialize (Lo eq_refl).
  all: repeat match goal with
         | |- context [?x =? ?y] => destruct (Z.eqb_spec x y)
         end.
  all: lia.
Qed.

Lemma reachable_counting (t : Task) : reachable t -> counting t.
Proof.
  induction 1 as [|o t _ IH|t i e t' _ IH Hstep].
  - apply counting_new.
  - now apply counting_start.
  - now apply (counting_step t t' i e).
Qed.

(** X16.  As long as fewer than [2^63] goroutines have entered [RunTask]
    or the wrapped handler of a task, its counters are exact in every
    reachable state: [RunCount] is the number of executions that have gone
    through the statistics update, [ErrorCount] the number of those whose
    handler returned an error, so [0 <= ErrorCount <= RunCount].  An
    execution whose handler panicked is in neither.  The task counts as
    consistently failing for [Health] exactly when at least one execution has
    been counted and every counted one returned an error. *)
Theorem counters_exact_in_reachable_states (t : Task) :
  reachable t ->
  Z.of_nat (List.length (goroutines t)) < 2 ^ 63 ->
  RunCount t = Z.of_nat (count counted (goroutines t))
  /\ ErrorCount t = Z.of_nat (count counted_error (goroutines t))
  /\ 0 <= ErrorCount t <= RunCount t
  /\ (consistentlyFailing t = true
      <-> (0 < count counted (goroutines t))%nat
          /\ count counted_error (goroutines t) = count counted (goroutines t)).
Proof.
  intros Hreach Hlen. destruct (reachable_counting t Hreach) as [_ Hcnt].
  destruct (Hcnt Hlen) as [Hrun Herr].
  assert (count counted_error (goroutines t) <= count counted (goroutines t))%nat as Hle.
  { apply count_le, counted_error_counted. }
  split; [exact Hrun|]. split; [exact Herr|]. split; [lia|].
  unfold consistentlyFailing. rewrite andb_true_iff, Z.gtb_lt, Z.eqb_eq. lia.
Qed.

Lemma replay_reachable (moves : list action) :
  forall t t', reachable t -> replay t moves = Some t' -> reachable t'.
Proof.
  induction moves as [|[o|i e] moves IH]; intros t t' Hreach; simpl.
  - now intros [= <-].
  - apply IH. now constructor.
  - destruct (step t i e) as [t1|] eqn:Hstep; [|discriminate].
    apply IH. now apply (reach_step t i e).
Qed.

Lemma reachable_quiet : reachable quiet.
Proof.
  apply (replay_reachable
           [ Start Scheduled; Step 0 HandlerOk; Step 0 HandlerOk; Step 0 HandlerOk;
             Step 0 HandlerOk; Step 0 (HandlerError (ErrExternal "registry down"));
             Step 0 HandlerOk; Step 0 HandlerOk; Step 0 HandlerOk; Step 0 HandlerOk;
             Step 0 HandlerOk; Step 0 HandlerOk ]
           newTask quiet reach_new).
  vm_compute. reflexivity.
Qed.

Lemma quiet_all_returned (i : nat) (g : goroutine) :
  goroutines quiet !! i = Some g -> returned (at_pc g) = true.
Proof. destruct i as [|i]; simpl; [intros [= <-]; reflexivity | discriminate]. Defined.

Lemma task_idle_when_all_returned_witness :
  reachable quiet
  /\ (forall i g, goroutines quiet !! i = Some g -> returned (at_pc g) = true)
  /\ IsRunning quiet = false /\ mu_locked quiet = false.
Proof.
  split; [exact reachable_quiet|]. split; [exact quiet_all_returned|].
  exact (task_idle_when_all_returned quiet reachable_quiet quiet_all_returned).
Defined.


Lemma counters_exact_in_reachable_states_witness :
  reachable quiet
  /\ Z.of_nat (List.length (goroutines quiet)) < 2 ^ 63
  /\ RunCount quiet = Z.of_nat (count counted (goroutines quiet))
  /\ ErrorCount quiet = Z.of_nat (count counted_error (goroutines quiet)).
Proof.
  assert (Z.of_nat (List.length (goroutines quiet)) < 2 ^ 63) as Hlen by reflexivity.
  split; [exact reachable_quiet|]. split; [exact Hlen|].
  destruct (counters_exact_in_reachable_states quiet reachable_quiet Hlen)
    as (Hrun & Herr & _).
  split; assumption.
Defined.

End SchedulerMore.

(** ** The matcher and the texts of a pattern *)

Module RegexpSemProps.
Import Regexp RegexpSem RegexpProps.

Lemma string_app_nil_r (s : string) : s ++ "" = s.
Proof. induction s as [|a s IH]; simpl; [reflexivity | now rewrite IH]. Qed.

Lemma string_app_assoc (s t u : string) : (s ++ t) ++ u = s ++ (t ++ u).
Proof. induction s as [|a s IH]; simpl; [reflexivity | now rewrite IH]. Qed.

Lemma string_app_length (s t : string) :
  String.length (s ++ t) = (String.length s + String.length t)%nat.
Proof. induction s as [|a s IH]; simpl; [reflexivity | now rewrite IH]. Qed.

Lemma before_app (u s : string) : Strings.before (u ++ s) s = u.
Proof.
  induction u as [|a u IH].
  - simpl. destruct s as [|b s]; [reflexivity|]. simpl.
    now rewrite Nat.leb_refl.
  - change (String a u ++ s) with (String a (u ++ s)).
    cbn [Strings.before]. rewrite IH.
    replace (String.length (String a (u ++ s)) <=? String.length s)%nat with false;
      [reflexivity|].
    symmetry. apply Nat.leb_gt. simpl. rewrite string_app_length. lia.
Qed.

Lemma iterate_sound (r : regex) (k : cont) :
  (forall s c k' m,
     run r s c k' = Some m ->
     exists u s' c', s = u ++ s' /\ derives r u c' /\ k' s' (c' ++ c)%list = Some m) ->
  forall n s c m,
    iterate (run r) k n s c = Some m ->
    exists u s' c', s = u ++ s' /\ derives (Star r) u c' /\ k s' (c' ++ c)%list = Some m.
Proof.
  intros IHr. induction n as [|n IHn]; intros s c m; simpl.
  - intros Hk. exists "", s, []. repeat split; [constructor | exact Hk].
  - destruct (run r s c _) as [m0|] eqn:Hbody.
    + intros [= ->]. apply IHr in Hbody as (u1 & s1 & c1 & -> & Hd1 & Hk1).
      destruct (String.length s1 <? String.length (u1 ++ s1))%nat eqn:Hlt;
        [|discriminate].
      apply IHn in Hk1 as (u2 & s2 & c2 & -> & Hd2 & Hk2).
      exists (u1 ++ u2), s2, (c2 ++ c1)%list.
      split; [now rewrite string_app_assoc|]. split.
      * constructor; try assumption.
        intros ->. simpl in Hlt. apply Nat.ltb_lt in Hlt. lia.
      * now rewrite <- app_assoc.
    + intros Hk. exists "", s, []. repeat split; [constructor | exact Hk].
Qed.

(** Whatever the matcher reports comes from a way to match the pattern:
    the text in front of what the continuation received is matched by the
    pattern, and the submatches handed on are those of that match. *)
Lemma run_sound (r : regex) :
  forall s c k m,
    run r s c k = Some m ->
    exists u s' c', s = u ++ s' /\ derives r u c' /\ k s' (c' ++ c)%list = Some m.
Proof.
  induction r as [|p|r1 IH1 r2 IH2|r IH|r IH|n r IH]; intros s c k m; simpl.
  - intros Hk. exists "", s, []. repeat split; [constructor | exact Hk].
  - destruct s as [|a s]; [discriminate|]. destruct (p a) eqn:Hp; [|discriminate].
    intros Hk. exists (String a ""), s, []. repeat split; [now constructor | exact Hk].
  - intros Hrun. apply IH1 in Hrun as (u1 & s1 & c1 & -> & Hd1 & Hrun).
    apply IH2 in Hrun as (u2 & s2 & c2 & -> & Hd2 & Hk).
    exists (u1 ++ u2), s2, (c2 ++ c1)%list.
    split; [now rewrite string_app_assoc|]. split; [now constructor|].
    now rewrite <- app_assoc.
  - destruct (run r s c k) as [m0|] eqn:Hrun.
    + intros [= ->]. apply IH in Hrun as (u & s' & c' & -> & Hd & Hk).
      exists u, s', c'. repeat split; [now constructor | exact Hk].
    + intros Hk. exists "", s, []. repeat split; [constructor | exact Hk].
  - apply iterate_sound. exact IH.
  - intros Hrun. apply IH in Hrun as (u & s' & c' & -> & Hd & Hk).
    rewrite before_app in Hk.
    exists u, s', ((n, u) :: c'). repeat split; [now constructor | exact Hk].
Qed.

(** Whenever the pattern matches a text in front of a rest that the
    continuation accepts, the matcher reports a match. *)
Lemma run_complete (r : regex) (u : string) (cu : captures) :
  derives r u cu ->
  forall s' c k, (forall c', k s' c' <> None) -> run r (u ++ s') c k <> None.
Proof.
  induction 1 as [|p a Hp|r1 r2 u1 u2 c1 c2 _ IH1 _ IH2| r |r u c0 _ IH
                 | r |r u1 u2 c1 c2 Hne _ IH1 _ IH2|n r u c0 _ IH];
    intros s' c k Hk.
  - apply Hk.
  - simpl. rewrite Hp. apply Hk.
  - simpl. rewrite string_app_assoc. apply IH1. intros c'. now apply IH2.
  - simpl. destruct (run r s' c k); [discriminate | apply Hk].
  - simpl. specialize (IH s' c k Hk).
    destruct (run r (u ++ s') c k); [discriminate | contradiction].
  - change ("" ++ s') with s'. simpl.
    destruct (String.length s') as [|n]; simpl; [apply Hk|].
    destruct (run r s' c _); [discriminate | apply Hk].
  - rewrite (run_Star_enough r k (String.length ((u1 ++ u2) ++ s'))) by lia.
    destruct (String.length ((u1 ++ u2) ++ s')) as [|n] eqn:Hlen.
    { destruct u1; [contradiction | discriminate]. }
    simpl. rewrite string_app_assoc.
    match goal with
    | |- match run r _ c ?K with _ => _ end <> None =>
        assert (run r (u1 ++ u2 ++ s') c K <> None) as Hbody
    end.
    { apply IH1. intros c'.
      replace (String.length (u2 ++ s') <? String.length (u1 ++ u2 ++ s'))%nat
        with true.
      - rewrite <- (run_Star_enough r k n) by
          (rewrite string_app_assoc, string_app_length in Hlen;
           destruct u1; [contradiction | simpl in Hlen; lia]).
        now apply IH2.
      - symmetry. apply Nat.ltb_lt. rewrite (string_app_length u1).
        destruct u1; [contradiction | simpl; lia]. }
    destruct (run r (u1 ++ u2 ++ s') c _); [discriminate | contradiction].
  - simpl. apply IH. intros c'. apply Hk.
Qed.

(** The matcher decides the texts of the pattern. *)
Lemma MatchString_derives (r : regex) (s : string) :
  MatchString r s = true <-> exists c, derives r s c.
Proof.
  unfold MatchString, FindStringSubmatch. split.
  - destruct (run r s [] _) as [m|] eqn:Hrun; [|discriminate]. intros _.
    apply run_sound in Hrun as (u & s' & c' & -> & Hd & Hk).
    destruct s'; [|discriminate]. rewrite string_app_nil_r. now exists c'.
  - intros [c Hd].
    pose proof (run_complete r s c Hd "" []
                  (fun s' c => match s' with EmptyString => Some c | _ => None end))
      as Hrun.
    rewrite string_app_nil_r in Hrun.
    destruct (run r s [] _); [reflexivity|]. exfalso. apply Hrun; [discriminate | reflexivity].
Qed.

(** The submatches that [FindStringSubmatch] reports are those of a way to
    match the whole text. *)
Lemma FindStringSubmatch_derives (r : regex) (s : string) (matches : list string) :
  FindStringSubmatch r s = Some matches ->
  exists c,
    derives r s c
    /\ matches = s :: map (fun i => submatch c (S i)) (seq 0 (NumSubexp r)).
Proof.
  unfold FindStringSubmatch.
  destruct (run r s [] _) as [m|] eqn:Hrun; [|discriminate]. intros [= <-].
  apply run_sound in Hrun as (u & s' & c' & -> & Hd & Hk).
  destruct s'; [|discriminate]. injection Hk as <-.
  rewrite string_app_nil_r, app_nil_r. now exists c'.
Qed.

End RegexpSemProps.

(** ** The texts of the version patterns *)

Module GrammarProps.
Import Regexp RegexpSem RegexpProps RegexpSemProps Grammar Registry.

Lemma derives_class_inv (p : ascii -> bool) (u : string) (c : captures) :
  derives (Class p) u c -> exists a, u = String a "" /\ p a = true /\ c = [].
Proof. inversion 1; subst. eauto. Qed.

Lemma derives_lit_inv (a : ascii) (u : string) (c : captures) :
  derives (Lit a) u c -> u = String a "" /\ c = [].
Proof.
  intros Hd. apply derives_class_inv in Hd as (b & -> & Hb & ->).
  apply Ascii.eqb_eq in Hb. now subst.
Qed.

Lemma derives_cat_inv (r1 r2 : regex) (u : string) (c : captures) :
  derives (Cat r1 r2) u c ->
  exists u1 u2 c1 c2,
    u = u1 ++ u2 /\ c = (c2 ++ c1)%list /\ derives r1 u1 c1 /\ derives r2 u2 c2.
Proof. inversion 1; subst. eauto 10. Qed.

Lemma derives_cat_intro (r1 r2 : regex) (u u1 u2 : string) (c c1 c2 : captures) :
  derives r1 u1 c1 -> derives r2 u2 c2 ->
  u = u1 ++ u2 -> c = (c2 ++ c1)%list ->
  derives (Cat r1 r2) u c.
Proof. intros H1 H2 -> ->. now constructor. Qed.

Lemma derives_lit (a : ascii) : derives (Lit a) (String a "") [].
Proof. constructor. apply Ascii.eqb_refl. Qed.

Lemma derives_quest_inv (r : regex) (u : string) (c : captures) :
  derives (Quest r) u c -> (u = "" /\ c = []) \/ derives r u c.
Proof. inversion 1; subst; auto. Qed.

Lemma derives_group_inv (n : nat) (r : regex) (u : string) (c : captures) :
  derives (Group n r) u c -> exists c', c = (n, u) :: c' /\ derives r u c'.
Proof. inversion 1; subst. eauto. Qed.

Lemma all_bytes_app (p : ascii -> bool) (u v : string) :
  Strings.all_bytes p (u ++ v) = Strings.all_bytes p u && Strings.all_bytes p v.
Proof.
  induction u as [|a u IH]; simpl; [reflexivity|]. rewrite IH. now rewrite andb_assoc.
Qed.

Lemma derives_star_class (p : ascii -> bool) (u : string) (c : captures) :
  derives (Star (Class p)) u c -> c = [] /\ Strings.all_bytes p u = true.
Proof.
  remember (Star (Class p)) as r eqn:Hr. intros Hd.
  induction Hd as [| | | | | r0 | r0 u1 u2 c1 c2 Hne Hd1 _ Hd2 IH2 |];
    try discriminate.
  - split; reflexivity.
  - injection Hr as ->. destruct (IH2 eq_refl) as [-> Hall].
    apply derives_class_inv in Hd1 as (a & -> & Hp & ->).
    split; [reflexivity|]. simpl. now rewrite Hp, Hall.
Qed.

Lemma derives_plus_class (p : ascii -> bool) (u : string) (c : captures) :
  derives (Plus (Class p)) u c <-> c = [] /\ run_of p u.
Proof.
  unfold Plus, run_of. split.
  - intros Hd. apply derives_cat_inv in Hd as (u1 & u2 & c1 & c2 & -> & -> & H1 & H2).
    apply derives_class_inv in H1 as (a & -> & Hp & ->).
    apply derives_star_class in H2 as [-> Hall].
    split; [reflexivity|]. split; [discriminate|]. simpl. now rewrite Hp, Hall.
  - intros (-> & Hne & Hall). destruct u as [|a u]; [contradiction|].
    simpl in Hall. apply andb_true_iff in Hall as [Hp Hall].
    apply (derives_cat_intro _ _ _ (String a "") u _ [] []);
      [now constructor | | reflexivity | reflexivity].
    clear Hne Hp. induction u as [|b u IH]; [constructor|].
    simpl in Hall. apply andb_true_iff in Hall as [Hb Hall].
    apply (d_star_round _ (String b "") u [] []);
      [discriminate | now constructor | now apply IH].
Qed.

(** An optional part that is introduced by the byte [sep] and captured as
    group [n]. *)
Lemma derives_optional (sep : ascii) (n : nat) (p : ascii -> bool)
    (u : string) (c : captures) :
  derives (Quest (Seq [Lit sep; Group n (Plus (Class p))])) u c
  <-> exists x,
        optional_run p x
        /\ u = preceded_by (String sep "") x
        /\ c = optional_capture n x.
Proof.
  split.
  - intros Hd. apply derives_quest_inv in Hd as [[-> ->]|Hd].
    + exists "". split; [now left|]. split; reflexivity.
    + simpl in Hd.
      apply derives_cat_inv in Hd as (u1 & u2 & c1 & c2 & -> & -> & H1 & H2).
      apply derives_lit_inv in H1 as [-> ->].
      apply derives_group_inv in H2 as (c' & -> & H2).
      apply derives_plus_class in H2 as [-> Hrun].
      exists u2. split; [now right|].
      unfold preceded_by, optional_capture.
      destruct Hrun as [Hne _]. rewrite (proj2 (String.eqb_neq u2 "") Hne).
      split; reflexivity.
  - intros (x & Hx & -> & ->). unfold preceded_by, optional_capture.
    destruct (String.eqb_spec x "") as [->|Hne]; [constructor|].
    destruct Hx as [?|Hrun]; [contradiction|].
    apply d_quest_take. simpl.
    apply (derives_cat_intro _ _ _ (String sep "") x _ [] [(n, x)]);
      [apply derives_lit | | reflexivity | reflexivity].
    constructor. now apply derives_plus_class.
Qed.

Lemma derives_digits_group (n : nat) (u : string) (c : captures) :
  derives (Group n digits) u c <-> run_of Strings.is_digit u /\ c = [(n, u)].
Proof.
  unfold digits. split.
  - intros Hd. apply derives_group_inv in Hd as (c' & -> & Hd).
    apply derives_plus_class in Hd as [-> Hrun]. now split.
  - intros [Hrun ->]. constructor. now apply derives_plus_class.
Qed.

(** The texts of the pattern of [parseSemanticVersion] are the texts of the
    shape, and the submatches are the parts of the shape. *)
Lemma derives_semverPattern (s : string) (c : captures) :
  derives semverPattern s c
  <-> exists d1 d2 d3 pre build,
        semverShape s d1 d2 d3 pre build
        /\ c = (optional_capture 5 build ++ optional_capture 4 pre
                ++ [(3%nat, d3); (2%nat, d2); (1%nat, d1)])%list.
Proof.
  unfold semverPattern, semverShape. cbn [Seq]. split.
  - intros Hd.
    apply derives_cat_inv in Hd as (d1 & v1 & c1 & k1 & -> & -> & H1 & Hd).
    apply derives_digits_group in H1 as [Hd1 ->].
    apply derives_cat_inv in Hd as (dot1 & v2 & cdot1 & k2 & -> & -> & Hdot1 & Hd).
    apply derives_lit_inv in Hdot1 as [-> ->].
    apply derives_cat_inv in Hd as (d2 & v3 & c2 & k3 & -> & -> & H2 & Hd).
    apply derives_digits_group in H2 as [Hd2 ->].
    apply derives_cat_inv in Hd as (dot2 & v4 & cdot2 & k4 & -> & -> & Hdot2 & Hd).
    apply derives_lit_inv in Hdot2 as [-> ->].
    apply derives_cat_inv in Hd as (d3 & v5 & c3 & k5 & -> & -> & H3 & Hd).
    apply derives_digits_group in H3 as [Hd3 ->].
    apply derives_cat_inv in Hd as (upre & ubuild & cpre & cbuild & -> & -> & Hpre & Hbuild).
    apply (derives_optional "-" 4) in Hpre as (pre & Hpre & -> & ->).
    apply (derives_optional "+" 5) in Hbuild as (build & Hbuild & -> & ->).
    exists d1, d2, d3, pre, build. split.
    + repeat split; try assumption; try apply Hd1; try apply Hd2; try apply Hd3.
    + simpl. rewrite ?app_nil_r, <- ?app_assoc. reflexivity.
  - intros (d1 & d2 & d3 & pre & build & (-> & Hd1 & Hd2 & Hd3 & Hpre & Hbuild) & ->).
    set (tail := (optional_capture 5 build ++ optional_capture 4 pre)%list).
    eapply (derives_cat_intro _ _ _ d1 _ _ [(1%nat, d1)]
             (tail ++ [(3%nat, d3); (2%nat, d2)])%list);
      [apply derives_digits_group; now split | | reflexivity
      | unfold tail; rewrite <- !app_assoc; reflexivity].
    eapply (derives_cat_intro _ _ _ "." _ _ [] (tail ++ [(3%nat, d3); (2%nat, d2)])%list);
      [apply derives_lit | | reflexivity | now rewrite app_nil_r].
    eapply (derives_cat_intro _ _ _ d2 _ _ [(2%nat, d2)] (tail ++ [(3%nat, d3)])%list);
      [apply derives_digits_group; now split | | reflexivity
      | rewrite <- !app_assoc; reflexivity].
    eapply (derives_cat_intro _ _ _ "." _ _ [] (tail ++ [(3%nat, d3)])%list);
      [apply derives_lit | | reflexivity | now rewrite app_nil_r].
    eapply (derives_cat_intro _ _ _ d3 _ _ [(3%nat, d3)] tail);
      [apply derives_digits_group; now split | | reflexivity | reflexivity].
    eapply (derives_cat_intro _ _ _ (preceded_by "-" pre) (preceded_by "+" build) _
             (optional_capture 4 pre) (optional_capture 5 build));
      [ | | reflexivity | reflexivity].
    + apply (derives_optional "-" 4). now exists pre.
    + apply (derives_optional "+" 5). now exists build.
Qed.

Lemma optional_capture_submatch (n : nat) (x : string) (c : captures) (i : nat) :
  submatch (optional_capture n x ++ c)%list i
  = if Nat.eqb n i then (if String.eqb x "" then submatch c i else x) else submatch c i.
Proof.
  unfold optional_capture. destruct (String.eqb x ""); simpl.
  - now destruct (Nat.eqb n i).
  - reflexivity.
Qed.

(** What [FindStringSubmatch] reports for the pattern of
    [parseSemanticVersion]: the text and the five parts of its shape. *)
Lemma FindStringSubmatch_semverPattern (s : string) (matches : list string) :
  FindStringSubmatch semverPattern s = Some matches ->
  exists d1 d2 d3 pre build,
    semverShape s d1 d2 d3 pre build /\ matches = [s; d1; d2; d3; pre; build].
Proof.
  intros Hfind. apply FindStringSubmatch_derives in Hfind as (c & Hd & ->).
  apply derives_semverPattern in Hd as (d1 & d2 & d3 & pre & build & Hshape & ->).
  exists d1, d2, d3, pre, build. split; [exact Hshape|].
  change (NumSubexp semverPattern) with 5%nat. cbn [seq map].
  rewrite !optional_capture_submatch. cbn [Nat.eqb submatch].
  destruct (String.eqb_spec pre "") as [->|_], (String.eqb_spec build "") as [->|_];
    reflexivity.
Qed.

Lemma digits_value_ge (d : string) :
  forall acc n, Strconv.digits_value d acc = Some n -> 0 <= acc -> acc <= n.
Proof.
  induction d as [|a d IH]; intros acc n; simpl.
  - intros [= <-]. lia.
  - destruct (Strings.is_digit a) eqn:Ha; [|discriminate].
    unfold Strings.is_digit, Strings.byte_in in Ha.
    apply andb_true_iff in Ha as [Hlo _]. apply N.leb_le in Hlo.
    change (N_of_ascii "0") with 48%N in Hlo.
    intros Hv Hacc. apply IH in Hv; lia.
Qed.

Lemma digit_not_sign (a : ascii) :
  Strings.is_digit a = true -> a <> "+"%char /\ a <> "-"%char.
Proof. split; intros ->; discriminate. Qed.

(** [strconv.Atoi] on a run of digits: the value of the digits, unless it is
    beyond the range of [int]. *)
Lemma Atoi_digits (d : string) :
  run_of Strings.is_digit d ->
  Strconv.Atoi d
  = match Strconv.digits_value d 0 with
    | Some n => if n <=? Strconv.maxInt then Some n else None
    | None => None
    end.
Proof.
  intros [Hne Hall]. destruct d as [|a d]; [contradiction|].
  simpl in Hall. apply andb_true_iff in Hall as [Ha _].
  destruct (digit_not_sign a Ha) as [Hplus Hminus].
  unfold Strconv.Atoi.
  assert (match String a d with
          | String "+" t => (false, t)
          | String "-" t => (true, t)
          | _ => (false, String a d)
          end = (false, String a d)) as ->.
  { destruct a as [[] [] [] [] [] [] [] []]; try reflexivity; congruence. }
  destruct (Strconv.digits_value (String a d) 0) as [n|] eqn:Hv; [|reflexivity].
  apply digits_value_ge in Hv; [|lia].
  replace (Strconv.minInt <=? n) with true; [reflexivity|].
  symmetry. apply Z.leb_le. unfold Strconv.minInt, Strconv.intSize. simpl. lia.
Qed.

Lemma Atoi_digits_range (d : string) (n : Z) :
  run_of Strings.is_digit d -> Strconv.Atoi d = Some n -> 0 <= n <= Strconv.maxInt.
Proof.
  intros Hd. rewrite (Atoi_digits d Hd).
  destruct (Strconv.digits_value d 0) as [v|] eqn:Hv; [|discriminate].
  destruct (Z.leb_spec v Strconv.maxInt); [|discriminate].
  intros [= <-]. apply digits_value_ge in Hv; lia.
Qed.

Lemma run_stop_unique (p : ascii -> bool) (u : string) :
  forall u' x x',
    Strings.all_bytes p u = true -> Strings.all_bytes p u' = true ->
    stops p x -> stops p x' ->
    u ++ x = u' ++ x' -> u = u' /\ x = x'.
Proof.
  induction u as [|a u IH]; intros [|b u'] x x' Hu Hu' Hx Hx' Heq; simpl in *.
  - now split.
  - subst x. simpl in Hx. apply andb_true_iff in Hu' as [Hb _]. congruence.
  - subst x'. simpl in Hx'. apply andb_true_iff in Hu as [Ha _]. congruence.
  - injection Heq as -> Heq.
    apply andb_true_iff in Hu as [_ Hu]. apply andb_true_iff in Hu' as [_ Hu'].
    destruct (IH u' x x' Hu Hu' Hx Hx' Heq) as [-> ->]. now split.
Qed.

Lemma preceded_by_stops (p : ascii -> bool) (sep : ascii) (x rest : string) :
  p sep = false -> stops p rest -> stops p (preceded_by (String sep "") x ++ rest).
Proof.
  intros Hsep Hrest. unfold preceded_by. now destruct (String.eqb x "").
Qed.

Lemma preceded_by_inj (sep : ascii) (x y : string) :
  preceded_by (String sep "") x = preceded_by (String sep "") y -> x = y.
Proof.
  unfold preceded_by.
  destruct (String.eqb_spec x "") as [->|Hx], (String.eqb_spec y "") as [->|Hy];
    simpl; try discriminate; try reflexivity.
  now intros [= ->].
Qed.

Lemma optional_run_all (p : ascii -> bool) (x : string) :
  optional_run p x -> Strings.all_bytes p x = true.
Proof. intros [->|[_ Hall]]; [reflexivity | exact Hall]. Qed.

(** A text has the shape of a version in one way only. *)
Lemma semverShape_unique (s d1 d2 d3 pre build d1' d2' d3' pre' build' : string) :
  semverShape s d1 d2 d3 pre build ->
  semverShape s d1' d2' d3' pre' build' ->
  d1 = d1' /\ d2 = d2' /\ d3 = d3' /\ pre = pre' /\ build = build'.
Proof.
  intros (-> & [_ H1] & [_ H2] & [_ H3] & Hpre & Hbuild)
         (Heq & [_ H1'] & [_ H2'] & [_ H3'] & Hpre' & Hbuild').
  apply (run_stop_unique Strings.is_digit) in Heq as [<- Heq];
    try assumption; try reflexivity.
  injection Heq as Heq.
  apply (run_stop_unique Strings.is_digit) in Heq as [<- Heq];
    try assumption; try reflexivity.
  injection Heq as Heq.
  apply (run_stop_unique Strings.is_digit) in Heq as [<- Heq];
    try assumption;
    try (apply preceded_by_stops; [reflexivity|];
         rewrite <- (string_app_nil_r (preceded_by "+" _));
         apply preceded_by_stops; [reflexivity | exact I]).
  repeat (split; [reflexivity|]).
  assert (pre = pre' /\ preceded_by "+" build = preceded_by "+" build') as [-> Hb].
  { unfold preceded_by at 1 3 in Heq.
    destruct (String.eqb_spec pre "") as [->|Hne], (String.eqb_spec pre' "") as [->|Hne'];
      simpl in Heq.
    - now split.
    - exfalso. unfold preceded_by in Heq.
      destruct (String.eqb build ""); discriminate.
    - exfalso. unfold preceded_by in Heq.
      destruct (String.eqb build' ""); discriminate.
    - injection Heq as Heq.
      apply (run_stop_unique ident_byte) in Heq as [-> Heq];
        try (now apply optional_run_all);
        try (rewrite <- (string_app_nil_r (preceded_by "+" _));
             apply preceded_by_stops; [reflexivity | exact I]).
      now split. }
  split; [reflexivity|]. now apply (preceded_by_inj "+").
Qed.

Lemma semverShape_no_v (s d1 d2 d3 pre build : string) :
  semverShape s d1 d2 d3 pre build -> Strings.TrimPrefix s "v" = s.
Proof.
  intros (-> & [Hne Hall] & _). destruct d1 as [|a d1]; [contradiction|].
  simpl in Hall. apply andb_true_iff in Hall as [Ha _].
  unfold Strings.TrimPrefix. simpl.
  destruct (Ascii.eqb_spec a "v") as [->|_]; [discriminate | reflexivity].
Qed.

Lemma semverShape_matches (s d1 d2 d3 pre build : string) :
  semverShape s d1 d2 d3 pre build ->
  FindStringSubmatch semverPattern s = Some [s; d1; d2; d3; pre; build].
Proof.
  intros Hshape.
  assert (MatchString semverPattern s = true) as Hmatch.
  { apply MatchString_derives. eexists. apply derives_semverPattern.
    exists d1, d2, d3, pre, build. split; [exact Hshape | reflexivity]. }
  unfold MatchString in Hmatch.
  destruct (FindStringSubmatch semverPattern s) as [matches|] eqn:Hfind; [|discriminate].
  apply FindStringSubmatch_semverPattern in Hfind
    as (d1' & d2' & d3' & pre' & build' & Hshape' & ->).
  destruct (semverShape_unique _ _ _ _ _ _ _ _ _ _ _ Hshape Hshape')
    as (-> & -> & -> & -> & ->).
  reflexivity.
Qed.

(** The texts of the pattern of [isStableSemanticVersion] are the texts of
    the shape that have no pre-release. *)
Lemma derives_stablePattern (s : string) (c : captures) :
  derives stablePattern s c
  <-> exists d1 d2 d3 build,
        semverShape s d1 d2 d3 "" build
        /\ c = (optional_capture 4 build
                ++ [(3%nat, d3); (2%nat, d2); (1%nat, d1)])%list.
Proof.
  unfold stablePattern, semverShape. cbn [Seq]. split.
  - intros Hd.
    apply derives_cat_inv in Hd as (d1 & v1 & c1 & k1 & -> & -> & H1 & Hd).
    apply derives_digits_group in H1 as [Hd1 ->].
    apply derives_cat_inv in Hd as (dot1 & v2 & cdot1 & k2 & -> & -> & Hdot1 & Hd).
    apply derives_lit_inv in Hdot1 as [-> ->].
    apply derives_cat_inv in Hd as (d2 & v3 & c2 & k3 & -> & -> & H2 & Hd).
    apply derives_digits_group in H2 as [Hd2 ->].
    apply derives_cat_inv in Hd as (dot2 & v4 & cdot2 & k4 & -> & -> & Hdot2 & Hd).
    apply derives_lit_inv in Hdot2 as [-> ->].
    apply derives_cat_inv in Hd as (d3 & ubuild & c3 & cbuild & -> & -> & H3 & Hbuild).
    apply derives_digits_group in H3 as [Hd3 ->].
    apply (derives_optional "+" 4) in Hbuild as (build & Hbuild & -> & ->).
    exists d1, d2, d3, build. split.
    + repeat split; try assumption; try apply Hd1; try apply Hd2; try apply Hd3.
      now left.
    + simpl. rewrite ?app_nil_r, <- ?app_assoc. reflexivity.
  - intros (d1 & d2 & d3 & build & (-> & Hd1 & Hd2 & Hd3 & _ & Hbuild) & ->).
    set (tail := optional_capture 4 build).
    eapply (derives_cat_intro _ _ _ d1 _ _ [(1%nat, d1)]
             (tail ++ [(3%nat, d3); (2%nat, d2)])%list);
      [apply derives_digits_group; now split | | reflexivity
      | unfold tail; rewrite <- !app_assoc; reflexivity].
    eapply (derives_cat_intro _ _ _ "." _ _ [] (tail ++ [(3%nat, d3); (2%nat, d2)])%list);
      [apply derives_lit | | reflexivity | now rewrite app_nil_r].
    eapply (derives_cat_intro _ _ _ d2 _ _ [(2%nat, d2)] (tail ++ [(3%nat, d3)])%list);
      [apply derives_digits_group; now split | | reflexivity
      | rewrite <- !app_assoc; reflexivity].
    eapply (derives_cat_intro _ _ _ "." _ _ [] (tail ++ [(3%nat, d3)])%list);
      [apply derives_lit | | reflexivity | now rewrite app_nil_r].
    eapply (derives_cat_intro _ _ _ d3 _ _ [(3%nat, d3)] tail);
      [apply derives_digits_group; now split | | reflexivity | reflexivity].
    apply (derives_optional "+" 4). now exists build.
Qed.

Lemma MatchString_semverPattern (s : string) :
  MatchString semverPattern s = true
  <-> exists d1 d2 d3 pre build, semverShape s d1 d2 d3 pre build.
Proof.
  rewrite MatchString_derives. split.
  - intros [c Hd]. apply derives_semverPattern in Hd
      as (d1 & d2 & d3 & pre & build & Hshape & _). eauto 6.
  - intros (d1 & d2 & d3 & pre & build & Hshape).
    eexists. apply derives_semverPattern. eauto 7.
Qed.

Lemma MatchString_stablePattern (s : string) :
  MatchString stablePattern s = true
  <-> exists d1 d2 d3 build, semverShape s d1 d2 d3 "" build.
Proof.
  rewrite MatchString_derives. split.
  - intros [c Hd]. apply derives_stablePattern in Hd
      as (d1 & d2 & d3 & build & Hshape & _). eauto 6.
  - intros (d1 & d2 & d3 & build & Hshape).
    eexists. apply derives_stablePattern. eauto 7.
Qed.

(** What [strings.TrimPrefix] does with the prefix [v]. *)
Lemma TrimPrefix_v (tag : string) :
  tag = "v" ++ Strings.TrimPrefix tag "v"
  \/ (tag = Strings.TrimPrefix tag "v" /\ Strings.HasPrefix tag "v" = false).
Proof.
  unfold Strings.TrimPrefix. destruct tag as [|a tag]; [now right|].
  cbn [Strings.HasPrefix String.length Strings.drop].
  assert (Strings.HasPrefix tag "" = true) as -> by now destruct tag.
  destruct (Ascii.eqb_spec a "v") as [->|Hne]; cbn [andb]; [now left | now right].
Qed.

(** The pattern of [filterSemanticVersionTags] allows one [v] in front of
    what the pattern of [parseSemanticVersion] allows, and the parser takes
    one [v] off: both accept the same tags. *)
Lemma MatchString_semverTagPattern (tag : string) :
  MatchString semverTagPattern tag
  = MatchString semverPattern (Strings.TrimPrefix tag "v").
Proof.
  apply eq_true_iff_eq. rewrite !MatchString_derives.
  change semverTagPattern with (Cat (Quest (Lit "v")) semverPattern).
  split.
  - intros [c Hd].
    apply derives_cat_inv in Hd as (u1 & u2 & c1 & c2 & -> & -> & Hv & Hd).
    assert (Strings.TrimPrefix u2 "v" = u2) as Hu2.
    { apply derives_semverPattern in Hd as (d1 & d2 & d3 & pre & build & Hshape & _).
      now apply semverShape_no_v in Hshape. }
    apply derives_quest_inv in Hv as [[-> ->]|Hv].
    + simpl. rewrite Hu2. eauto.
    + apply derives_lit_inv in Hv as [-> ->].
      destruct (TrimPrefix_v ("v" ++ u2)) as [Htag|[_ Htag]]; [|now destruct u2].
      change ("v" ++ u2) with (String "v" u2) in *.
      injection Htag as <-. eauto.
  - intros [c Hd]. destruct (TrimPrefix_v tag) as [Htag|[Htag _]].
    + exists (c ++ [])%list. rewrite Htag at 1.
      apply d_cat; [apply d_quest_take, derives_lit | exact Hd].
    + exists (c ++ [])%list. rewrite Htag at 1.
      apply (derives_cat_intro _ _ _ "" (Strings.TrimPrefix tag "v") _ [] c);
        [apply d_quest_skip | exact Hd | reflexivity | reflexivity].
Qed.

End GrammarProps.


(** ** The parser of versions and the two filters, against the grammar *)

Module ParserProps.
Import Regexp RegexpSem RegexpSemProps Grammar GrammarProps Registry VersionNotions.

Lemma parseSemanticVersion_shape (tag : string) (v : SemanticVersion) :
  parseSemanticVersion tag = Some v ->
  exists d1 d2 d3,
    semverShape (Strings.TrimPrefix tag "v") d1 d2 d3 (PreRelease v) (Build v)
    /\ Strconv.Atoi d1 = Some (Major v)
    /\ Strconv.Atoi d2 = Some (Minor v)
    /\ Strconv.Atoi d3 = Some (Patch v).
Proof.
  unfold parseSemanticVersion.
  destruct (FindStringSubmatch semverPattern _) as [m|] eqn:Hfind; [|discriminate].
  apply FindStringSubmatch_semverPattern in Hfind
    as (d1 & d2 & d3 & pre & build & Hshape & ->).
  cbn [List.length Nat.ltb Nat.leb nth].
  destruct (Strconv.Atoi d1) as [major|] eqn:H1; [|discriminate].
  destruct (Strconv.Atoi d2) as [minor|] eqn:H2; [|discriminate].
  destruct (Strconv.Atoi d3) as [patch|] eqn:H3; [|discriminate].
  intros [= <-]. exists d1, d2, d3. cbn. auto.
Qed.

Lemma parseSemanticVersion_of_shape (tag d1 d2 d3 pre build : string) (major minor patch : Z) :
  semverShape (Strings.TrimPrefix tag "v") d1 d2 d3 pre build ->
  Strconv.Atoi d1 = Some major ->
  Strconv.Atoi d2 = Some minor ->
  Strconv.Atoi d3 = Some patch ->
  parseSemanticVersion tag
  = Some {| Major := major; Minor := minor; Patch := patch;
            PreRelease := pre; Build := build |}.
Proof.
  intros Hshape H1 H2 H3. unfold parseSemanticVersion.
  rewrite (semverShape_matches _ _ _ _ _ _ Hshape).
  cbn [List.length Nat.ltb Nat.leb nth]. now rewrite H1, H2, H3.
Qed.

(** X17.  [parseSemanticVersion] succeeds exactly on the tags that, after
    one leading [v] is taken off, have the shape
    [MAJOR.MINOR.PATCH(-PRERELEASE)?(+BUILD)?] with three numbers that
    [strconv.Atoi] accepts; the fields of the result are the values of the
    numbers and the texts of the two optional parts, empty when absent. *)
Theorem parseSemanticVersion_grammar (tag : string) (v : SemanticVersion) :
  parseSemanticVersion tag = Some v
  <-> exists d1 d2 d3,
        semverShape (Strings.TrimPrefix tag "v") d1 d2 d3 (PreRelease v) (Build v)
        /\ Strconv.Atoi d1 = Some (Major v)
        /\ Strconv.Atoi d2 = Some (Minor v)
        /\ Strconv.Atoi d3 = Some (Patch v).
Proof.
  split; [apply parseSemanticVersion_shape|].
  intros (d1 & d2 & d3 & Hshape & H1 & H2 & H3).
  rewrite (parseSemanticVersion_of_shape _ _ _ _ _ _ _ _ _ Hshape H1 H2 H3).
  now destruct v.
Qed.

(** X18.  The numbers of a parsed version are never negative and never
    beyond the range of [int]: the pattern lets no sign through to
    [strconv.Atoi]. *)
Theorem parseSemanticVersion_range (tag : string) (v : SemanticVersion) :
  parseSemanticVersion tag = Some v ->
  0 <= Major v <= Strconv.maxInt
  /\ 0 <= Minor v <= Strconv.maxInt
  /\ 0 <= Patch v <= Strconv.maxInt.
Proof.
  intros Hparse.
  apply parseSemanticVersion_shape in Hparse
    as (d1 & d2 & d3 & (_ & Hd1 & Hd2 & Hd3 & _) & H1 & H2 & H3).
  pose proof (Atoi_digits_range d1 _ Hd1 H1).
  pose proof (Atoi_digits_range d2 _ Hd2 H2).
  pose proof (Atoi_digits_range d3 _ Hd3 H3).
  tauto.
Qed.

Lemma parseSemanticVersion_range_witness :
  0 <= 1 <= Strconv.maxInt /\ 0 <= 21 <= Strconv.maxInt /\ 0 <= 3 <= Strconv.maxInt.
Proof.
  exact (parseSemanticVersion_range "v1.21.3-rc.1+b5"
           {| Major := 1; Minor := 21; Patch := 3; PreRelease := "rc.1"; Build := "b5" |}
           eq_refl).
Defined.

Lemma digits_value_total (d : string) :
  Strings.all_bytes Strings.is_digit d = true ->
  forall acc, exists n, Strconv.digits_value d acc = Some n.
Proof.
  induction d as [|a d IH]; intros Hall acc; simpl in *; [eauto|].
  apply andb_true_iff in Hall as [Ha Hall]. rewrite Ha. now apply IH.
Qed.

(** On a run of digits, [strconv.Atoi] fails for numbers beyond the range of
    [int] and for nothing else. *)
Lemma Atoi_digits_None (d : string) :
  run_of Strings.is_digit d -> (Strconv.Atoi d = None <-> beyondInt d).
Proof.
  intros Hd. rewrite (Atoi_digits d Hd). unfold beyondInt.
  destruct (digits_value_total d (proj2 Hd) 0) as [n ->].
  destruct (Z.leb_spec n Strconv.maxInt) as [Hle|Hlt]; split.
  - discriminate.
  - intros (m & [= <-] & Hm). lia.
  - intros _. eauto.
  - reflexivity.
Qed.

Lemma Atoi_digits_cases (d : string) :
  run_of Strings.is_digit d -> (exists n, Strconv.Atoi d = Some n) \/ beyondInt d.
Proof.
  intros Hd. destruct (Strconv.Atoi d) as [n|] eqn:Hn; [eauto|].
  right. now apply Atoi_digits_None.
Qed.

(** A tag either parses, or it overflows, or it has not the shape. *)
Lemma parses_or_overflowing (tag : string) :
  MatchString semverTagPattern tag = true <-> parses tag \/ overflowing tag.
Proof.
  rewrite MatchString_semverTagPattern, MatchString_semverPattern. split.
  - intros (d1 & d2 & d3 & pre & build & Hshape).
    pose proof Hshape as (_ & Hd1 & Hd2 & Hd3 & _).
    destruct (Atoi_digits_cases d1 Hd1) as [[major H1]|H1];
      [|right; exists d1, d2, d3, pre, build; auto].
    destruct (Atoi_digits_cases d2 Hd2) as [[minor H2]|H2];
      [|right; exists d1, d2, d3, pre, build; auto].
    destruct (Atoi_digits_cases d3 Hd3) as [[patch H3]|H3];
      [|right; exists d1, d2, d3, pre, build; auto].
    left. eexists. eapply parseSemanticVersion_of_shape; eauto.
  - intros [[v Hparse]|(d1 & d2 & d3 & pre & build & Hshape & _)].
    + apply parseSemanticVersion_shape in Hparse as (d1 & d2 & d3 & Hshape & _).
      eauto 6.
    + eauto 6.
Qed.

Lemma filterSemanticVersionTags_grammar_aux (tags : list string) (tag : string) :
  In tag (filterSemanticVersionTags tags) ->
  In tag tags /\ (parses tag \/ overflowing tag).
Proof.
  unfold filterSemanticVersionTags.
  rewrite filter_In, parses_or_overflowing. tauto.
Qed.

(** X19.  [filterSemanticVersionTags] keeps the tags that
    [parseSemanticVersion] parses and, besides them, only tags of the same
    shape with a number beyond the range of [int], which the pattern accepts
    and [strconv.Atoi] rejects. *)
Theorem filterSemanticVersionTags_grammar (tags : list string) (tag : string) :
  In tag (filterSemanticVersionTags tags)
  <-> In tag tags /\ (parses tag \/ overflowing tag).
Proof.
  unfold filterSemanticVersionTags.
  rewrite filter_In, parses_or_overflowing. reflexivity.
Qed.

(** A tag that overflows does not parse. *)
Lemma overflowing_not_parses (tag : string) : overflowing tag -> ~ parses tag.
Proof.
  intros (d1 & d2 & d3 & pre & build & Hshape & Hover) [v Hparse].
  apply parseSemanticVersion_shape in Hparse
    as (e1 & e2 & e3 & Hshape' & H1 & H2 & H3).
  destruct (semverShape_unique _ _ _ _ _ _ _ _ _ _ _ Hshape Hshape')
    as (<- & <- & <- & _).
  pose proof Hshape as (_ & Hd1 & Hd2 & Hd3 & _).
  destruct Hover as [Ho|[Ho|Ho]];
    apply Atoi_digits_None in Ho; try assumption; congruence.
Qed.

(** X20.  On a tag that parses, [isStableSemanticVersion] answers whether
    the pre-release of the parsed version is empty; on a tag that does not
    parse it can only answer true when the tag overflows. *)
Theorem isStableSemanticVersion_parsed (tag : string) :
  (forall v, parseSemanticVersion tag = Some v ->
     isStableSemanticVersion tag = String.eqb (PreRelease v) "")
  /\ (parseSemanticVersion tag = None ->
      isStableSemanticVersion tag = true -> overflowing tag).
Proof.
  unfold isStableSemanticVersion. split.
  - intros v Hparse.
    apply parseSemanticVersion_shape in Hparse as (d1 & d2 & d3 & Hshape & _).
    apply eq_true_iff_eq. rewrite MatchString_stablePattern, String.eqb_eq. split.
    + intros (e1 & e2 & e3 & build & Hshape').
      destruct (semverShape_unique _ _ _ _ _ _ _ _ _ _ _ Hshape Hshape')
        as (_ & _ & _ & Hpre & _).
      exact Hpre.
    + intros Hpre. rewrite Hpre in Hshape. eauto 6.
  - intros Hparse Hstable.
    apply MatchString_stablePattern in Hstable as (d1 & d2 & d3 & build & Hshape).
    assert (MatchString semverTagPattern tag = true) as Hsemver.
    { rewrite MatchString_semverTagPattern. apply MatchString_semverPattern. eauto 7. }
    apply parses_or_overflowing in Hsemver as [[v Hv]|Hover]; [congruence | exact Hover].
Qed.

(** A stable tag is a tag of [filterSemanticVersionTags]. *)
Lemma stable_is_semver (tag : string) :
  isStableSemanticVersion tag = true -> MatchString semverTagPattern tag = true.
Proof.
  unfold isStableSemanticVersion. intros Hstable.
  apply MatchString_stablePattern in Hstable as (d1 & d2 & d3 & build & Hshape).
  rewrite MatchString_semverTagPattern. apply MatchString_semverPattern. eauto 7.
Qed.

Lemma filter_absorbs {A} (f g : A -> bool) (l : list A) :
  (forall x, f x = true -> g x = true) ->
  List.filter f (List.filter g l) = List.filter f l.
Proof.
  intros Hfg. induction l as [|x l IH]; [reflexivity|]. simpl.
  destruct (g x) eqn:Hg; simpl; rewrite IH; [reflexivity|].
  destruct (f x) eqn:Hf; [|reflexivity].
  apply Hfg in Hf. congruence.
Qed.

Section WithUnicodeCase.
Context `{Strings.UnicodeCase}.

Lemma filterUnwantedVersions_kept (c : Client) (tags : list string) (tag : string) :
  In tag (filterUnwantedVersions c tags) ->
  (forall pattern, In pattern (excludePatternsOf (versionFilters c)) ->
     Strings.Contains (Strings.ToLower tag) (Strings.ToLower pattern) = false)
  /\ (OnlyStable (versionFilters c) = true -> isStableSemanticVersion tag = true).
Proof.
  unfold filterUnwantedVersions. intros Hin. apply filter_In in Hin as [_ Hkeep].
  destruct (existsb _ _) eqn:Hex.
  - simpl in Hkeep. discriminate.
  - split.
    + intros pattern Hp.
      destruct (Strings.Contains _ _) eqn:Hc; [|reflexivity].
      assert (existsb
                (fun pattern => Strings.Contains (Strings.ToLower tag)
                                  (Strings.ToLower pattern))
                (excludePatternsOf (versionFilters c)) = true) as Hex'
        by (apply existsb_exists; eauto).
      congruence.
    + intros Hstable. rewrite Hstable in Hkeep. simpl in Hkeep.
      now destruct (isStableSemanticVersion tag).
Qed.

(** X21.  When the filters leave some tag and the current tag is not
    [latest], the tag that [findLatestTag] answers went through both
    filters: it is one of the tags given, it parses or overflows, it
    contains none of the exclude patterns (case ignored), and with
    [OnlyStable] it is a stable version.  A tag that the filters refuse is
    only ever answered by the fallback. *)
Theorem findLatestTag_respects_filters (c : Client) (tags : list string)
    (currentTag latest : string) :
  currentTag <> "latest" ->
  filterUnwantedVersions c (filterSemanticVersionTags tags) <> [] ->
  findLatestTag c tags currentTag = Ok latest ->
  In latest tags
  /\ (parses latest \/ overflowing latest)
  /\ (forall pattern, In pattern (excludePatternsOf (versionFilters c)) ->
        Strings.Contains (Strings.ToLower latest) (Strings.ToLower pattern) = false)
  /\ (OnlyStable (versionFilters c) = true -> isStableSemanticVersion latest = true).
Proof.
  intros Hcur Hsome. unfold findLatestTag.
  destruct tags as [|first rest]; [discriminate|].
  rewrite (proj2 (String.eqb_neq currentTag "latest") Hcur).
  destruct (filterUnwantedVersions c (filterSemanticVersionTags (first :: rest)))
    as [|kept others] eqn:Hkept; [contradiction|].
  intros [= <-].
  assert (In (findHighestSemanticVersion (kept :: others))
             (filterUnwantedVersions c (filterSemanticVersionTags (first :: rest))))
    as Hin.
  { rewrite Hkept. unfold findHighestSemanticVersion.
    apply VersionOrder.scan_member. }
  pose proof (filterUnwantedVersions_kept _ _ _ Hin) as [Hpat Hstable].
  apply ResolutionProps.filterUnwantedVersions_In in Hin.
  apply filterSemanticVersionTags_grammar_aux in Hin as [Hmem Hshape].
  auto.
Qed.

(** X22.  With [OnlyStable] set, the first of the two filters of
    [findLatestTag] is redundant: the stable tags are among the semantic
    versions, so [filterUnwantedVersions] gives the same list with or
    without [filterSemanticVersionTags] in front. *)
Theorem filterUnwantedVersions_OnlyStable (c : Client) (tags : list string) :
  OnlyStable (versionFilters c) = true ->
  filterUnwantedVersions c (filterSemanticVersionTags tags)
  = filterUnwantedVersions c tags.
Proof.
  intros Hstable. unfold filterUnwantedVersions, filterSemanticVersionTags.
  apply filter_absorbs. intros tag Hkeep. rewrite Hstable in Hkeep.
  apply stable_is_semver.
  destruct (existsb _ _); [discriminate|]. simpl in Hkeep.
  now destruct (isStableSemanticVersion tag).
Qed.

End WithUnicodeCase.

Lemma findLatestTag_respects_filters_witness :
  In "1.21.1" ["1.21.0"; "1.21.1"; "1.22.0-rc1"; "latest"]
  /\ isStableSemanticVersion "1.21.1" = true.
Proof.
  assert ("1.21.0" <> "latest") as Hcur by discriminate.
  assert (@filterUnwantedVersions Strings.asciiOnly (NewClient 100 10)
            (filterSemanticVersionTags ["1.21.0"; "1.21.1"; "1.22.0-rc1"; "latest"])
          <> []) as Hsome by (vm_compute; discriminate).
  assert (@findLatestTag Strings.asciiOnly (NewClient 100 10)
            ["1.21.0"; "1.21.1"; "1.22.0-rc1"; "latest"] "1.21.0" = Ok "1.21.1")
    as Hfind by (vm_compute; reflexivity).
  destruct (@findLatestTag_respects_filters Strings.asciiOnly _ _ _ _ Hcur Hsome Hfind)
    as (Hin & _ & _ & Hstable).
  split; [exact Hin | exact (Hstable eq_refl)].
Defined.

Lemma filterUnwantedVersions_OnlyStable_witness :
  @filterUnwantedVersions Strings.asciiOnly (NewClient 100 10)
    (filterSemanticVersionTags ["latest"; "1.21.0"; "1.22.0-rc1"; "stable"])
  = @filterUnwantedVersions Strings.asciiOnly (NewClient 100 10)
      ["latest"; "1.21.0"; "1.22.0-rc1"; "stable"].
Proof.
  exact (@filterUnwantedVersions_OnlyStable Strings.asciiOnly (NewClient 100 10)
           ["latest"; "1.21.0"; "1.22.0-rc1"; "stable"] eq_refl).
Defined.

End ParserProps.


(** ** The pattern of [ParseImageReference], against the shape of a reference *)

Module ReferenceProps.
Import Regexp RegexpSem RegexpProps RegexpSemProps Grammar GrammarProps.
Import Docker ReferenceNotions.

Lemma referencePattern_split :
  referencePattern = Cat (Quest registryPart) afterRegistry.
Proof. reflexivity. Qed.

Lemma digit_not_slash (a : ascii) : Strings.is_digit a = true -> not_slash a = true.
Proof.
  intros Ha. unfold not_slash.
  destruct (Ascii.eqb_spec a "/") as [->|_]; [discriminate | reflexivity].
Qed.

Lemma all_bytes_weaken (p q : ascii -> bool) (u : string) :
  (forall a, p a = true -> q a = true) ->
  Strings.all_bytes p u = true -> Strings.all_bytes q u = true.
Proof.
  intros Hpq. induction u as [|a u IH]; simpl; [reflexivity|].
  intros Hall. apply andb_true_iff in Hall as [Ha Hall].
  now rewrite (Hpq a Ha), IH.
Qed.

(** The dotted continuations of a registry host have no slash and no
    submatch. *)
Lemma derives_dotted (u : string) (c : captures) :
  derives (Star (Seq [Lit "."; Plus (Class not_slash)])) u c ->
  c = [] /\ Strings.all_bytes not_slash u = true.
Proof.
  remember (Star (Seq [Lit "."; Plus (Class not_slash)])) as r eqn:Hr. intros Hd.
  induction Hd as [| | | | | r0 | r0 u1 u2 c1 c2 Hne Hd1 _ Hd2 IH2 |];
    try discriminate.
  - split; reflexivity.
  - injection Hr as ->. destruct (IH2 eq_refl) as [-> Hall].
    cbn [Seq] in Hd1.
    apply derives_cat_inv in Hd1 as (v1 & v2 & k1 & k2 & -> & -> & Hdot & Hrun).
    apply derives_lit_inv in Hdot as [-> ->].
    apply derives_plus_class in Hrun as [-> [_ Hv2]].
    split; [reflexivity|].
    rewrite !all_bytes_app, Hv2, Hall. reflexivity.
Qed.

(** The registry of the pattern is any non-empty text without a slash: the
    dots and the port that the pattern spells out are such texts already. *)
Lemma derives_registryBody (u : string) (c : captures) :
  derives registryBody u c <-> c = [] /\ run_of not_slash u.
Proof.
  unfold registryBody. cbn [Seq]. split.
  - intros Hd.
    apply derives_cat_inv in Hd as (u1 & v1 & c1 & k1 & -> & -> & H1 & Hd).
    apply derives_plus_class in H1 as [-> [Hne H1]].
    apply derives_cat_inv in Hd as (u2 & u3 & c2 & c3 & -> & -> & H2 & H3).
    apply derives_dotted in H2 as [-> H2].
    assert (c3 = [] /\ Strings.all_bytes not_slash u3 = true) as [-> H3'].
    { apply derives_quest_inv in H3 as [[-> ->]|H3]; [now split|].
      apply derives_cat_inv in H3 as (w1 & w2 & j1 & j2 & -> & -> & Hcolon & Hport).
      apply derives_lit_inv in Hcolon as [-> ->].
      apply derives_plus_class in Hport as [-> [_ Hport]].
      split; [reflexivity|]. simpl.
      apply (all_bytes_weaken Strings.is_digit); [apply digit_not_slash | exact Hport]. }
    split; [reflexivity|]. split.
    + destruct u1; [contradiction | discriminate].
    + now rewrite !all_bytes_app, H1, H2, H3'.
  - intros [-> Hrun].
    apply (derives_cat_intro _ _ _ u "" _ [] []);
      [now apply derives_plus_class | | now rewrite string_app_nil_r | reflexivity].
    apply (derives_cat_intro _ _ _ "" "" _ [] []); [constructor | constructor | reflexivity..].
Qed.

Lemma derives_registryPart (u : string) (c : captures) :
  derives registryPart u c
  <-> exists reg, run_of not_slash reg /\ u = reg ++ "/" /\ c = [(1%nat, reg)].
Proof.
  unfold registryPart. cbn [Seq]. split.
  - intros Hd.
    apply derives_cat_inv in Hd as (reg & v & c1 & c2 & -> & -> & Hreg & Hslash).
    apply derives_group_inv in Hreg as (c' & -> & Hreg).
    apply derives_registryBody in Hreg as [-> Hrun].
    apply derives_lit_inv in Hslash as [-> ->].
    exists reg. split; [exact Hrun|]. split; reflexivity.
  - intros (reg & Hrun & -> & ->).
    apply (derives_cat_intro _ _ _ reg "/" _ [(1%nat, reg)] []);
      [| apply derives_lit | reflexivity | reflexivity].
    constructor. now apply derives_registryBody.
Qed.

(** An optional part that is closed by the byte [sep] and captured as group
    [n]. *)
Lemma derives_optional_before (sep : ascii) (n : nat) (p : ascii -> bool)
    (u : string) (c : captures) :
  derives (Quest (Seq [Group n (Plus (Class p)); Lit sep])) u c
  <-> exists x,
        optional_run p x
        /\ u = followed_by x (String sep "")
        /\ c = optional_capture n x.
Proof.
  split.
  - intros Hd. apply derives_quest_inv in Hd as [[-> ->]|Hd].
    + exists "". split; [now left|]. split; reflexivity.
    + cbn [Seq] in Hd.
      apply derives_cat_inv in Hd as (u1 & u2 & c1 & c2 & -> & -> & H1 & H2).
      apply derives_lit_inv in H2 as [-> ->].
      apply derives_group_inv in H1 as (c' & -> & H1).
      apply derives_plus_class in H1 as [-> Hrun].
      exists u1. split; [now right|].
      unfold followed_by, optional_capture.
      destruct Hrun as [Hne _]. rewrite (proj2 (String.eqb_neq u1 "") Hne).
      split; reflexivity.
  - intros (x & Hx & -> & ->). unfold followed_by, optional_capture.
    destruct (String.eqb_spec x "") as [->|Hne]; [constructor|].
    destruct Hx as [?|Hrun]; [contradiction|].
    apply d_quest_take. cbn [Seq].
    apply (derives_cat_intro _ _ _ x (String sep "") _ [(n, x)] []);
      [| apply derives_lit | reflexivity | reflexivity].
    constructor. now apply derives_plus_class.
Qed.

Lemma derives_afterNamespace (u : string) (c : captures) :
  derives afterNamespace u c
  <-> exists name tag digest,
        referenceShape u "" "" name tag digest
        /\ c = (optional_capture 5 digest ++ optional_capture 4 tag
                ++ [(3%nat, name)])%list.
Proof.
  unfold afterNamespace, referenceShape. cbn [Seq]. split.
  - intros Hd.
    apply derives_cat_inv in Hd as (name & v2 & cname & k2 & -> & -> & Hname & Hd).
    apply derives_group_inv in Hname as (c' & -> & Hname).
    apply derives_plus_class in Hname as [-> Hname].
    apply derives_cat_inv in Hd as (utag & udigest & ctag & cdigest & -> & -> & Htag & Hdigest).
    apply (derives_optional ":" 4) in Htag as (tag & Htag & -> & ->).
    apply (derives_optional "@" 5) in Hdigest as (digest & Hdigest & -> & ->).
    exists name, tag, digest. split.
    + repeat split; try assumption; try apply Hname; now left.
    + rewrite <- !app_assoc. reflexivity.
  - intros (name & tag & digest & (-> & _ & _ & Hname & Htag & Hdigest) & ->).
    change (followed_by "" "/" ++ followed_by "" "/" ++ name
            ++ preceded_by ":" tag ++ preceded_by "@" digest)
      with (name ++ preceded_by ":" tag ++ preceded_by "@" digest).
    eapply (derives_cat_intro _ _ _ name _ _ [(3%nat, name)]
              (optional_capture 5 digest ++ optional_capture 4 tag)%list);
      [constructor; now apply derives_plus_class | | reflexivity
      | rewrite <- !app_assoc; reflexivity].
    eapply (derives_cat_intro _ _ _ (preceded_by ":" tag) (preceded_by "@" digest) _
              (optional_capture 4 tag) (optional_capture 5 digest));
      [ | | reflexivity | reflexivity].
    + apply (derives_optional ":" 4). now exists tag.
    + apply (derives_optional "@" 5). now exists digest.
Qed.

Lemma derives_namespacePart (u : string) (c : captures) :
  derives namespacePart u c
  <-> exists ns, run_of not_slash ns /\ u = ns ++ "/" /\ c = [(2%nat, ns)].
Proof.
  unfold namespacePart. cbn [Seq]. split.
  - intros Hd.
    apply derives_cat_inv in Hd as (ns & v & c1 & c2 & -> & -> & Hns & Hslash).
    apply derives_group_inv in Hns as (c' & -> & Hns).
    apply derives_plus_class in Hns as [-> Hrun].
    apply derives_lit_inv in Hslash as [-> ->].
    exists ns. split; [exact Hrun|]. split; reflexivity.
  - intros (ns & Hrun & -> & ->).
    apply (derives_cat_intro _ _ _ ns "/" _ [(2%nat, ns)] []);
      [| apply derives_lit | reflexivity | reflexivity].
    constructor. now apply derives_plus_class.
Qed.

(** The shape, one part at a time. *)
Lemma referenceShape_registry (s reg ns name tag digest : string) :
  reg <> "" ->
  (referenceShape s reg ns name tag digest
   <-> exists rest,
         s = reg ++ "/" ++ rest /\ run_of not_slash reg
         /\ referenceShape rest "" ns name tag digest).
Proof.
  intros Hne. unfold referenceShape, followed_by.
  rewrite (proj2 (String.eqb_neq reg "") Hne). cbn [String.eqb].
  change ("" ++ ?x) with x. split.
  - intros (-> & [?|Hreg] & Hns & Hname & Htag & Hdigest); [contradiction|].
    eexists. split; [apply string_app_assoc|].
    split; [exact Hreg|]. repeat split; try assumption; try apply Hname. now left.
  - intros (rest & -> & Hreg & -> & _ & Hns & Hname & Htag & Hdigest).
    split; [symmetry; apply string_app_assoc|].
    repeat split; try assumption; try apply Hname. now right.
Qed.

Lemma referenceShape_namespace (s ns name tag digest : string) :
  ns <> "" ->
  (referenceShape s "" ns name tag digest
   <-> exists rest,
         s = ns ++ "/" ++ rest /\ run_of not_slash ns
         /\ referenceShape rest "" "" name tag digest).
Proof.
  intros Hne. unfold referenceShape, followed_by.
  rewrite (proj2 (String.eqb_neq ns "") Hne). cbn [String.eqb].
  change ("" ++ ?x) with x. split.
  - intros (-> & _ & [?|Hns] & Hname & Htag & Hdigest); [contradiction|].
    eexists. split; [apply string_app_assoc|].
    split; [exact Hns|]. repeat split; try assumption; try apply Hname; now left.
  - intros (rest & -> & Hns & -> & _ & _ & Hname & Htag & Hdigest).
    split; [symmetry; apply string_app_assoc|].
    repeat split; try assumption; try apply Hname; [now left | now right].
Qed.

(** *** What the matcher prefers *)

Lemma run_at_end_sound (r : regex) (s : string) (c m : captures) :
  run r s c at_end = Some m -> exists c', derives r s c' /\ m = (c' ++ c)%list.
Proof.
  intros Hrun. apply run_sound in Hrun as (u & s' & c' & -> & Hd & Hk).
  destruct s'; [|discriminate]. injection Hk as <-.
  rewrite string_app_nil_r. eauto.
Qed.

Lemma run_at_end_complete (r : regex) (s : string) (c' : captures) :
  derives r s c' -> forall c, run r s c at_end <> None.
Proof.
  intros Hd c. rewrite <- (string_app_nil_r s).
  apply (run_complete r s c' Hd "" c). discriminate.
Qed.

(** An optional part in front is tried first; the pattern goes on without
    it only when nothing matches with it. *)
Lemma run_prefer (a b : regex) (s : string) (c : captures) (k : cont) :
  run (Cat (Quest a) b) s c k
  = match run a s c (fun s' c' => run b s' c' k) with
    | Some m => Some m
    | None => run b s c k
    end.
Proof. reflexivity. Qed.

Lemma string_app_inv_head (u x y : string) : u ++ x = u ++ y -> x = y.
Proof. induction u as [|a u IH]; simpl; [auto|]. intros [= Heq]. auto. Qed.

Lemma referenceShape_derives_afterRegistry (rest ns name tag digest : string) :
  referenceShape rest "" ns name tag digest -> exists c, derives afterRegistry rest c.
Proof.
  intros Hshape. unfold afterRegistry.
  destruct (String.eqb_spec ns "") as [->|Hne].
  - assert (exists c, derives afterNamespace rest c) as [c Hd]
      by (eexists; apply derives_afterNamespace; eauto).
    exists (c ++ [])%list.
    apply (derives_cat_intro _ _ _ "" rest _ [] c);
      [apply d_quest_skip | exact Hd | reflexivity | reflexivity].
  - apply (referenceShape_namespace _ _ _ _ _ Hne) in Hshape
      as (rest' & -> & Hns & Hshape).
    eexists. rewrite <- string_app_assoc. apply d_cat.
    + apply d_quest_take. apply derives_namespacePart. eauto.
    + apply derives_afterNamespace. eauto.
Qed.

(** After the registry: the namespace is taken whenever the text can be
    matched with one. *)
Lemma run_afterRegistry (rest : string) (c m : captures) :
  run afterRegistry rest c at_end = Some m ->
  exists ns name tag digest,
    referenceShape rest "" ns name tag digest
    /\ m = (optional_capture 5 digest ++ optional_capture 4 tag
            ++ [(3%nat, name)] ++ optional_capture 2 ns ++ c)%list
    /\ (ns = "" ->
        forall ns' name' tag' digest',
          referenceShape rest "" ns' name' tag' digest' -> ns' = "").
Proof.
  unfold afterRegistry. rewrite run_prefer.
  destruct (run namespacePart rest c _) as [m0|] eqn:Hns.
  - intros [= ->]. apply run_sound in Hns as (u & s' & c' & -> & Hd & Hk).
    apply derives_namespacePart in Hd as (ns & Hrun & -> & ->).
    apply run_at_end_sound in Hk as (c'' & Hd & ->).
    apply derives_afterNamespace in Hd as (name & tag & digest & Hshape & ->).
    pose proof (proj1 Hrun) as Hne.
    exists ns, name, tag, digest. split; [|split].
    + apply (referenceShape_namespace _ _ _ _ _ Hne).
      exists s'. split; [apply string_app_assoc|]. now split.
    + replace (optional_capture 2 ns) with [(2%nat, ns)]
        by (unfold optional_capture; now rewrite (proj2 (String.eqb_neq ns "") Hne)).
      rewrite <- !app_assoc. reflexivity.
    + intros ->. contradiction.
  - intros Hrun. apply run_at_end_sound in Hrun as (c'' & Hd & ->).
    apply derives_afterNamespace in Hd as (name & tag & digest & Hshape & ->).
    exists "", name, tag, digest. split; [exact Hshape|]. split.
    + rewrite <- !app_assoc. reflexivity.
    + intros _ ns' name' tag' digest' Hshape'.
      destruct (String.eqb_spec ns' "") as [->|Hne]; [reflexivity|]. exfalso.
      apply (referenceShape_namespace _ _ _ _ _ Hne) in Hshape'
        as (rest' & -> & Hns' & Hshape').
      rewrite <- string_app_assoc in Hns. revert Hns.
      apply (run_complete namespacePart (ns' ++ "/") [(2%nat, ns')]).
      * apply derives_namespacePart. eauto.
      * intros c'. apply (run_at_end_complete afterNamespace rest'
                            (optional_capture 5 digest' ++ optional_capture 4 tag'
                             ++ [(3%nat, name')])%list).
        apply derives_afterNamespace. eauto.
Qed.

Lemma submatch_parts (reg ns name tag digest : string) :
  map (fun i =>
         submatch (optional_capture 5 digest ++ optional_capture 4 tag
                   ++ [(3%nat, name)] ++ optional_capture 2 ns
                   ++ optional_capture 1 reg)%list (S i))
      (seq 0 5)
  = [reg; ns; name; tag; digest].
Proof.
  cbn [seq map]. rewrite !optional_capture_submatch. cbn [Nat.eqb].
  cbn [app submatch Nat.eqb]. rewrite !optional_capture_submatch. cbn [Nat.eqb].
  unfold optional_capture.
  destruct (String.eqb_spec reg "") as [->|_], (String.eqb_spec ns "") as [->|_],
    (String.eqb_spec tag "") as [->|_], (String.eqb_spec digest "") as [->|_];
    reflexivity.
Qed.

(** What [FindStringSubmatch] reports for the pattern of
    [ParseImageReference]: the text and the five parts of the shape that is
    preferred. *)
Lemma FindStringSubmatch_referencePattern (s : string) (matches : list string) :
  FindStringSubmatch referencePattern s = Some matches ->
  exists reg ns name tag digest,
    preferred s reg ns name tag digest
    /\ matches = [s; reg; ns; name; tag; digest].
Proof.
  unfold FindStringSubmatch. change (NumSubexp referencePattern) with 5%nat.
  rewrite referencePattern_split, run_prefer.
  destruct (run registryPart s [] _) as [m0|] eqn:Hreg.
  - intros [= <-]. apply run_sound in Hreg as (u & s' & c' & -> & Hd & Hk).
    apply derives_registryPart in Hd as (reg & Hrun & -> & ->).
    apply run_afterRegistry in Hk
      as (ns & name & tag & digest & Hshape & -> & Hprefer).
    pose proof (proj1 Hrun) as Hne.
    exists reg, ns, name, tag, digest. split; [split; [|split]|].
    + apply (referenceShape_registry _ _ _ _ _ _ Hne).
      exists s'. split; [apply string_app_assoc|]. now split.
    + intros ->. contradiction.
    + intros Hns ns' name' tag' digest' Hshape'.
      apply (referenceShape_registry _ _ _ _ _ _ Hne) in Hshape'
        as (rest' & Heq & _ & Hshape').
      rewrite string_app_assoc in Heq.
      apply string_app_inv_head in Heq. injection Heq as <-.
      exact (Hprefer Hns _ _ _ _ Hshape').
    + f_equal.
      change ([(1%nat, reg)] ++ [])%list with [(1%nat, reg)].
      replace [(1%nat, reg)] with (optional_capture 1 reg)
        by (unfold optional_capture; now rewrite (proj2 (String.eqb_neq reg "") Hne)).
      apply submatch_parts.
  - intros Hrun.
    destruct (run afterRegistry s [] _) as [m|] eqn:Hafter; [|discriminate].
    injection Hrun as <-.
    apply run_afterRegistry in Hafter
      as (ns & name & tag & digest & Hshape & -> & Hprefer).
    exists "", ns, name, tag, digest. split; [split; [|split]|].
    + exact Hshape.
    + intros _ reg' ns' name' tag' digest' Hshape'.
      destruct (String.eqb_spec reg' "") as [->|Hne]; [reflexivity|]. exfalso.
      apply (referenceShape_registry _ _ _ _ _ _ Hne) in Hshape'
        as (rest' & -> & Hreg' & Hshape').
      apply referenceShape_derives_afterRegistry in Hshape' as [c' Hd'].
      rewrite <- string_app_assoc in Hreg. revert Hreg.
      apply (run_complete registryPart (reg' ++ "/") [(1%nat, reg')]).
      * apply derives_registryPart. eauto.
      * intros c''. apply (run_at_end_complete afterRegistry rest' c' Hd').
    + exact Hprefer.
    + f_equal. change (optional_capture 2 ns ++ [])%list
        with (optional_capture 2 ns ++ optional_capture 1 "")%list.
      apply submatch_parts.
Qed.

(** *** The shape is read in one way once it is settled which optional
    segments are there *)

Lemma tail_stops (p : ascii -> bool) (sep : ascii) (x : string) :
  p sep = false -> stops p (preceded_by (String sep "") x).
Proof.
  intros Hsep. rewrite <- (string_app_nil_r (preceded_by _ _)).
  apply preceded_by_stops; [exact Hsep | exact I].
Qed.

Lemma referenceShape_tail_unique (s name tag digest name' tag' digest' : string) :
  referenceShape s "" "" name tag digest ->
  referenceShape s "" "" name' tag' digest' ->
  name = name' /\ tag = tag' /\ digest = digest'.
Proof.
  intros (-> & _ & _ & [_ Hname] & Htag & Hdigest)
         (Heq & _ & _ & [_ Hname'] & Htag' & Hdigest').
  change (followed_by "" "/" ++ followed_by "" "/" ++ ?x) with x in Heq.
  apply (run_stop_unique not_colon_at_slash) in Heq as [<- Heq];
    try assumption;
    try (apply preceded_by_stops; [reflexivity | apply tail_stops; reflexivity]).
  split; [reflexivity|].
  assert (tag = tag' /\ preceded_by "@" digest = preceded_by "@" digest') as [-> Hd].
  { unfold preceded_by at 1 3 in Heq.
    destruct (String.eqb_spec tag "") as [->|Hne], (String.eqb_spec tag' "") as [->|Hne'];
      simpl in Heq.
    - now split.
    - exfalso. unfold preceded_by in Heq.
      destruct (String.eqb digest ""); discriminate.
    - exfalso. unfold preceded_by in Heq.
      destruct (String.eqb digest' ""); discriminate.
    - injection Heq as Heq.
      apply (run_stop_unique not_at) in Heq as [-> Heq];
        try (now apply optional_run_all);
        try (apply tail_stops; reflexivity).
      now split. }
  split; [reflexivity|]. now apply (preceded_by_inj "@").
Qed.

Lemma segment_unique (x x' rest rest' : string) :
  run_of not_slash x -> run_of not_slash x' ->
  x ++ "/" ++ rest = x' ++ "/" ++ rest' -> x = x' /\ rest = rest'.
Proof.
  intros [_ Hx] [_ Hx'] Heq.
  apply (run_stop_unique not_slash) in Heq as [-> Heq];
    try assumption; try reflexivity.
  injection Heq as ->. now split.
Qed.

Lemma referenceShape_namespace_unique
    (s ns name tag digest ns' name' tag' digest' : string) :
  referenceShape s "" ns name tag digest ->
  referenceShape s "" ns' name' tag' digest' ->
  (ns = "" <-> ns' = "") ->
  ns = ns' /\ name = name' /\ tag = tag' /\ digest = digest'.
Proof.
  intros Hshape Hshape' Hiff.
  destruct (String.eqb_spec ns "") as [->|Hne].
  - rewrite (proj1 Hiff eq_refl) in *.
    split; [reflexivity|]. eapply referenceShape_tail_unique; eauto.
  - assert (ns' <> "") as Hne' by tauto.
    apply (referenceShape_namespace _ _ _ _ _ Hne) in Hshape as (rest & -> & Hns & Hshape).
    apply (referenceShape_namespace _ _ _ _ _ Hne') in Hshape'
      as (rest' & Heq & Hns' & Hshape').
    destruct (segment_unique _ _ _ _ Hns Hns' Heq) as [<- <-].
    split; [reflexivity|]. eapply referenceShape_tail_unique; eauto.
Qed.

Lemma referenceShape_registry_unique
    (s reg ns name tag digest reg' ns' name' tag' digest' : string) :
  referenceShape s reg ns name tag digest ->
  referenceShape s reg' ns' name' tag' digest' ->
  reg <> "" -> reg' <> "" ->
  reg = reg'.
Proof.
  intros Hshape Hshape' Hne Hne'.
  apply (referenceShape_registry _ _ _ _ _ _ Hne) in Hshape as (rest & -> & Hreg & _).
  apply (referenceShape_registry _ _ _ _ _ _ Hne') in Hshape' as (rest' & Heq & Hreg' & _).
  now destruct (segment_unique _ _ _ _ Hreg Hreg' Heq).
Qed.

(** The preferred way to read a text is the only preferred one. *)
Lemma preferred_unique (s reg ns name tag digest reg' ns' name' tag' digest' : string) :
  preferred s reg ns name tag digest ->
  preferred s reg' ns' name' tag' digest' ->
  reg = reg' /\ ns = ns' /\ name = name' /\ tag = tag' /\ digest = digest'.
Proof.
  intros (Hshape & Hreg & Hns) (Hshape' & Hreg' & Hns').
  assert (reg = reg') as <-.
  { destruct (String.eqb_spec reg "") as [->|Hne].
    - symmetry. eapply Hreg; eauto.
    - destruct (String.eqb_spec reg' "") as [->|Hne'].
      + eapply Hreg'; eauto.
      + eapply referenceShape_registry_unique; eauto. }
  split; [reflexivity|].
  assert (ns = "" <-> ns' = "") as Hiff.
  { split; intros Hempty; [eapply Hns | eapply Hns']; eauto. }
  destruct (String.eqb_spec reg "") as [->|Hne].
  - eapply referenceShape_namespace_unique; eauto.
  - apply (referenceShape_registry _ _ _ _ _ _ Hne) in Hshape as (rest & -> & Hr & Hshape).
    apply (referenceShape_registry _ _ _ _ _ _ Hne) in Hshape' as (rest' & Heq & _ & Hshape').
    destruct (segment_unique _ _ _ _ Hr Hr Heq) as [_ <-].
    eapply referenceShape_namespace_unique; eauto.
Qed.

Lemma referenceShape_derives (s reg ns name tag digest : string) :
  referenceShape s reg ns name tag digest -> exists c, derives referencePattern s c.
Proof.
  intros Hshape. rewrite referencePattern_split.
  destruct (String.eqb_spec reg "") as [->|Hne].
  - apply referenceShape_derives_afterRegistry in Hshape as [c Hd].
    exists (c ++ [])%list.
    apply (derives_cat_intro _ _ _ "" s _ [] c);
      [apply d_quest_skip | exact Hd | reflexivity | reflexivity].
  - apply (referenceShape_registry _ _ _ _ _ _ Hne) in Hshape as (rest & -> & Hr & Hshape).
    apply referenceShape_derives_afterRegistry in Hshape as [c Hd].
    eexists. rewrite <- string_app_assoc. apply d_cat; [|exact Hd].
    apply d_quest_take. apply derives_registryPart. eauto.
Qed.

Lemma preferred_matches (s reg ns name tag digest : string) :
  preferred s reg ns name tag digest ->
  FindStringSubmatch referencePattern s = Some [s; reg; ns; name; tag; digest].
Proof.
  intros Hpref.
  assert (MatchString referencePattern s = true) as Hmatch.
  { apply MatchString_derives. eapply referenceShape_derives. apply Hpref. }
  unfold MatchString in Hmatch.
  destruct (FindStringSubmatch referencePattern s) as [matches|] eqn:Hfind; [|discriminate].
  apply FindStringSubmatch_referencePattern in Hfind
    as (reg' & ns' & name' & tag' & digest' & Hpref' & ->).
  destruct (preferred_unique _ _ _ _ _ _ _ _ _ _ _ Hpref Hpref')
    as (-> & -> & -> & -> & ->).
  reflexivity.
Qed.

(** Every text of the shape has a preferred reading. *)
Lemma referenceShape_preferred (s reg ns name tag digest : string) :
  referenceShape s reg ns name tag digest ->
  exists reg' ns' name' tag' digest', preferred s reg' ns' name' tag' digest'.
Proof.
  intros Hshape. apply referenceShape_derives in Hshape.
  apply MatchString_derives in Hshape. unfold MatchString in Hshape.
  destruct (FindStringSubmatch referencePattern s) as [matches|] eqn:Hfind; [|discriminate].
  apply FindStringSubmatch_referencePattern in Hfind
    as (reg' & ns' & name' & tag' & digest' & Hpref' & _).
  eauto 7.
Qed.

Lemma no_slash_Contains (s : string) :
  Strings.all_bytes not_slash s = true -> Strings.Contains s "/" = false.
Proof.
  induction s as [|a s IH]; [reflexivity|]. simpl.
  intros Hall. apply andb_true_iff in Hall as [Ha Hall].
  rewrite (IH Hall). unfold not_slash in Ha.
  destruct (Ascii.eqb a "/"); [discriminate | reflexivity].
Qed.

Lemma name_no_slash (name : string) :
  run_of not_colon_at_slash name -> Strings.Contains name "/" = false.
Proof.
  intros [_ Hall]. apply no_slash_Contains.
  apply (all_bytes_weaken not_colon_at_slash); [|exact Hall].
  intros a. unfold not_colon_at_slash, not_slash.
  destruct (Ascii.eqb a "/"); [now rewrite !orb_true_r | reflexivity].
Qed.

(** What [ParseImageReference] makes of the submatches. *)
Lemma ParseImageReference_of_matches (image reg ns name tag digest : string) :
  image <> "" ->
  run_of not_colon_at_slash name ->
  FindStringSubmatch referencePattern image = Some [image; reg; ns; name; tag; digest] ->
  ParseImageReference image = Ok (referenceOf image reg ns name tag digest).
Proof.
  intros Hne Hname Hfind. unfold ParseImageReference, referenceOf.
  rewrite (proj2 (String.eqb_neq image "") Hne), Hfind. cbn [nth].
  rewrite (name_no_slash name Hname).
  destruct (String.eqb ns ""); cbn [negb andb];
    [|rewrite andb_false_r; reflexivity].
  rewrite andb_true_r.
  now destruct (String.eqb (if String.eqb reg "" then "docker.io" else reg) "docker.io").
Qed.

Lemma referenceShape_not_empty (s reg ns name tag digest : string) :
  referenceShape s reg ns name tag digest -> s <> "".
Proof.
  intros Hshape ->. apply referenceShape_derives in Hshape.
  apply MatchString_derives in Hshape. vm_compute in Hshape. discriminate.
Qed.

Lemma preferred_parses (image reg ns name tag digest : string) :
  preferred image reg ns name tag digest ->
  ParseImageReference image = Ok (referenceOf image reg ns name tag digest).
Proof.
  intros Hpref. apply ParseImageReference_of_matches.
  - eapply referenceShape_not_empty. apply Hpref.
  - apply Hpref.
  - now apply preferred_matches.
Qed.

Lemma parsed_preferred (image : string) (ir : ImageReference) :
  ParseImageReference image = Ok ir ->
  exists reg ns name tag digest,
    preferred image reg ns name tag digest
    /\ ir = referenceOf image reg ns name tag digest.
Proof.
  intros Hparse. pose proof Hparse as Hparse'. unfold ParseImageReference in Hparse'.
  destruct (String.eqb_spec image "") as [->|Hne]; [discriminate|].
  destruct (FindStringSubmatch referencePattern image) as [matches|] eqn:Hfind;
    [|discriminate].
  clear Hparse'.
  apply FindStringSubmatch_referencePattern in Hfind
    as (reg & ns & name & tag & digest & Hpref & _).
  rewrite (preferred_parses _ _ _ _ _ _ Hpref) in Hparse. injection Hparse as <-.
  eauto 8.
Qed.

Lemma parsed_iff_preferred (image : string) (ir : ImageReference) :
  ParseImageReference image = Ok ir
  <-> exists reg ns name tag digest,
        preferred image reg ns name tag digest
        /\ ir = referenceOf image reg ns name tag digest.
Proof.
  split; [apply parsed_preferred|].
  intros (reg & ns & name & tag & digest & Hpref & ->). now apply preferred_parses.
Qed.

Lemma failed_iff_no_shape (image : string) (e : error) :
  ParseImageReference image = Err e
  <-> (image = "" /\ e = ErrEmptyReference)
      \/ (image <> "" /\ e = ErrInvalidFormat image
          /\ forall reg ns name tag digest,
               ~ referenceShape image reg ns name tag digest).
Proof.
  split.
  - intros Hparse. pose proof Hparse as Hparse'. unfold ParseImageReference in Hparse'.
    destruct (String.eqb_spec image "") as [->|Hne].
    + left. split; [reflexivity | congruence].
    + right. split; [exact Hne|].
      destruct (FindStringSubmatch referencePattern image) as [matches|] eqn:Hfind;
        [discriminate|].
      split; [congruence|].
      intros reg ns name tag digest Hshape.
      apply referenceShape_preferred in Hshape
        as (reg' & ns' & name' & tag' & digest' & Hpref).
      apply preferred_matches in Hpref. congruence.
  - intros [[-> ->]|(Hne & -> & Hnone)]; [reflexivity|].
    unfold ParseImageReference. rewrite (proj2 (String.eqb_neq image "") Hne).
    destruct (FindStringSubmatch referencePattern image) as [matches|] eqn:Hfind;
      [|reflexivity].
    apply FindStringSubmatch_referencePattern in Hfind
      as (reg & ns & name & tag & digest & Hpref & _).
    exfalso. eapply Hnone. apply Hpref.
Qed.

(** X23.  [ParseImageReference] succeeds exactly on the texts of the shape
    [(REGISTRY/)?(NAMESPACE/)?NAME(:TAG)?(@DIGEST)?], and the reference it
    returns is made of the parts of the preferred reading: a first segment
    is a registry before it is a namespace.  It fails with the
    empty-reference error on the empty text, with the invalid-format error,
    which carries the text, on every other text that has not the shape, and
    on nothing else. *)
Theorem ParseImageReference_grammar (image : string) :
  (forall ir,
     ParseImageReference image = Ok ir
     <-> exists reg ns name tag digest,
           preferred image reg ns name tag digest
           /\ ir = referenceOf image reg ns name tag digest)
  /\ (forall e,
        ParseImageReference image = Err e
        <-> (image = "" /\ e = ErrEmptyReference)
            \/ (image <> "" /\ e = ErrInvalidFormat image
                /\ forall reg ns name tag digest,
                     ~ referenceShape image reg ns name tag digest)).
Proof.
  split; [intros ir; apply parsed_iff_preferred | intros e; apply failed_iff_no_shape].
Qed.

(** *** References of one, two and three segments *)

Lemma segment_has_slash (s reg ns name tag digest : string) :
  referenceShape s reg ns name tag digest ->
  reg <> "" \/ ns <> "" ->
  Strings.all_bytes not_slash s = false.
Proof.
  intros (-> & _) Hsome. rewrite !all_bytes_app. unfold followed_by.
  destruct (String.eqb_spec reg "") as [->|Hreg].
  - destruct (String.eqb_spec ns "") as [->|Hns]; [tauto|].
    rewrite all_bytes_app. cbn. now rewrite andb_false_r.
  - rewrite all_bytes_app. cbn. now rewrite andb_false_r.
Qed.

Lemma tail_no_slash (name tag digest : string) :
  run_of not_colon_at_slash name ->
  Strings.all_bytes not_slash tag = true ->
  Strings.all_bytes not_slash digest = true ->
  Strings.all_bytes not_slash
    (name ++ preceded_by ":" tag ++ preceded_by "@" digest) = true.
Proof.
  intros [_ Hname] Htag Hdigest. rewrite !all_bytes_app. unfold preceded_by.
  assert (Strings.all_bytes not_slash name = true) as ->.
  { apply (all_bytes_weaken not_colon_at_slash); [|exact Hname].
    intros a. unfold not_colon_at_slash, not_slash.
    destruct (Ascii.eqb a "/"); [now rewrite !orb_true_r | reflexivity]. }
  destruct (String.eqb tag ""), (String.eqb digest ""); cbn;
    now rewrite ?Htag, ?Hdigest.
Qed.

Lemma preferred_bare (name tag digest : string) :
  run_of not_colon_at_slash name ->
  optional_run not_at tag -> Strings.all_bytes not_slash tag = true ->
  optional_run any_but_newline digest -> Strings.all_bytes not_slash digest = true ->
  preferred (name ++ preceded_by ":" tag ++ preceded_by "@" digest)
    "" "" name tag digest.
Proof.
  intros Hname Htag Htag' Hdigest Hdigest'.
  pose proof (tail_no_slash name tag digest Hname Htag' Hdigest') as Hnone.
  split; [|split].
  - split; [reflexivity|]. repeat split; try assumption; try apply Hname; now left.
  - intros _ reg' ns' name' tag' digest' Hshape'.
    destruct (String.eqb_spec reg' "") as [->|Hne]; [reflexivity|].
    rewrite (segment_has_slash _ _ _ _ _ _ Hshape') in Hnone by now left.
    discriminate.
  - intros _ ns' name' tag' digest' Hshape'.
    destruct (String.eqb_spec ns' "") as [->|Hne]; [reflexivity|].
    rewrite (segment_has_slash _ _ _ _ _ _ Hshape') in Hnone by now right.
    discriminate.
Qed.

Lemma preferred_registry (reg rest name tag digest : string) :
  run_of not_slash reg ->
  referenceShape rest "" "" name tag digest ->
  (forall ns' name' tag' digest',
     referenceShape rest "" ns' name' tag' digest' -> ns' = "") ->
  preferred (reg ++ "/" ++ rest) reg "" name tag digest.
Proof.
  intros Hreg Hshape Hnone. pose proof (proj1 Hreg) as Hne.
  split; [|split].
  - apply (referenceShape_registry _ _ _ _ _ _ Hne). eauto.
  - intros ->. contradiction.
  - intros _ ns' name' tag' digest' Hshape'.
    apply (referenceShape_registry _ _ _ _ _ _ Hne) in Hshape'
      as (rest' & Heq & _ & Hshape').
    destruct (segment_unique _ _ _ _ Hreg Hreg Heq) as [_ <-].
    eapply Hnone; eauto.
Qed.

Lemma preferred_namespace (reg ns name tag digest : string) :
  run_of not_slash reg -> run_of not_slash ns ->
  run_of not_colon_at_slash name ->
  optional_run not_at tag -> optional_run any_but_newline digest ->
  preferred (reg ++ "/" ++ ns ++ "/" ++ name
             ++ preceded_by ":" tag ++ preceded_by "@" digest)
    reg ns name tag digest.
Proof.
  intros Hreg Hns Hname Htag Hdigest.
  pose proof (proj1 Hreg) as Hne. pose proof (proj1 Hns) as Hne'.
  split; [|split].
  - apply (referenceShape_registry _ _ _ _ _ _ Hne). eexists.
    split; [reflexivity|]. split; [exact Hreg|].
    apply (referenceShape_namespace _ _ _ _ _ Hne'). eexists.
    split; [reflexivity|]. split; [exact Hns|].
    split; [reflexivity|]. repeat split; try assumption; try apply Hname; now left.
  - intros ->. contradiction.
  - intros ->. contradiction.
Qed.

(** X24.  In a reference of at most two segments,
    [(PREFIX/)?NAME(:TAG)?(@DIGEST)?], the prefix is the registry whatever it
    looks like, with or without a dot or a port, and the namespace stays
    empty.  Without a prefix the registry is [docker.io]; the repository is
    [library/NAME] for [docker.io], named or not, and [NAME] otherwise; the
    tag is [latest] when there is neither tag nor digest. *)
Theorem ParseImageReference_short (prefix name tag digest : string) :
  optional_run not_slash prefix ->
  run_of not_colon_at_slash name ->
  optional_run not_at tag -> Strings.all_bytes not_slash tag = true ->
  optional_run any_but_newline digest -> Strings.all_bytes not_slash digest = true ->
  ParseImageReference
    (followed_by prefix "/" ++ name ++ preceded_by ":" tag ++ preceded_by "@" digest)
  = Ok {| Registry := if String.eqb prefix "" then "docker.io" else prefix;
          Namespace := "";
          Repository :=
            if String.eqb prefix "" || String.eqb prefix "docker.io"
            then "library/" ++ name else name;
          Tag := if String.eqb tag "" && String.eqb digest "" then "latest" else tag;
          Digest := digest;
          FullName :=
            followed_by prefix "/" ++ name
            ++ preceded_by ":" tag ++ preceded_by "@" digest |}.
Proof.
  intros Hprefix Hname Htag Htag' Hdigest Hdigest'.
  pose proof (tail_no_slash name tag digest Hname Htag' Hdigest') as Hnone.
  unfold followed_by. destruct (String.eqb_spec prefix "") as [->|Hne].
  - change ("" ++ ?x) with x.
    now rewrite (preferred_parses _ _ _ _ _ _
                   (preferred_bare name tag digest Hname Htag Htag' Hdigest Hdigest')).
  - destruct Hprefix as [?|Hprefix]; [contradiction|].
    rewrite !string_app_assoc.
    rewrite (preferred_parses _ prefix "" name tag digest).
    + unfold referenceOf. rewrite (proj2 (String.eqb_neq prefix "") Hne).
      reflexivity.
    + apply preferred_registry; [exact Hprefix | |].
      * split; [reflexivity|].
        repeat split; try assumption; try apply Hname; now left.
      * intros ns' name' tag' digest' Hshape'.
        destruct (String.eqb_spec ns' "") as [->|Hne']; [reflexivity|].
        rewrite (segment_has_slash _ _ _ _ _ _ Hshape') in Hnone by now right.
        discriminate.
Qed.

(** X25.  In a reference of three segments,
    [REGISTRY/NAMESPACE/NAME(:TAG)?(@DIGEST)?], the first is the registry
    and the second the namespace, and the repository is [NAMESPACE/NAME]: it
    never gets the [library] prefix. *)
Theorem ParseImageReference_with_namespace (reg ns name tag digest : string) :
  run_of not_slash reg -> run_of not_slash ns ->
  run_of not_colon_at_slash name ->
  optional_run not_at tag -> optional_run any_but_newline digest ->
  ParseImageReference
    (reg ++ "/" ++ ns ++ "/" ++ name ++ preceded_by ":" tag ++ preceded_by "@" digest)
  = Ok {| Registry := reg;
          Namespace := ns;
          Repository := ns ++ "/" ++ name;
          Tag := if String.eqb tag "" && String.eqb digest "" then "latest" else tag;
          Digest := digest;
          FullName :=
            reg ++ "/" ++ ns ++ "/" ++ name
            ++ preceded_by ":" tag ++ preceded_by "@" digest |}.
Proof.
  intros Hreg Hns Hname Htag Hdigest.
  rewrite (preferred_parses _ _ _ _ _ _
             (preferred_namespace reg ns name tag digest Hreg Hns Hname Htag Hdigest)).
  unfold referenceOf.
  rewrite (proj2 (String.eqb_neq reg "") (proj1 Hreg)),
          (proj2 (String.eqb_neq ns "") (proj1 Hns)).
  reflexivity.
Qed.

(** *** What holds of every parsed reference *)

Lemma preferred_namespace_after_registry (s reg ns name tag digest : string) :
  preferred s reg ns name tag digest -> ns <> "" -> reg <> "".
Proof.
  intros (Hshape & Hreg & _) Hns ->.
  apply (referenceShape_namespace _ _ _ _ _ Hns) in Hshape as (rest & -> & Hrun & Hshape).
  apply Hns. apply (Hreg eq_refl ns "" name tag digest).
  apply (referenceShape_registry _ _ _ _ _ _ Hns). eauto.
Qed.

Lemma Contains_slash (u v : string) : Strings.Contains (u ++ "/" ++ v) "/" = true.
Proof.
  induction u as [|a u IH].
  - simpl. now destruct v.
  - change (String a u ++ "/" ++ v) with (String a (u ++ "/" ++ v)).
    cbn [Strings.Contains]. rewrite IH. apply orb_true_r.
Qed.

(** X26.  Every reference that [ParseImageReference] returns has a registry,
    which has no slash, and a tag or a digest; it has a namespace only when
    the text starts with registry, slash, namespace, slash; a repository on
    [docker.io] always has a path of two parts; and [String] prints it with
    its tag, or with its digest when it has no tag, never bare. *)
Theorem ParseImageReference_invariants (image : string) (ir : ImageReference) :
  ParseImageReference image = Ok ir ->
  (Registry ir <> "" /\ Strings.all_bytes not_slash (Registry ir) = true)
  /\ (Tag ir = "" -> Digest ir <> "")
  /\ (Namespace ir <> "" ->
      exists rest, image = Registry ir ++ "/" ++ Namespace ir ++ "/" ++ rest)
  /\ (Registry ir = "docker.io" -> Strings.Contains (Repository ir) "/" = true)
  /\ String_ ir
     = Registry ir ++ "/" ++ Repository ir
       ++ (if String.eqb (Tag ir) "" then "@" ++ Digest ir else ":" ++ Tag ir).
Proof.
  intros Hparse.
  apply parsed_preferred in Hparse as (reg & ns & name & tag & digest & Hpref & ->).
  pose proof Hpref as (Hshape & _).
  pose proof Hshape as (_ & Hreg & Hns & Hname & Htag & Hdigest).
  unfold referenceOf, String_. cbn [Registry Namespace Repository Tag Digest FullName].
  split; [|split; [|split; [|split]]].
  - destruct (String.eqb_spec reg "") as [->|Hne]; [split; [discriminate | reflexivity]|].
    split; [exact Hne | now apply optional_run_all].
  - destruct (String.eqb_spec tag "") as [->|Hne]; [|contradiction].
    destruct (String.eqb_spec digest "") as [->|Hne]; [discriminate | auto].
  - intros Hne.
    pose proof (preferred_namespace_after_registry _ _ _ _ _ _ Hpref Hne) as Hne'.
    rewrite (proj2 (String.eqb_neq reg "") Hne').
    apply (referenceShape_registry _ _ _ _ _ _ Hne') in Hshape
      as (rest & -> & _ & Hshape).
    apply (referenceShape_namespace _ _ _ _ _ Hne) in Hshape as (rest' & -> & _).
    eauto.
  - intros Hhub. rewrite Hhub. cbn [String.eqb Ascii.eqb Bool.eqb].
    destruct (String.eqb ns "").
    + apply (Contains_slash "library" name).
    + apply Contains_slash.
  - destruct (String.eqb_spec tag "") as [->|Hne].
    + destruct (String.eqb_spec digest "") as [->|Hne']; [reflexivity|].
      cbn [andb String.eqb negb].
      rewrite ?(proj2 (String.eqb_neq digest "") Hne'). reflexivity.
    + cbn [andb]. now rewrite (proj2 (String.eqb_neq tag "") Hne).
Qed.

Lemma ParseImageReference_short_witness :
  ParseImageReference "registry:5000/nginx:1.21"
  = Ok {| Registry := "registry:5000"; Namespace := ""; Repository := "nginx";
          Tag := "1.21"; Digest := ""; FullName := "registry:5000/nginx:1.21" |}.
Proof.
  assert (optional_run not_slash "registry:5000") as Hprefix
    by (right; split; [discriminate | reflexivity]).
  assert (run_of not_colon_at_slash "nginx") as Hname
    by (split; [discriminate | reflexivity]).
  assert (optional_run not_at "1.21") as Htag
    by (right; split; [discriminate | reflexivity]).
  assert (optional_run any_but_newline "") as Hdigest by (left; reflexivity).
  exact (ParseImageReference_short "registry:5000" "nginx" "1.21" ""
           Hprefix Hname Htag eq_refl Hdigest eq_refl).
Defined.

Lemma ParseImageReference_with_namespace_witness :
  ParseImageReference "docker.io/bitnami/redis@sha256:0a1b"
  = Ok {| Registry := "docker.io"; Namespace := "bitnami";
          Repository := "bitnami/redis"; Tag := ""; Digest := "sha256:0a1b";
          FullName := "docker.io/bitnami/redis@sha256:0a1b" |}.
Proof.
  assert (run_of not_slash "docker.io") as Hreg
    by (split; [discriminate | reflexivity]).
  assert (run_of not_slash "bitnami") as Hns
    by (split; [discriminate | reflexivity]).
  assert (run_of not_colon_at_slash "redis") as Hname
    by (split; [discriminate | reflexivity]).
  assert (optional_run not_at "") as Htag by (left; reflexivity).
  assert (optional_run any_but_newline "sha256:0a1b") as Hdigest
    by (right; split; [discriminate | reflexivity]).
  exact (ParseImageReference_with_namespace "docker.io" "bitnami" "redis" ""
           "sha256:0a1b" Hreg Hns Hname Htag Hdigest).
Defined.

Lemma ParseImageReference_invariants_witness :
  String_ {| Registry := "docker.io"; Namespace := ""; Repository := "library/nginx";
             Tag := "latest"; Digest := ""; FullName := "nginx" |}
  = "docker.io/library/nginx:latest".
Proof.
  assert (ParseImageReference "nginx"
          = Ok {| Registry := "docker.io"; Namespace := "";
                  Repository := "library/nginx"; Tag := "latest"; Digest := "";
                  FullName := "nginx" |}) as Hparse by (vm_compute; reflexivity).
  exact (proj2 (proj2 (proj2 (proj2 (ParseImageReference_invariants _ _ Hparse))))).
Defined.

End ReferenceProps.


(** ** Package [main]: one round of checking *)

Module RoundProps.
Import Registry Main MainNotions.

Lemma matchPattern_listed (patterns : list string) (image : string) :
  existsb (fun pattern => fst (matchPattern pattern image)) patterns = true
  <-> listed patterns image.
Proof.
  rewrite existsb_exists. unfold matchPattern, listed. split.
  - intros (pattern & Hin & Hmatch).
    destruct (String.eqb_spec pattern "*") as [->|_]; [now left|].
    simpl in Hmatch. apply String.eqb_eq in Hmatch. subst. now right.
  - intros [Hin|Hin].
    + exists "*". split; [exact Hin | reflexivity].
    + exists image. split; [exact Hin|].
      destruct (String.eqb image "*"); [reflexivity | apply String.eqb_refl].
Qed.

Lemma matchPattern_not_listed (patterns : list string) (image : string) :
  existsb (fun pattern => fst (matchPattern pattern image)) patterns = false
  <-> ~ listed patterns image.
Proof.
  rewrite <- matchPattern_listed. now destruct (existsb _ _).
Qed.

(** Every container that [GetRunningContainers] returns carries the
    registry, the repository and the tag of its parsed image. *)
Lemma running_parsed (w : World) (container : ContainerInfo.info) :
  In container (running w) ->
  exists imageRef,
    Docker.ParseImageReference (ContainerInfo.Image container) = Ok imageRef
    /\ ContainerInfo.Registry container = Docker.Registry imageRef
    /\ ContainerInfo.Repository container = Docker.Repository imageRef
    /\ ContainerInfo.Tag container = Docker.Tag imageRef.
Proof.
  unfold running, Containers.GetRunningContainers.
  destruct (containersAnswer w) as [containers|err]; [|intros []].
  cbn [fst]. intros Hin.
  apply ResolutionProps.In_omap in Hin as (cont & _ & Hconv).
  unfold Containers.convertContainer in Hconv.
  destruct (Docker.ParseImageReference (APIContainer.Image cont)) as [imageRef|err]
    eqn:Hparse; [|discriminate].
  injection Hconv as <-. exists imageRef. cbn. auto.
Qed.

Lemma IsPrivateRegistry_hub (imageRef : Docker.ImageReference) :
  Docker.IsPrivateRegistry imageRef = false <-> onDockerHub (Docker.Registry imageRef).
Proof.
  unfold Docker.IsPrivateRegistry, onDockerHub.
  destruct (String.eqb_spec (Docker.Registry imageRef) "docker.io") as [->|Hne];
    [simpl; tauto|].
  destruct (String.eqb_spec (Docker.Registry imageRef) "index.docker.io") as [->|Hne'];
    simpl; [tauto|].
  split; [discriminate | tauto].
Qed.

Lemma keeps_parsed (s : Service) (container : ContainerInfo.info)
    (imageRef : Docker.ImageReference) :
  Docker.ParseImageReference (ContainerInfo.Image container) = Ok imageRef ->
  ContainerInfo.Registry container = Docker.Registry imageRef ->
  (keeps s container = true
   <-> ~ listed (Exclude (filters s)) (ContainerInfo.Image container)
       /\ (Include (filters s) = []
           \/ listed (Include (filters s)) (ContainerInfo.Image container))
       /\ (ContainerInfo.Tag container = "latest" -> CheckLatest (filters s) = true)
       /\ (~ onDockerHub (ContainerInfo.Registry container) ->
           CheckPrivate (filters s) = true)).
Proof.
  intros Hparse Hreg. unfold keeps, shouldExcludeImage, shouldIncludeImage.
  rewrite Hparse, Hreg, <- IsPrivateRegistry_hub.
  rewrite <- matchPattern_not_listed, <- matchPattern_listed.
  destruct (existsb _ (Exclude (filters s))); [intuition discriminate|].
  destruct (Include (filters s)) as [|pattern patterns] eqn:Hinclude.
  - cbn [List.length Nat.ltb Nat.leb andb existsb].
    destruct (String.eqb_spec (ContainerInfo.Tag container) "latest") as [->|Hne];
      destruct (CheckLatest (filters s)), (Docker.IsPrivateRegistry imageRef),
        (CheckPrivate (filters s)); cbn; intuition congruence.
  - cbn [List.length Nat.ltb Nat.leb andb].
    destruct (existsb _ (pattern :: patterns));
      [|cbn; intuition discriminate].
    cbn [negb].
    destruct (String.eqb_spec (ContainerInfo.Tag container) "latest") as [->|Hne];
      destruct (CheckLatest (filters s)), (Docker.IsPrivateRegistry imageRef),
        (CheckPrivate (filters s)); cbn; intuition congruence.
Qed.

(** X27.  Of the running containers, [filterContainers] keeps exactly those
    whose image is not named by an exclude pattern, is named by an include
    pattern when there are any, has not the tag [latest] unless
    [CheckLatest] is set, and is on Docker Hub unless [CheckPrivate] is set.
    A pattern names an image by its exact text, [*] names all; the tag is
    the parsed one, so it is [latest] also for an image without tag and
    digest. *)
Theorem filterContainers_running (s : Service) (w : World)
    (container : ContainerInfo.info) :
  In container (filterContainers s (running w))
  <-> In container (running w)
      /\ ~ listed (Exclude (filters s)) (ContainerInfo.Image container)
      /\ (Include (filters s) = []
          \/ listed (Include (filters s)) (ContainerInfo.Image container))
      /\ (ContainerInfo.Tag container = "latest" -> CheckLatest (filters s) = true)
      /\ (~ onDockerHub (ContainerInfo.Registry container) ->
          CheckPrivate (filters s) = true).
Proof.
  unfold filterContainers. rewrite filter_In.
  split; intros [Hin Hkeep]; (split; [exact Hin|]);
    destruct (running_parsed w container Hin) as (imageRef & Hparse & Hreg & _);
    now apply (keeps_parsed s container imageRef Hparse Hreg).
Qed.

Lemma find_first {A} (f : A -> bool) (l : list A) (x : A) :
  List.find f l = Some x ->
  exists before after,
    l = (before ++ x :: after)%list /\ f x = true
    /\ forall y, In y before -> f y = false.
Proof.
  induction l as [|a l IH]; [discriminate|]. simpl.
  destruct (f a) eqn:Hfa.
  - intros [= ->]. exists [], l. split; [reflexivity|]. split; [exact Hfa|]. intros y [].
  - intros Hfind. destruct (IH Hfind) as (before & after & -> & Hfx & Hbefore).
    exists (a :: before), after. split; [reflexivity|]. split; [exact Hfx|].
    intros y [<-|Hy]; [exact Hfa | now apply Hbefore].
Qed.

Lemma find_none_of {A} (f : A -> bool) (l : list A) (x : A) :
  In x l -> f x = true -> List.find f l <> None.
Proof.
  intros Hin Hfx Hnone. pose proof (find_none f l Hnone x Hin). congruence.
Qed.

Section WithUnicodeCase.
Context `{Strings.UnicodeCase}.

Lemma CheckImageUpdate_fields (c : Client) (env : Answers)
    (registry repository currentTag : string) (info : ImageUpdateInfo)
    (err : option error) :
  CheckImageUpdate c env registry repository currentTag = (Some info, err) ->
  Registry info = registry /\ Repository info = repository
  /\ CurrentTag info = currentTag
  /\ (HasUpdate info = true ->
      LatestTag info <> currentTag /\ currentTag <> "latest").
Proof.
  unfold CheckImageUpdate.
  destruct (waitAnswer env); [discriminate|].
  destruct (tagsAnswer env) as [tags|]; [|discriminate].
  destruct (List.length tags =? 0)%nat;
    [intros [= <- <-]; cbn; repeat split; discriminate|].
  destruct (findLatestTag c tags currentTag) as [latestTag|];
    [|intros [= <- <-]; cbn; repeat split; discriminate].
  intros [= <- <-]. cbn. split; [reflexivity|]. split; [reflexivity|].
  split; [reflexivity|]. intros Hupdate. split.
  - intros ->. rewrite RegistryProps.compareVersions_refl in Hupdate. discriminate.
  - intros ->. apply RegistryProps.VersionComparison_eqb_eq in Hupdate.
    now apply ResolutionProps.compareVersions_latest_never_older in Hupdate.
Qed.

Lemma batch_origin (c : Client) (arrivals : list (ImageCheck.t * Answers))
    (maxConcurrency : Z) (infos : list ImageUpdateInfo) (err : option error) :
  CheckMultipleImages c arrivals maxConcurrency = Returns (infos, err) ->
  forall info, In info infos ->
    exists image env,
      In (image, env) arrivals
      /\ CheckImageUpdate c env (ImageCheck.Registry image)
           (ImageCheck.Repository image) (ImageCheck.Tag image)
         = (Some info, None).
Proof.
  destruct (Z.lt_ge_cases 0 maxConcurrency) as [Hpos|Hle].
  - rewrite (RegistryProps.CheckMultipleImages_returns c arrivals maxConcurrency Hpos).
    destruct (forallb (failed c) arrivals && _).
    + intros [= <- <-] info [].
    + intros [= <- <-] info Hin.
      apply ResolutionProps.In_omap in Hin as ([image env] & Hjob & Hverdict).
      exists image, env. split; [assumption|].
      unfold verdict, checkOne in Hverdict.
      destruct (CheckImageUpdate c env _ _ _) as [updateInfo e]. simpl in Hverdict.
      destruct e; [discriminate|]. now subst.
  - rewrite (RegistryProps.CheckMultipleImages_nobody_admitted c arrivals maxConcurrency Hle).
    destruct arrivals; [|destruct (maxConcurrency <? 0); discriminate].
    intros [= <- <-] info [].
Qed.

Lemma batch_all_failed (c : Client) (arrivals : list (ImageCheck.t * Answers))
    (maxConcurrency : Z) (infos : list ImageUpdateInfo) (err : option error) :
  CheckMultipleImages c arrivals maxConcurrency = Returns (infos, err) ->
  forallb (failed c) arrivals = true ->
  infos = [].
Proof.
  intros Hbatch Hfailed.
  destruct infos as [|info infos]; [reflexivity|]. exfalso.
  destruct (batch_origin c arrivals maxConcurrency _ _ Hbatch info (or_introl eq_refl))
    as (image & env & Hin & Hcheck).
  rewrite forallb_forall in Hfailed. specialize (Hfailed _ Hin).
  unfold failed, checkOne in Hfailed. rewrite Hcheck in Hfailed. discriminate.
Qed.

(** The round once the daemon has answered. *)
Lemma performImageCheck_listed (s : Service) (w : World)
    (containers : list APIContainer.container) :
  containersAnswer w = Ok containers ->
  performImageCheck s w
  = if (List.length (running w) =? 0)%nat
    then Returns {| returned := None; sent := None |}
    else if (List.length (filterContainers s (running w)) =? 0)%nat
    then Returns {| returned := None; sent := None |}
    else
      match CheckMultipleImages (registry s)
              (deliveries w (map imageCheckOf (filterContainers s (running w))))
              (MaxConcurrency s) with
      | Panics => Panics
      | Blocks => Blocks
      | Returns (updateResults, _) =>
          let updatesFound :=
            updatesOf (filterContainers s (running w)) updateResults in
          if (0 <? List.length updatesFound)%nat
          then
            match sendAnswer w updatesFound with
            | Some err =>
                Returns {| returned := Some (Plain err); sent := Some updatesFound |}
            | None => Returns {| returned := None; sent := Some updatesFound |}
            end
          else Returns {| returned := None; sent := None |}
      end.
Proof.
  intros Hanswer. unfold performImageCheck, running, Containers.GetRunningContainers.
  rewrite Hanswer. reflexivity.
Qed.

(** X28.  A round returns an error in two cases only: the daemon cannot
    list the containers, and then nothing is checked or sent; or updates were
    found and sending them failed, and then the error is the one of
    [SendImageUpdates].  Failed registry checks never fail the round: when
    every check of the batch fails, the round sends nothing and reports
    success.  [SendImageUpdates] is never called with an empty list. *)
Theorem performImageCheck_errors (s : Service) (w : World) (r : Report) :
  performImageCheck s w = Returns r ->
  (forall e, containersAnswer w = Err e ->
     r = {| returned := Some (ErrGetContainers (ErrListContainers e));
            sent := None |})
  /\ (forall containers, containersAnswer w = Ok containers ->
        match sent r with
        | None => returned r = None
        | Some updates =>
            updates <> [] /\ returned r = option_map Plain (sendAnswer w updates)
        end
        /\ (forallb (failed (registry s))
              (deliveries w (map imageCheckOf (filterContainers s (running w))))
            = true ->
            r = {| returned := None; sent := None |})).
Proof.
  intros Hround. split.
  - intros e Hanswer. unfold performImageCheck, Containers.GetRunningContainers in Hround.
    rewrite Hanswer in Hround. now injection Hround as <-.
  - intros containers Hanswer.
    rewrite (performImageCheck_listed s w containers Hanswer) in Hround.
    destruct (List.length (running w) =? 0)%nat;
      [injection Hround as <-; split; reflexivity|].
    destruct (List.length (filterContainers s (running w)) =? 0)%nat;
      [injection Hround as <-; split; reflexivity|].
    destruct (CheckMultipleImages _ _ _) as [[updateResults err]| |] eqn:Hbatch;
      try discriminate.
    cbv zeta in Hround.
    destruct (updatesOf _ updateResults) as [|update updates] eqn:Hupdates.
    + injection Hround as <-. split; reflexivity.
    + cbn [List.length Nat.ltb Nat.leb] in Hround. split.
      * destruct (sendAnswer w (update :: updates)) as [e|] eqn:Hsend;
          injection Hround as <-; cbn; rewrite Hsend; split; (discriminate || reflexivity).
      * intros Hfailed.
        rewrite (batch_all_failed _ _ _ _ _ Hbatch Hfailed) in Hupdates. discriminate.
Qed.

(** X29.  When every check of the batch is delivered, every update that a
    round sends concerns a container that went through
    [filterContainers]: it has its registry, repository and tag; the latest
    tag differs from that tag, which is not [latest].  The container name of
    the update is the name of the first filtered container of that registry
    and repository, whichever tag that one runs. *)
Theorem performImageCheck_updates (s : Service) (w : World) (r : Report)
    (updates : list ImageUpdate.update) :
  delivers w ->
  performImageCheck s w = Returns r ->
  sent r = Some updates ->
  forall update, In update updates ->
    (exists container,
       In container (filterContainers s (running w))
       /\ ImageUpdate.Registry update = ContainerInfo.Registry container
       /\ ImageUpdate.Repository update = ContainerInfo.Repository container
       /\ ImageUpdate.CurrentTag update = ContainerInfo.Tag container)
    /\ ImageUpdate.LatestTag update <> ImageUpdate.CurrentTag update
    /\ ImageUpdate.CurrentTag update <> "latest"
    /\ exists before first after,
         filterContainers s (running w) = (before ++ first :: after)%list
         /\ ContainerInfo.Registry first = ImageUpdate.Registry update
         /\ ContainerInfo.Repository first = ImageUpdate.Repository update
         /\ (forall other, In other before ->
               ~ (ContainerInfo.Registry other = ImageUpdate.Registry update
                  /\ ContainerInfo.Repository other = ImageUpdate.Repository update))
         /\ ImageUpdate.ContainerName update = ContainerInfo.Name first.
Proof.
  intros Hdelivers Hround Hsent update Hin.
  destruct (containersAnswer w) as [containers|e] eqn:Hanswer.
  2:{ unfold performImageCheck, Containers.GetRunningContainers in Hround.
      rewrite Hanswer in Hround. injection Hround as <-. discriminate. }
  rewrite (performImageCheck_listed s w containers Hanswer) in Hround.
  destruct (List.length (running w) =? 0)%nat;
    [injection Hround as <-; discriminate|].
  destruct (List.length (filterContainers s (running w)) =? 0)%nat;
    [injection Hround as <-; discriminate|].
  destruct (CheckMultipleImages _ _ _) as [[updateResults err]| |] eqn:Hbatch;
    try discriminate.
  cbv zeta in Hround.
  assert (updates = updatesOf (filterContainers s (running w)) updateResults) as ->.
  { destruct (0 <? _)%nat; [|injection Hround as <-; discriminate].
    destruct (sendAnswer w _); injection Hround as <-; cbn in Hsent; congruence. }
  clear Hround Hsent. unfold updatesOf in Hin.
  apply in_map_iff in Hin as (info & <- & Hinfo).
  apply filter_In in Hinfo as [Hinfo Hupdate].
  destruct (batch_origin _ _ _ _ _ Hbatch info Hinfo) as (image & env & Hjob & Hcheck).
  apply CheckImageUpdate_fields in Hcheck as (Hreg & Hrepo & Htag & Hnew).
  destruct (Hnew Hupdate) as [Hlatest Hcurrent].
  assert (In image (map imageCheckOf (filterContainers s (running w)))) as Himage.
  { apply (Permutation_in _ (Hdelivers _)).
    apply in_map_iff. exists (image, env). now split. }
  apply in_map_iff in Himage as (container & <- & Hcontainer).
  cbn [ImageUpdate.Registry ImageUpdate.Repository ImageUpdate.CurrentTag
       ImageUpdate.LatestTag ImageUpdate.ContainerName].
  cbn [imageCheckOf ImageCheck.Registry ImageCheck.Repository ImageCheck.Tag]
    in Hreg, Hrepo, Htag, Hlatest, Hcurrent.
  split; [exists container; auto|].
  split; [congruence|]. split; [congruence|].
  unfold containerNameFor.
  destruct (List.find _ (filterContainers s (running w))) as [first|] eqn:Hfind.
  - apply find_first in Hfind as (before & after & Hsplit & Hfirst & Hbefore).
    apply andb_true_iff in Hfirst as [Hr Hp].
    apply String.eqb_eq in Hr, Hp.
    exists before, first, after. repeat split; try assumption.
    intros other Hother [Hor Hop]. specialize (Hbefore other Hother).
    rewrite Hor, Hop, !String.eqb_refl in Hbefore. discriminate.
  - exfalso. revert Hfind. apply (find_none_of _ _ container Hcontainer).
    now rewrite <- Hreg, <- Hrepo, !String.eqb_refl.
Qed.

End WithUnicodeCase.

Lemma performImageCheck_errors_witness :
  @performImageCheck Strings.asciiOnly defaults
    (twoContainers (answered ["1.22.0"]) (Some (ErrExternal "smtp down")))
  = Returns
      {| returned := Some (Plain (ErrExternal "smtp down"));
         sent :=
           Some [ {| ImageUpdate.Registry := "docker.io";
                     ImageUpdate.Repository := "library/nginx";
                     ImageUpdate.CurrentTag := "1.21.0";
                     ImageUpdate.LatestTag := "1.22.0";
                     ImageUpdate.ContainerName := "web" |};
                  {| ImageUpdate.Registry := "docker.io";
                     ImageUpdate.Repository := "library/nginx";
                     ImageUpdate.CurrentTag := "1.20.0";
                     ImageUpdate.LatestTag := "1.22.0";
                     ImageUpdate.ContainerName := "web" |} ] |}
  /\ Some (Plain (ErrExternal "smtp down"))
     = option_map Plain (Some (ErrExternal "smtp down")).
Proof.
  assert (@performImageCheck Strings.asciiOnly defaults
            (twoContainers (answered ["1.22.0"]) (Some (ErrExternal "smtp down")))
          = Returns
              {| returned := Some (Plain (ErrExternal "smtp down"));
                 sent :=
                   Some [ {| ImageUpdate.Registry := "docker.io";
                             ImageUpdate.Repository := "library/nginx";
                             ImageUpdate.CurrentTag := "1.21.0";
                             ImageUpdate.LatestTag := "1.22.0";
                             ImageUpdate.ContainerName := "web" |};
                          {| ImageUpdate.Registry := "docker.io";
                             ImageUpdate.Repository := "library/nginx";
                             ImageUpdate.CurrentTag := "1.20.0";
                             ImageUpdate.LatestTag := "1.22.0";
                             ImageUpdate.ContainerName := "web" |} ] |})
    as Hround by (vm_compute; reflexivity).
  split; [exact Hround|].
  exact (proj2 (proj1 (proj2 (@performImageCheck_errors Strings.asciiOnly _ _ _ Hround)
                         _ eq_refl))).
Defined.

Lemma performImageCheck_updates_witness :
  "1.22.0" <> "1.20.0" /\ "1.20.0" <> "latest".
Proof.
  assert (delivers (twoContainers (answered ["1.22.0"]) None)) as Hdelivers.
  { intros images. cbn. rewrite map_map. cbn. rewrite map_id. reflexivity. }
  assert (@performImageCheck Strings.asciiOnly defaults
            (twoContainers (answered ["1.22.0"]) None)
          = Returns
              {| returned := None;
                 sent :=
                   Some [ {| ImageUpdate.Registry := "docker.io";
                             ImageUpdate.Repository := "library/nginx";
                             ImageUpdate.CurrentTag := "1.21.0";
                             ImageUpdate.LatestTag := "1.22.0";
                             ImageUpdate.ContainerName := "web" |};
                          {| ImageUpdate.Registry := "docker.io";
                             ImageUpdate.Repository := "library/nginx";
                             ImageUpdate.CurrentTag := "1.20.0";
                             ImageUpdate.LatestTag := "1.22.0";
                             ImageUpdate.ContainerName := "web" |} ] |})
    as Hround by (vm_compute; reflexivity).
  destruct (@performImageCheck_updates Strings.asciiOnly _ _ _ _ Hdelivers Hround eq_refl
              {| ImageUpdate.Registry := "docker.io";
                 ImageUpdate.Repository := "library/nginx";
                 ImageUpdate.CurrentTag := "1.20.0";
                 ImageUpdate.LatestTag := "1.22.0";
                 ImageUpdate.ContainerName := "web" |}
              (or_intror (or_introl eq_refl)))
    as (_ & Hlatest & Hcurrent & _).
  split; [exact Hlatest | exact Hcurrent].
Defined.

End RoundProps.


(** ** Printing a reference and parsing it again *)

Module RoundTrip.
Import Regexp RegexpSem RegexpSemProps Grammar GrammarProps.
Import Docker ReferenceNotions ReferenceProps.

(** What [String] prints for a parsed reference, part by part: the tag
    alone when there is one, which is [latest] for a text with neither tag
    nor digest, and else the digest. *)
Lemma String_parts (image reg ns name tag digest : string) :
  optional_run not_at tag -> optional_run any_but_newline digest ->
  let ir := referenceOf image reg ns name tag digest in
  exists t2 d2,
    String_ ir
    = Registry ir ++ "/" ++ Repository ir
      ++ preceded_by ":" t2 ++ preceded_by "@" d2
    /\ Tag ir = t2
    /\ (if String.eqb (Tag ir) "" then Digest ir else "") = d2
    /\ optional_run not_at t2 /\ optional_run any_but_newline d2
    /\ ((tag = "" /\ digest = "" /\ t2 = "latest" /\ d2 = "")
        \/ (tag = "" /\ digest <> "" /\ t2 = "" /\ d2 = digest)
        \/ (tag <> "" /\ t2 = tag /\ d2 = "")).
Proof.
  intros Htag Hdigest ir. unfold ir, referenceOf, String_.
  cbn [Registry Repository Tag Digest].
  destruct (String.eqb_spec tag "") as [->|Hne].
  - destruct (String.eqb_spec digest "") as [->|Hne'].
    + exists "latest", "". cbn [andb String.eqb negb Ascii.eqb Bool.eqb].
      split; [reflexivity|]. split; [reflexivity|]. split; [reflexivity|].
      split; [right; split; [discriminate | reflexivity]|].
      split; [now left|]. left. auto.
    + exists "", digest. cbn [andb String.eqb negb].
      split; [unfold preceded_by; rewrite ?(proj2 (String.eqb_neq digest "") Hne');
              reflexivity|].
      split; [reflexivity|]. split; [reflexivity|].
      split; [now left|]. split; [exact Hdigest|]. right. left. auto.
  - exists tag, "". cbn [andb]. rewrite ?(proj2 (String.eqb_neq tag "") Hne). cbn [negb].
    split; [unfold preceded_by; rewrite ?(proj2 (String.eqb_neq tag "") Hne); cbn;
            now rewrite string_app_nil_r|].
    split; [reflexivity|]. split; [reflexivity|].
    split; [exact Htag|]. split; [now left|]. right. right. auto.
Qed.

Lemma name_no_at (name : string) :
  run_of not_colon_at_slash name -> Strings.all_bytes not_at name = true.
Proof.
  intros [_ Hall]. apply (all_bytes_weaken not_colon_at_slash); [|exact Hall].
  intros a. unfold not_colon_at_slash, not_at.
  destruct (Ascii.eqb a "@"); [now rewrite orb_true_r | reflexivity].
Qed.

(** A text without an at sign has the shape only without a digest. *)
Lemma no_at_no_digest (s reg ns name tag digest : string) :
  referenceShape s reg ns name tag digest ->
  Strings.all_bytes not_at s = true -> digest = "".
Proof.
  intros (-> & _) Hall.
  destruct (String.eqb_spec digest "") as [->|Hne]; [reflexivity|]. exfalso.
  rewrite !all_bytes_app in Hall. unfold preceded_by at 2 in Hall.
  rewrite (proj2 (String.eqb_neq digest "") Hne) in Hall. cbn in Hall.
  now rewrite !andb_false_r in Hall.
Qed.

(** Printing a reference that was read with a registry and without a
    namespace gives a text that cannot be read with a namespace either. *)
Lemma reprint_no_namespace (image reg name tag digest t2 d2 : string) :
  preferred image reg "" name tag digest -> reg <> "" ->
  (tag = "" /\ digest = "" /\ t2 = "latest" /\ d2 = "")
  \/ (tag = "" /\ digest <> "" /\ t2 = "" /\ d2 = digest)
  \/ (tag <> "" /\ t2 = tag /\ d2 = "") ->
  forall ns' name' tag' digest',
    referenceShape (name ++ preceded_by ":" t2 ++ preceded_by "@" d2)
      "" ns' name' tag' digest' ->
    ns' = "".
Proof.
  intros (Hshape & _ & Hprefer) Hne Hcases ns' name' tag' digest' Hshape'.
  destruct (String.eqb_spec ns' "") as [->|Hns']; [reflexivity|]. exfalso.
  apply Hns'.
  pose proof Hshape as (_ & _ & _ & Hname & Htag & Hdigest).
  apply (referenceShape_registry _ _ _ _ _ _ Hne) in Hshape as (rest & -> & Hreg & Hrest).
  pose proof Hrest as (Heq & _).
  change (followed_by "" "/" ++ followed_by "" "/" ++ ?x) with x in Heq. subst rest.
  destruct Hcases as [(-> & -> & -> & ->)|[(-> & Hd & -> & ->)|(Ht & -> & ->)]].
  - assert (Strings.all_bytes not_slash
              (name ++ preceded_by ":" "latest" ++ preceded_by "@" "") = true) as Hnone
      by (apply tail_no_slash; [exact Hname | reflexivity | reflexivity]).
    rewrite (segment_has_slash _ _ _ _ _ _ Hshape') in Hnone by now right.
    discriminate.
  - apply (Hprefer eq_refl ns' name' tag' digest').
    apply (referenceShape_registry _ _ _ _ _ _ Hne). eauto.
  - assert (digest' = "") as ->.
    { apply (no_at_no_digest _ _ _ _ _ _ Hshape').
      rewrite !all_bytes_app, (name_no_at name Hname). unfold preceded_by.
      rewrite (proj2 (String.eqb_neq tag "") Ht). cbn.
      destruct Htag as [?|[_ Htag]]; [contradiction|]. now rewrite Htag. }
    apply (Hprefer eq_refl ns' name' tag' digest).
    apply (referenceShape_registry _ _ _ _ _ _ Hne). eexists.
    split; [reflexivity|]. split; [exact Hreg|].
    destruct Hshape' as (Heq & Hr' & Hn' & Hname' & Htag' & _).
    split; [|repeat split; try assumption; apply Hname'].
    change (preceded_by "@" "") with "" in Heq.
    rewrite !string_app_nil_r in Heq.
    change (followed_by "" "/" ++ ?x) with x in Heq |- *.
    rewrite <- !string_app_assoc in Heq.
    rewrite <- (string_app_assoc name), Heq, !string_app_assoc. reflexivity.
Qed.

(** X30.  What [String] prints for a parsed reference parses again, to a
    reference with the same registry, repository and tag.  The digest
    survives only when there is no tag, since [String] prints the one or the
    other; and an official image of Docker Hub comes back with the namespace
    [library], which the first parse left empty. *)
Theorem String_round_trip (image : string) (ir : ImageReference) :
  ParseImageReference image = Ok ir ->
  exists ir',
    ParseImageReference (String_ ir) = Ok ir'
    /\ Registry ir' = Registry ir
    /\ Repository ir' = Repository ir
    /\ Tag ir' = Tag ir
    /\ Digest ir' = (if String.eqb (Tag ir) "" then Digest ir else "")
    /\ Namespace ir'
       = if String.eqb (Namespace ir) ""
         then (if String.eqb (Registry ir) "docker.io" then "library" else "")
         else Namespace ir.
Proof.
  intros Hparse.
  apply parsed_preferred in Hparse as (reg & ns & name & tag & digest & Hpref & ->).
  pose proof Hpref as (Hshape & _).
  pose proof Hshape as (_ & Hreg & Hns & Hname & Htag & Hdigest).
  destruct (String_parts image reg ns name tag digest Htag Hdigest)
    as (t2 & d2 & Hprint & Ht2 & Hd2 & Hrun2 & Hrund2 & Hcases).
  rewrite Hprint, Hd2, Ht2. clear Hprint Hd2.
  assert ((if String.eqb t2 "" && String.eqb d2 "" then "latest" else t2) = t2) as Hkeep.
  { destruct Hcases as [(_ & _ & -> & ->)|[(_ & Hd & -> & ->)|(Ht & -> & ->)]].
    - reflexivity.
    - cbn. now rewrite (proj2 (String.eqb_neq digest "") Hd).
    - now rewrite (proj2 (String.eqb_neq tag "") Ht). }
  unfold referenceOf in Ht2 |- *. cbn [Registry Namespace Repository Tag Digest] in Ht2 |- *.
  destruct (String.eqb_spec ns "") as [->|Hne].
  - destruct (String.eqb_spec (if String.eqb reg "" then "docker.io" else reg) "docker.io")
      as [Hhub|Hother].
    + rewrite Hhub.
      assert (run_of not_slash "docker.io") as Hr by (split; [discriminate | reflexivity]).
      assert (run_of not_slash "library") as Hl by (split; [discriminate | reflexivity]).
      pose proof (preferred_parses _ _ _ _ _ _
                    (preferred_namespace "docker.io" "library" name t2 d2
                       Hr Hl Hname Hrun2 Hrund2)) as Hagain.
      replace ("docker.io" ++ "/" ++ ("library/" ++ name)
               ++ preceded_by ":" t2 ++ preceded_by "@" d2)
        with ("docker.io" ++ "/" ++ "library" ++ "/" ++ name
              ++ preceded_by ":" t2 ++ preceded_by "@" d2)
        by (now rewrite (string_app_assoc "library/")).
      rewrite Hagain. eexists. split; [reflexivity|].
      unfold referenceOf. cbn [Registry Namespace Repository Tag Digest].
      rewrite Hkeep. repeat split; reflexivity.
    + destruct (String.eqb_spec reg "") as [->|Hreg']; [contradiction|].
      destruct Hreg as [?|Hreg]; [contradiction|].
      pose proof (preferred_parses _ _ _ _ _ _
                    (preferred_registry reg _ name t2 d2 Hreg
                       (conj eq_refl
                          (conj (or_introl eq_refl)
                             (conj (or_introl eq_refl)
                                (conj Hname (conj Hrun2 Hrund2)))))
                       (reprint_no_namespace image reg name tag digest t2 d2
                          Hpref Hreg' Hcases))) as Hagain.
      change (followed_by "" "/" ++ followed_by "" "/" ++ ?x) with x in Hagain.
      rewrite Hagain. eexists. split; [reflexivity|].
      unfold referenceOf. cbn [Registry Namespace Repository Tag Digest].
      rewrite Hkeep, (proj2 (String.eqb_neq reg "") Hreg').
      rewrite (proj2 (String.eqb_neq reg "docker.io") Hother).
      repeat split; reflexivity.
  - pose proof (preferred_namespace_after_registry _ _ _ _ _ _ Hpref Hne) as Hreg'.
    rewrite (proj2 (String.eqb_neq reg "") Hreg').
    destruct Hreg as [?|Hreg]; [contradiction|].
    destruct Hns as [?|Hns]; [contradiction|].
    pose proof (preferred_parses _ _ _ _ _ _
                  (preferred_namespace reg ns name t2 d2
                     Hreg Hns Hname Hrun2 Hrund2)) as Hagain.
    replace (reg ++ "/" ++ (ns ++ "/" ++ name)
             ++ preceded_by ":" t2 ++ preceded_by "@" d2)
      with (reg ++ "/" ++ ns ++ "/" ++ name
            ++ preceded_by ":" t2 ++ preceded_by "@" d2)
      by (now rewrite (string_app_assoc ns)).
    rewrite Hagain. eexists. split; [reflexivity|].
    unfold referenceOf. cbn [Registry Namespace Repository Tag Digest].
    rewrite Hkeep, (proj2 (String.eqb_neq reg "") Hreg'),
      (proj2 (String.eqb_neq ns "") Hne).
    repeat split; reflexivity.
Qed.

Lemma String_round_trip_witness :
  exists ir',
    ParseImageReference "docker.io/library/nginx:1.21" = Ok ir'
    /\ Registry ir' = "docker.io"
    /\ Repository ir' = "library/nginx"
    /\ Tag ir' = "1.21"
    /\ Digest ir' = ""
    /\ Namespace ir' = "library".
Proof.
  assert (ParseImageReference "nginx:1.21@sha256:0a1b"
          = Ok {| Registry := "docker.io"; Namespace := "";
                  Repository := "library/nginx"; Tag := "1.21";
                  Digest := "sha256:0a1b";
                  FullName := "nginx:1.21@sha256:0a1b" |}) as Hparse
    by (vm_compute; reflexivity).
  exact (String_round_trip _ _ Hparse).
Defined.

End RoundTrip.


(** ** The goroutines of [CheckMultipleImages] *)

Module BatchProps.
Import Registry Batch.

(** *** Sums and lists over the goroutines *)

Lemma list_sum_insert {A} (g : A -> nat) (l : list A) (i : nat) (x y : A) :
  l !! i = Some x ->
  (list_sum (map g (<[i := y]> l)) + g x = list_sum (map g l) + g y)%nat.
Proof.
  revert i. induction l as [|a l IH]; intros [|i] Hi; try discriminate.
  - injection Hi as ->. simpl. lia.
  - simpl in *. specialize (IH i Hi). lia.
Qed.

Lemma flat_map_insert {A B} (f : A -> list B) (l : list A) (i : nat) (x y : A) :
  l !! i = Some x ->
  exists rest,
    Permutation (flat_map f l) (f x ++ rest)
    /\ Permutation (flat_map f (<[i := y]> l)) (f y ++ rest).
Proof.
  revert i. induction l as [|a l IH]; intros [|i] Hi; try discriminate.
  - injection Hi as ->. exists (flat_map f l). split; reflexivity.
  - simpl in Hi. destruct (IH i Hi) as (rest & H1 & H2).
    exists (f a ++ rest)%list. cbn [flat_map]. split.
    + rewrite H1. rewrite !app_assoc. apply Permutation_app_tail, Permutation_app_comm.
    + change (<[S i := y]> (a :: l)) with (a :: <[i := y]> l). cbn [flat_map].
      rewrite H2. rewrite !app_assoc. apply Permutation_app_tail, Permutation_app_comm.
Qed.

Lemma map_job_insert (l : list worker) (i : nat) (w x : worker) :
  l !! i = Some w -> job x = job w -> map job (<[i := x]> l) = map job l.
Proof.
  revert i. induction l as [|a l IH]; intros [|i] Hi Hx; try discriminate.
  - injection Hi as ->. cbn. now rewrite Hx.
  - simpl in *. f_equal. now apply IH.
Qed.

Lemma list_sum_lookup {A} (g : A -> nat) (l : list A) (i : nat) (x : A) :
  l !! i = Some x -> (g x <= list_sum (map g l))%nat.
Proof.
  revert i. induction l as [|a l IH]; intros [|i] Hi; try discriminate.
  - injection Hi as ->. simpl. lia.
  - simpl in *. specialize (IH i Hi). lia.
Qed.

Lemma list_sum_none {A} (g : A -> nat) (l : list A) :
  (forall x, In x l -> g x = 0%nat) -> list_sum (map g l) = 0%nat.
Proof.
  induction l as [|a l IH]; intros Hall; [reflexivity|]. simpl.
  rewrite (Hall a) by now left. apply IH. intros x Hx. apply Hall. now right.
Qed.

Lemma lookup_In {A} (l : list A) (i : nat) (x : A) : l !! i = Some x -> In x l.
Proof.
  revert i. induction l as [|a l IH]; intros [|i] Hi; try discriminate.
  - injection Hi as ->. now left.
  - right. exact (IH i Hi).
Qed.

Lemma delivered_once (p : wpc) : (List.length (delivered p) <= 1)%nat.
Proof. destruct p; simpl; lia. Qed.

Lemma delivered_bound (ws : list worker) :
  (List.length (flat_map (fun w => delivered (at_wpc w)) ws) <= List.length ws)%nat.
Proof.
  induction ws as [|w ws IH]; [reflexivity|]. cbn [flat_map].
  rewrite length_app. pose proof (delivered_once (at_wpc w)). simpl. lia.
Qed.

Lemma delivered_short (ws : list worker) (i : nat) (w : worker) :
  ws !! i = Some w -> delivered (at_wpc w) = [] ->
  (List.length (flat_map (fun w => delivered (at_wpc w)) ws) < List.length ws)%nat.
Proof.
  revert i. induction ws as [|a ws IH]; intros [|i] Hi Hnone; try discriminate.
  - injection Hi as ->. cbn [flat_map]. rewrite Hnone.
    pose proof (delivered_bound ws). simpl. lia.
  - cbn [flat_map]. rewrite length_app.
    pose proof (delivered_once (at_wpc a)). specialize (IH i Hi Hnone). simpl. lia.
Qed.

Lemma delivered_all (ws : list worker) :
  List.length (flat_map (fun w => delivered (at_wpc w)) ws) = List.length ws ->
  forall w, In w ws -> delivered (at_wpc w) <> [].
Proof.
  induction ws as [|a ws IH]; intros Hlen w Hin; [destruct Hin|].
  cbn [flat_map] in Hlen. rewrite length_app in Hlen. simpl in Hlen.
  pose proof (delivered_once (at_wpc a)). pose proof (delivered_bound ws).
  destruct Hin as [<-|Hin].
  - intros Hnone. rewrite Hnone in Hlen. simpl in Hlen. lia.
  - apply IH; [lia | exact Hin].
Qed.

Lemma lookup_launched (jobs : list (ImageCheck.t * option Answers)) (i : nat)
    (w : worker) :
  map (fun j => {| job := j; at_wpc := WAcquire |}) jobs !! i = Some w ->
  at_wpc w = WAcquire.
Proof.
  revert i. induction jobs as [|j jobs IH]; intros [|i] Hi; try discriminate.
  - now injection Hi as <-.
  - exact (IH i Hi).
Qed.

Lemma list_sum_some {A} (g : A -> nat) (l : list A) :
  (0 < list_sum (map g l))%nat -> exists i x, l !! i = Some x /\ (0 < g x)%nat.
Proof.
  induction l as [|a l IH]; simpl; [lia|]. intros Hpos.
  destruct (g a) as [|n] eqn:Hga.
  - destruct IH as (i & x & Hi & Hx); [lia|]. exists (S i), x. now split.
  - exists 0%nat, a. split; [reflexivity | lia].
Qed.

Lemma list_sum_le {A} (f g : A -> nat) (l : list A) :
  (forall x, (f x <= g x)%nat) -> (list_sum (map f l) <= list_sum (map g l))%nat.
Proof.
  intros Hfg. induction l as [|a l IH]; simpl; [lia|]. specialize (Hfg a). lia.
Qed.

(** When every goroutine has returned, each has delivered its result. *)
Lemma returned_delivered (ws : list worker) :
  list_sum (map (fun w => rank (at_wpc w)) ws) = 0%nat ->
  List.length (flat_map (fun w => delivered (at_wpc w)) ws) = List.length ws.
Proof.
  induction ws as [|w ws IH]; [reflexivity|]. simpl. intros Hsum.
  rewrite length_app, IH by lia.
  destruct (at_wpc w); simpl in *; lia.
Qed.

Section WithUnicodeCase.
Context `{Strings.UnicodeCase}.

(** *** The accounting holds in every state of a run *)

Lemma accounted_launched (c : Client) (jobs : list (ImageCheck.t * option Answers))
    (size : nat) :
  accounted c jobs size
    {| capacity := size; sem := 0;
       workers := map (fun j => {| job := j; at_wpc := WAcquire |}) jobs;
       results := []; received := [] |}.
Proof.
  split; cbn [capacity sem workers results received].
  - rewrite map_map. cbn. apply map_id.
  - reflexivity.
  - symmetry. apply list_sum_none. intros w Hin.
    apply in_map_iff in Hin as (j & <- & _). reflexivity.
  - lia.
  - apply List.Forall_forall. intros w Hin.
    apply in_map_iff in Hin as (j & <- & _). exact I.
  - induction jobs as [|j jobs IH]; [reflexivity | exact IH].
Qed.

Lemma accounted_step (c : Client) (jobs : list (ImageCheck.t * option Answers))
    (size : nat) (s s' : state) (a : op) :
  accounted c jobs size s -> step c s a = Some s' -> accounted c jobs size s'.
Proof.
  intros [Hjobs Hsize Hsem Hle Hbuilt Hsent] Hstep.
  destruct a as [i|i j|i|i|i|]; cbn [step] in Hstep.
  - destruct (workers s !! i) as [w|] eqn:Hw; [|discriminate].
    destruct (at_wpc w) eqn:Hat; try discriminate.
    destruct (Nat.ltb_spec (sem s) (capacity s)); [|discriminate].
    injection Hstep as <-. unfold at_point.
    pose proof (list_sum_insert (fun w => in_slot (at_wpc w)) _ i w
                  {| job := job w; at_wpc := WCheck |} Hw) as Hsum.
    destruct (flat_map_insert (fun w => delivered (at_wpc w)) _ i w
                {| job := job w; at_wpc := WCheck |} Hw) as (rest & Hold & Hnew).
    cbn [at_wpc] in Hsum, Hnew. rewrite Hat in Hsum, Hold.
    cbn [in_slot delivered app] in Hsum, Hold, Hnew.
    split; cbn [capacity sem workers results received].
    + rewrite map_job_insert with (w := w); [exact Hjobs | exact Hw | reflexivity].
    + exact Hsize.
    + lia.
    + lia.
    + apply Forall_insert; [exact Hbuilt | exact I].
    + now rewrite Hnew, <- Hold.
  - destruct (workers s !! i) as [w|] eqn:Hw; [|discriminate].
    destruct (workers s !! j) as [v|] eqn:Hv; [|discriminate].
    destruct (at_wpc w) eqn:Hat; try discriminate.
    destruct (at_wpc v) eqn:Hat'; try discriminate.
    destruct (Nat.eqb_spec (sem s) 0) as [Hzero|]; [|discriminate].
    exfalso.
    pose proof (list_sum_lookup (fun w => in_slot (at_wpc w)) _ j v Hv) as Hone.
    cbn in Hone. rewrite Hat' in Hone. cbn in Hone. lia.
  - destruct (workers s !! i) as [w|] eqn:Hw; [|discriminate].
    destruct (at_wpc w) eqn:Hat; try discriminate.
    destruct (job w) as [imageCheck [env|]] eqn:Hjob; [|discriminate].
    injection Hstep as <-. unfold at_point.
    match goal with
    | |- context [<[i := ?x]> (workers s)] =>
        pose proof (list_sum_insert (fun w => in_slot (at_wpc w)) _ i w x Hw)
          as Hsum;
        destruct (flat_map_insert (fun w => delivered (at_wpc w)) _ i w x Hw)
          as (rest & Hold & Hnew);
        pose proof (map_job_insert (workers s) i w x Hw) as Hsame
    end.
    cbn [at_wpc job] in Hsum, Hnew, Hsame. rewrite Hat in Hsum, Hold.
    cbn [in_slot delivered app] in Hsum, Hold, Hnew.
    split; cbn [capacity sem workers results received].
    + rewrite Hsame; [exact Hjobs | reflexivity].
    + exact Hsize.
    + lia.
    + lia.
    + apply Forall_insert; [exact Hbuilt|]. unfold built.
      cbn [at_wpc job]. exists imageCheck, env. split; [exact Hjob | reflexivity].
    + now rewrite Hnew, <- Hold.
  - destruct (workers s !! i) as [w|] eqn:Hw; [|discriminate].
    destruct (at_wpc w) eqn:Hat; try discriminate.
    destruct (Nat.ltb_spec (List.length (results s)) (List.length (workers s)));
      [|discriminate].
    injection Hstep as <-. unfold at_point.
    pose proof (list_sum_insert (fun w => in_slot (at_wpc w)) _ i w
                  {| job := job w; at_wpc := WRelease r |} Hw) as Hsum.
    destruct (flat_map_insert (fun w => delivered (at_wpc w)) _ i w
                {| job := job w; at_wpc := WRelease r |} Hw) as (rest & Hold & Hnew).
    cbn [at_wpc] in Hsum, Hnew. rewrite Hat in Hsum, Hold.
    cbn [in_slot delivered app] in Hsum, Hold, Hnew.
    pose proof (Forall_lookup_1 _ _ _ _ Hbuilt Hw) as Hw'.
    unfold built in Hw'. rewrite Hat in Hw'.
    split; cbn [capacity sem workers results received].
    + rewrite map_job_insert with (w := w); [exact Hjobs | exact Hw | reflexivity].
    + exact Hsize.
    + lia.
    + lia.
    + apply Forall_insert; [exact Hbuilt | exact Hw'].
    + rewrite Hnew, app_assoc, Hsent, Hold. symmetry. apply Permutation_cons_append.
  - destruct (workers s !! i) as [w|] eqn:Hw; [|discriminate].
    destruct (at_wpc w) eqn:Hat; try discriminate.
    destruct (sem s) as [|n] eqn:Hn; [discriminate|].
    injection Hstep as <-. unfold at_point.
    pose proof (list_sum_insert (fun w => in_slot (at_wpc w)) _ i w
                  {| job := job w; at_wpc := WDone r |} Hw) as Hsum.
    destruct (flat_map_insert (fun w => delivered (at_wpc w)) _ i w
                {| job := job w; at_wpc := WDone r |} Hw) as (rest & Hold & Hnew).
    cbn [at_wpc] in Hsum, Hnew. rewrite Hat in Hsum, Hold.
    cbn [in_slot delivered app] in Hsum, Hold, Hnew.
    pose proof (Forall_lookup_1 _ _ _ _ Hbuilt Hw) as Hw'.
    unfold built in Hw'. rewrite Hat in Hw'.
    split; cbn [capacity sem workers results received].
    + rewrite map_job_insert with (w := w); [exact Hjobs | exact Hw | reflexivity].
    + exact Hsize.
    + lia.
    + lia.
    + apply Forall_insert; [exact Hbuilt | exact Hw'].
    + now rewrite Hnew, <- Hold.
  - destruct (finished s); [discriminate|].
    destruct (results s) as [|r rest] eqn:Hresults; [discriminate|].
    injection Hstep as <-.
    split; cbn [capacity sem workers results received]; try assumption.
    now rewrite <- app_assoc.
Qed.

Lemma runs_accounted (c : Client) (jobs : list (ImageCheck.t * option Answers))
    (size : nat) (s0 s : state) :
  accounted c jobs size s0 -> runs c s0 s -> accounted c jobs size s.
Proof.
  intros Hstart Hruns. induction Hruns as [|s a s' _ IH Hstep]; [exact Hstart|].
  exact (accounted_step c jobs size s s' a IH Hstep).
Qed.

(** *** Every step uses up work *)

Lemma step_decreases (c : Client) (s s' : state) (a : op) :
  step c s a = Some s' -> (work_left s' < work_left s)%nat.
Proof.
  intros Hstep. unfold work_left.
  destruct a as [i|i j|i|i|i|]; cbn [step] in Hstep.
  - destruct (workers s !! i) as [w|] eqn:Hw; [|discriminate].
    destruct (at_wpc w) eqn:Hat; try discriminate.
    destruct (sem s <? capacity s)%nat; [|discriminate].
    injection Hstep as <-. unfold at_point. cbn [workers results].
    pose proof (list_sum_insert (fun w => rank (at_wpc w)) _ i w
                  {| job := job w; at_wpc := WCheck |} Hw) as Hsum.
    cbn [at_wpc] in Hsum. rewrite Hat in Hsum. cbn [rank] in Hsum. lia.
  - destruct (workers s !! i) as [w|] eqn:Hw; [|discriminate].
    destruct (workers s !! j) as [v|] eqn:Hv; [|discriminate].
    destruct (at_wpc w) eqn:Hat; try discriminate.
    destruct (at_wpc v) eqn:Hat'; try discriminate.
    destruct (sem s =? 0)%nat; [|discriminate].
    injection Hstep as <-. unfold at_point. cbn [workers results].
    assert (i <> j) as Hij.
    { intros ->. rewrite Hw in Hv. injection Hv as ->. congruence. }
    pose proof (list_sum_insert (fun w => rank (at_wpc w)) _ i w
                  {| job := job w; at_wpc := WCheck |} Hw) as Hsum.
    assert (<[i := {| job := job w; at_wpc := WCheck |}]> (workers s) !! j = Some v)
      as Hv' by now rewrite list_lookup_insert_ne.
    pose proof (list_sum_insert (fun w => rank (at_wpc w)) _ j v
                  {| job := job v; at_wpc := WDone r |} Hv') as Hsum'.
    cbn [at_wpc] in Hsum, Hsum'. rewrite Hat in Hsum. rewrite Hat' in Hsum'.
    cbn [rank] in Hsum, Hsum'. lia.
  - destruct (workers s !! i) as [w|] eqn:Hw; [|discriminate].
    destruct (at_wpc w) eqn:Hat; try discriminate.
    destruct (job w) as [imageCheck [env|]] eqn:Hjob; [|discriminate].
    injection Hstep as <-. unfold at_point. cbn [workers results].
    match goal with
    | |- context [<[i := ?x]> (workers s)] =>
        pose proof (list_sum_insert (fun w => rank (at_wpc w)) _ i w x Hw) as Hsum
    end.
    cbn [at_wpc] in Hsum. rewrite Hat in Hsum. cbn [rank] in Hsum. lia.
  - destruct (workers s !! i) as [w|] eqn:Hw; [|discriminate].
    destruct (at_wpc w) eqn:Hat; try discriminate.
    destruct (List.length (results s) <? List.length (workers s))%nat; [|discriminate].
    injection Hstep as <-. unfold at_point. cbn [workers results].
    pose proof (list_sum_insert (fun w => rank (at_wpc w)) _ i w
                  {| job := job w; at_wpc := WRelease r |} Hw) as Hsum.
    cbn [at_wpc] in Hsum. rewrite Hat in Hsum. cbn [rank] in Hsum.
    rewrite length_app. simpl. lia.
  - destruct (workers s !! i) as [w|] eqn:Hw; [|discriminate].
    destruct (at_wpc w) eqn:Hat; try discriminate.
    destruct (sem s) as [|n]; [discriminate|].
    injection Hstep as <-. unfold at_point. cbn [workers results].
    pose proof (list_sum_insert (fun w => rank (at_wpc w)) _ i w
                  {| job := job w; at_wpc := WDone r |} Hw) as Hsum.
    cbn [at_wpc] in Hsum. rewrite Hat in Hsum. cbn [rank] in Hsum. lia.
  - destruct (finished s); [discriminate|].
    destruct (results s) as [|r rest]; [discriminate|].
    injection Hstep as <-. cbn [workers results]. simpl. lia.
Qed.

(** *** No deadlock while the loop waits *)

Lemma slot_holder_moves (c : Client) (jobs : list (ImageCheck.t * option Answers))
    (size : nat) (s : state) (i : nat) (w : worker) :
  accounted c jobs size s -> all_return jobs ->
  workers s !! i = Some w -> in_slot (at_wpc w) = 1%nat ->
  exists a s', step c s a = Some s'.
Proof.
  intros [Hjobs Hsize Hsem Hle Hbuilt Hsent] Hret Hw Hadm.
  destruct (at_wpc w) as [| |r|r|r] eqn:Hat; try discriminate.
  - destruct (job w) as [imageCheck [env|]] eqn:Hjob.
    + exists (Check i). eexists. cbn [step]. rewrite Hw, Hat, Hjob. reflexivity.
    + exfalso. pose proof (lookup_In _ _ _ Hw) as Hin.
      apply (in_map job) in Hin. rewrite Hjobs in Hin.
      unfold all_return in Hret. rewrite List.Forall_forall in Hret.
      apply (Hret _ Hin). rewrite Hjob. reflexivity.
  - exists (Send i). eexists. cbn [step]. rewrite Hw, Hat.
    assert (List.length (results s) < List.length (workers s))%nat as Hlt.
    { pose proof (delivered_short _ _ _ Hw) as Hshort. rewrite Hat in Hshort.
      specialize (Hshort eq_refl).
      apply Permutation_length in Hsent. rewrite length_app in Hsent. lia. }
    apply Nat.ltb_lt in Hlt. rewrite Hlt. reflexivity.
  - pose proof (list_sum_lookup (fun w => in_slot (at_wpc w)) _ _ _ Hw) as Hone.
    cbn beta in Hone. rewrite Hat in Hone. cbn [in_slot] in Hone.
    rewrite <- Hsem in Hone.
    destruct (sem s) as [|n] eqn:Hn; [lia|].
    exists (Release i). eexists. cbn [step]. rewrite Hw, Hat, Hn. reflexivity.
Qed.

Lemma step_progress (c : Client) (jobs : list (ImageCheck.t * option Answers))
    (size : nat) (s : state) :
  accounted c jobs size s -> (0 < size)%nat -> all_return jobs ->
  finished s = false ->
  exists a s', step c s a = Some s'.
Proof.
  intros Hacc Hsize Hret Hfin.
  destruct (Nat.eq_dec (list_sum (map (fun w => rank (at_wpc w)) (workers s))) 0%nat)
    as [Hdone|Hleft].
  - pose proof (returned_delivered _ Hdone) as Hlen.
    destruct Hacc as [_ _ _ _ _ Hsent]. apply Permutation_length in Hsent.
    rewrite length_app, Hlen in Hsent.
    pose proof Hfin as Hopen. unfold finished in Hopen. apply Nat.eqb_neq in Hopen.
    destruct (results s) as [|r rest] eqn:Hres; [simpl in Hsent; lia|].
    exists Receive. eexists. cbn [step]. rewrite Hfin, Hres. reflexivity.
  - destruct (list_sum_some (fun w => rank (at_wpc w)) (workers s))
      as (i & w & Hw & Hrank); [lia|].
    destruct (at_wpc w) as [| |r|r|r] eqn:Hat; cbn [rank] in Hrank.
    + destruct (Nat.ltb_spec (sem s) (capacity s)) as [Hfree|Hfull].
      * exists (Acquire i). eexists. cbn [step]. rewrite Hw, Hat.
        apply Nat.ltb_lt in Hfree. rewrite Hfree. reflexivity.
      * destruct (list_sum_some (fun w => in_slot (at_wpc w)) (workers s))
          as (j & v & Hv & Hadm).
        { destruct Hacc as [_ Hcap Hsem _ _ _]. rewrite <- Hsem. lia. }
        apply (slot_holder_moves c jobs size s j v Hacc Hret Hv).
        destruct (at_wpc v); cbn [in_slot] in *; lia.
    + apply (slot_holder_moves c jobs size s i w Hacc Hret Hw). now rewrite Hat.
    + apply (slot_holder_moves c jobs size s i w Hacc Hret Hw). now rewrite Hat.
    + apply (slot_holder_moves c jobs size s i w Hacc Hret Hw). now rewrite Hat.
    + lia.
Qed.

(** Whatever has been done so far, the steps that are left bring the loop
    to its end. *)
Lemma run_completes (c : Client) (jobs : list (ImageCheck.t * option Answers))
    (size : nat) :
  (0 < size)%nat -> all_return jobs ->
  forall (n : nat) (s : state),
    (work_left s <= n)%nat -> accounted c jobs size s ->
    exists ops s', play c s ops = Some s' /\ finished s' = true.
Proof.
  intros Hsize Hret. induction n as [|n IH]; intros s Hn Hacc;
    destruct (finished s) eqn:Hfin; try (exists [], s; now split);
    destruct (step_progress c jobs size s Hacc Hsize Hret Hfin) as (a & s1 & Hstep);
    pose proof (step_decreases c s s1 a Hstep) as Hless; [lia|].
  destruct (IH s1) as (ops & s' & Hplay & Hend);
    [lia | exact (accounted_step c jobs size s s1 a Hacc Hstep) |].
  exists (a :: ops), s'. cbn [play]. rewrite Hstep. now split.
Qed.

(** *** What the loop has received when it ends *)

Lemma delivered_built (c : Client) (ws : list worker) :
  Forall (built c) ws ->
  (forall w, In w ws -> delivered (at_wpc w) <> []) ->
  exists arrivals,
    map returning arrivals = map job ws
    /\ flat_map (fun w => delivered (at_wpc w)) ws = map (checkOne c) arrivals.
Proof.
  induction ws as [|w ws IH]; intros Hbuilt Hall.
  - exists []. split; reflexivity.
  - apply Forall_cons in Hbuilt as [Hw Hbuilt].
    destruct IH as (arrivals & Hjobs & Hsent);
      [exact Hbuilt | intros v Hv; apply Hall; now right |].
    specialize (Hall w (or_introl eq_refl)). unfold built in Hw.
    destruct (at_wpc w) as [| |r|r|r] eqn:Hat; cbn [delivered] in Hall;
      try congruence;
      destruct Hw as (imageCheck & env & Hjob & ->);
      exists ((imageCheck, env) :: arrivals); cbn [map flat_map];
      rewrite Hat, Hjob, Hjobs, Hsent; split; reflexivity.
Qed.

Lemma finished_collects (c : Client) (jobs : list (ImageCheck.t * option Answers))
    (size : nat) (s : state) :
  accounted c jobs size s -> finished s = true ->
  exists arrivals,
    Permutation (map returning arrivals) jobs
    /\ received s = map (checkOne c) arrivals.
Proof.
  intros [Hjobs _ _ _ Hbuilt Hsent] Hfin.
  unfold finished in Hfin. apply Nat.eqb_eq in Hfin.
  pose proof (Permutation_length Hsent) as Hlen. rewrite length_app in Hlen.
  pose proof (delivered_bound (workers s)) as Hbound.
  assert (results s = []) as Hnone by (destruct (results s); [reflexivity | simpl in Hlen; lia]).
  rewrite Hnone, app_nil_r in Hsent. rewrite Hnone in Hlen. simpl in Hlen.
  destruct (delivered_built c (workers s) Hbuilt) as (arrs & Harrs & Hflat).
  { apply delivered_all. lia. }
  rewrite Hflat in Hsent.
  apply Permutation_map_inv in Hsent as (arrivals & Hreceived & Hperm).
  exists arrivals. split; [|exact Hreceived].
  rewrite <- Hjobs, <- Harrs. apply Permutation_map. now symmetry.
Qed.

Lemma CheckMultipleImages_conclude (c : Client)
    (arrivals : list (ImageCheck.t * Answers)) (maxConcurrency : Z) :
  arrivals <> [] -> 0 < maxConcurrency ->
  CheckMultipleImages c arrivals maxConcurrency
  = Returns (conclude (map (checkOne c) arrivals)).
Proof.
  intros Hsome Hpos. unfold CheckMultipleImages, conclude.
  destruct arrivals as [|arrival arrivals]; [congruence|]. cbn [List.length Nat.eqb].
  destruct (Z.ltb_spec maxConcurrency 0); [lia|].
  destruct (Z.eqb_spec maxConcurrency 0); [lia|].
  destruct (collect (map (checkOne c) (arrival :: arrivals))) as [updateInfos errors].
  now destruct ((0 <? List.length errors)%nat && (List.length updateInfos =? 0)%nat).
Qed.

(** *** An unbuffered semaphore *)

Lemma unbuffered_stuck (c : Client) (jobs : list (ImageCheck.t * option Answers))
    (a : op) :
  step c {| capacity := 0; sem := 0;
            workers := map (fun j => {| job := j; at_wpc := WAcquire |}) jobs;
            results := []; received := [] |} a = None.
Proof.
  destruct a as [i|i j|i|i|i|]; cbn [step capacity sem workers results received].
  - destruct (_ !! i) as [w|] eqn:Hw; [|reflexivity].
    now rewrite (lookup_launched _ _ _ Hw).
  - destruct (_ !! i) as [w|] eqn:Hw; [|reflexivity].
    destruct (_ !! j) as [v|] eqn:Hv; [|reflexivity].
    now rewrite (lookup_launched _ _ _ Hw), (lookup_launched _ _ _ Hv).
  - destruct (_ !! i) as [w|] eqn:Hw; [|reflexivity].
    now rewrite (lookup_launched _ _ _ Hw).
  - destruct (_ !! i) as [w|] eqn:Hw; [|reflexivity].
    now rewrite (lookup_launched _ _ _ Hw).
  - destruct (_ !! i) as [w|] eqn:Hw; [|reflexivity].
    now rewrite (lookup_launched _ _ _ Hw).
  - now destruct (finished _).
Qed.

Lemma unbuffered_runs (c : Client) (jobs : list (ImageCheck.t * option Answers))
    (s0 s : state) :
  enter jobs 0 = Launched s0 -> runs c s0 s -> s = s0.
Proof.
  intros Henter Hruns. induction Hruns as [|s a s' _ IH Hstep]; [reflexivity|].
  subst s. unfold enter in Henter.
  destruct (List.length jobs =? 0)%nat; [discriminate|].
  cbn in Henter. injection Henter as <-.
  now rewrite unbuffered_stuck in Hstep.
Qed.

Lemma play_runs (c : Client) (ops : list op) (s s' : state) :
  play c s ops = Some s' -> runs c s s'.
Proof.
  enough (forall s0, runs c s0 s -> play c s ops = Some s' -> runs c s0 s') as Hgen
    by (apply Hgen; constructor).
  revert s. induction ops as [|a ops IH]; intros s s0 Hruns Hplay; cbn [play] in Hplay.
  - now injection Hplay as <-.
  - destruct (step c s a) as [s1|] eqn:Hstep; [|discriminate].
    apply (IH s1 s0); [|exact Hplay]. exact (run_on c s0 s a s1 Hruns Hstep).
Qed.

Lemma launched_accounted (c : Client) (jobs : list (ImageCheck.t * option Answers))
    (maxConcurrency : Z) (s0 s : state) :
  enter jobs maxConcurrency = Launched s0 -> runs c s0 s ->
  jobs <> [] /\ 0 <= maxConcurrency
  /\ accounted c jobs (Z.to_nat maxConcurrency) s.
Proof.
  intros Henter Hruns. unfold enter in Henter.
  destruct jobs as [|j jobs]; [discriminate|]. cbn [List.length Nat.eqb] in Henter.
  destruct (Z.ltb_spec maxConcurrency 0); [discriminate|].
  injection Henter as <-.
  split; [discriminate|]. split; [assumption|].
  apply (runs_accounted c _ _ _ _ (accounted_launched c (j :: jobs) _) Hruns).
Qed.

(** X12. [CheckMultipleImages] as its goroutines run it: [sem] is a channel
    of size [maxConcurrency], [results] one of size [len(images)], every
    goroutine sends on [sem], calls [CheckImageUpdate], sends its result
    and receives from [sem], and the loop receives [len(images)] results.
    In every state that the goroutines and the loop can reach, in whatever
    order they take their steps: each step uses up work, so no run goes on
    for ever; at most [maxConcurrency] goroutines are inside
    [CheckImageUpdate]; when the loop has made its rounds, what it has
    received is the results of the images in some order, and the function
    returns what the statements after the loop make of them; for a positive
    [maxConcurrency] and calls of [CheckImageUpdate] that all return, some
    step can be taken while the loop has rounds to make, and the steps that
    are left bring the loop to its end.  With
    [maxConcurrency] zero no step can ever be taken and the loop waits for
    ever; for a negative one [make] panics; for no images the function
    returns at once. *)
Theorem CheckMultipleImages_goroutines (c : Client)
    (jobs : list (ImageCheck.t * option Answers)) (maxConcurrency : Z) :
  (enter jobs maxConcurrency = ReturnsAtOnce ->
   jobs = [] /\ CheckMultipleImages c [] maxConcurrency = Returns ([], None))
  /\ (enter jobs maxConcurrency = PanicsAtMake ->
      maxConcurrency < 0
      /\ forall arrivals,
           Permutation (map returning arrivals) jobs ->
           CheckMultipleImages c arrivals maxConcurrency = Panics)
  /\ (forall s0 s,
        enter jobs maxConcurrency = Launched s0 -> runs c s0 s ->
        (forall a s', step c s a = Some s' -> (work_left s' < work_left s)%nat)
        /\ (list_sum (map (fun w => checking (at_wpc w)) (workers s))
             <= Z.to_nat maxConcurrency)%nat
        /\ (finished s = true ->
            exists arrivals,
              Permutation (map returning arrivals) jobs
              /\ received s = map (checkOne c) arrivals
              /\ CheckMultipleImages c arrivals maxConcurrency
                 = Returns (conclude (received s)))
        /\ (0 < maxConcurrency -> all_return jobs ->
            (finished s = false -> exists a s', step c s a = Some s')
            /\ exists ops s', play c s ops = Some s' /\ finished s' = true)
        /\ (maxConcurrency = 0 ->
            finished s = false
            /\ (forall a, step c s a = None)
            /\ forall arrivals,
                 Permutation (map returning arrivals) jobs ->
                 CheckMultipleImages c arrivals maxConcurrency = Blocks)).
Proof.
  split; [|split].
  - unfold enter. destruct jobs as [|j jobs]; [now split|].
    cbn [List.length Nat.eqb]. now destruct (maxConcurrency <? 0).
  - unfold enter. destruct jobs as [|j jobs]; [discriminate|].
    cbn [List.length Nat.eqb].
    destruct (Z.ltb_spec maxConcurrency 0) as [Hneg|]; [|discriminate].
    intros _. split; [exact Hneg|]. intros arrivals Hperm.
    apply Permutation_length in Hperm. rewrite length_map in Hperm.
    unfold CheckMultipleImages.
    destruct arrivals as [|arrival arrivals]; [discriminate|].
    cbn [List.length Nat.eqb]. apply Z.ltb_lt in Hneg. now rewrite Hneg.
  - intros s0 s Henter Hruns.
    destruct (launched_accounted c jobs maxConcurrency s0 s Henter Hruns)
      as (Hsome & Hsize & Hacc).
    split; [|split; [|split; [|split]]].
    + intros a s'. apply step_decreases.
    + destruct Hacc as [_ Hcap Hsem Hle _ _]. rewrite <- Hcap.
      apply Nat.le_trans with (sem s); [|exact Hle]. rewrite Hsem.
      apply list_sum_le. intros w. destruct (at_wpc w); simpl; lia.
    + intros Hfin.
      destruct (finished_collects c jobs _ s Hacc Hfin) as (arrivals & Hperm & Hreceived).
      exists arrivals. split; [exact Hperm|]. split; [exact Hreceived|].
      rewrite Hreceived. apply CheckMultipleImages_conclude.
      * intros ->. apply Permutation_nil in Hperm. now apply Hsome.
      * destruct (Z.eq_dec maxConcurrency 0) as [->|]; [|lia]. exfalso.
        rewrite (unbuffered_runs c jobs s0 s Henter Hruns) in Hfin.
        unfold enter in Henter. destruct jobs as [|j jobs]; [now apply Hsome|].
        cbn in Henter. injection Henter as <-. discriminate.
    + intros Hpos Hret. split.
      * intros Hfin.
        apply (step_progress c jobs (Z.to_nat maxConcurrency) s Hacc);
          [lia | assumption..].
      * apply (run_completes c jobs (Z.to_nat maxConcurrency)) with (n := work_left s);
          [lia | exact Hret | lia | exact Hacc].
    + intros ->. rewrite (unbuffered_runs c jobs s0 s Henter Hruns).
      unfold enter in Henter. destruct jobs as [|j jobs]; [now contradiction Hsome|].
      cbn in Henter. injection Henter as <-.
      split; [reflexivity|]. split; [intros a; exact (unbuffered_stuck c (j :: jobs) a)|].
      intros arrivals Hperm. apply Permutation_length in Hperm.
      rewrite length_map in Hperm.
      destruct arrivals as [|arrival arrivals]; [discriminate|]. reflexivity.
Qed.

End WithUnicodeCase.

Lemma CheckMultipleImages_goroutines_witness :
  exists s0 s,
    enter [(nginx, Some (answered [])); (nginx, Some unreachable)] 1 = Launched s0
    /\ @play Strings.asciiOnly (NewClient 100 10) s0
         [Acquire 1; Check 1; Send 1; Receive; Release 1;
          Acquire 0; Check 0; Send 0; Release 0; Receive] = Some s
    /\ finished s = true
    /\ exists arrivals,
         Permutation (map returning arrivals)
           [(nginx, Some (answered [])); (nginx, Some unreachable)]
         /\ received s = map (@checkOne Strings.asciiOnly (NewClient 100 10)) arrivals
         /\ @CheckMultipleImages Strings.asciiOnly (NewClient 100 10) arrivals 1
            = Returns (conclude (received s)).
Proof.
  destruct (enter [(nginx, Some (answered [])); (nginx, Some unreachable)] 1)
    as [| |s0] eqn:Henter; try (vm_compute in Henter; discriminate).
  destruct (@play Strings.asciiOnly (NewClient 100 10) s0
              [Acquire 1; Check 1; Send 1; Receive; Release 1;
               Acquire 0; Check 0; Send 0; Release 0; Receive])
    as [s|] eqn:Hplay.
  2: { exfalso. vm_compute in Henter. injection Henter as <-.
       vm_compute in Hplay. discriminate. }
  assert (finished s = true) as Hfin.
  { vm_compute in Henter. injection Henter as <-.
    vm_compute in Hplay. injection Hplay as <-. reflexivity. }
  exists s0, s. split; [reflexivity|]. split; [exact Hplay|]. split; [exact Hfin|].
  exact (proj1 (proj2 (proj2
           (proj2 (proj2
              (@CheckMultipleImages_goroutines Strings.asciiOnly (NewClient 100 10)
                 [(nginx, Some (answered [])); (nginx, Some unreachable)] 1))
              s0 s Henter (@play_runs Strings.asciiOnly _ _ _ _ Hplay)))) Hfin).
Defined.

End BatchProps.
